(** * Event study: a shallow embedding of the [event_study] package

    The package computes, for one ticker, the cumulative abnormal return
    (CAR) around analyst recommendation changes and a t-statistic per
    event type.  The modules embedded here are

    - [config.py]     : [standardise_colnames]
    - [mk_rets.py]    : [mk_ret_df]
    - [mk_events.py]  : [mk_event_df]
    - [mk_cars.py]    : [expand_dates], [calc_car], [mk_cars_df]
    - [test_hypo.py]  : [calc_tstats]

    Conventions of the embedding.

    - A pandas table is a list of typed rows, in row order; the columns a
      function never touches are left out of the row type.
    - A Python float is an IEEE 754 binary64 value, [spec_float] of the
      standard library with the binary64 parameters; NaN is pandas'
      missing value.
    - A calendar date (a midnight [Timestamp]) is the number of days since
      1970-01-01; a recommendation timestamp is a number of seconds since
      that epoch.
    - A float result depends on the order of the operations, so the
      aggregations the package calls are the loops of the libraries:
      numpy's pairwise summation behind [Series.sum()], and the
      compensated mean and the running variance of pandas (1.5) behind
      [groups.mean()] and [groups.sem()].
    - A Python exception is the [Raise] case of [result].
    - File access ([pd.read_csv]) stays outside: the functions take the
      tables the files hold. *)

From Stdlib Require Import ZArith List String Ascii Bool Lia Permutation Sorted.
From Stdlib Require Import OrderedTypeEx.
From Stdlib Require Import SpecFloat FloatOps PrimFloat.
Import ListNotations.

Set Warnings "-inexact-float".
Local Open Scope string_scope.
Local Open Scope list_scope.
Local Open Scope Z_scope.

(* ================================================================== *)
(** * Part I: the model *)
(* ================================================================== *)

(** ** Exceptions *)

Inductive exn : Type :=
| ValueError (msg : string)
    (* raised by pandas: [pd.concat] of no objects, [pd.to_datetime] of a
       string that is no date, a column of the wrong length *)
| UnknownAction (value : string)
    (* [Exception(f'Unknown value for column `action`: {value}')] *)
| TypeError (msg : string)
    (* an object of the wrong kind behind a reference *)
| AttributeError (msg : string).
    (* an attribute that the object lacks: [strftime] on an index that
       holds no timestamps *)

Inductive result (A : Type) : Type :=
| Ok (a : A)
| Raise (e : exn).
Arguments Ok {A} a.
Arguments Raise {A} e.

Definition bind {A B : Type} (m : result A) (k : A -> result B) : result B :=
  match m with
  | Ok a => k a
  | Raise e => Raise e
  end.

Notation "x <- m ;; k" := (bind m (fun x => k))
  (at level 61, m at next level, right associativity).

(** [[f(x) for x in l]], stopping at the first exception. *)
Fixpoint mapM {A B : Type} (f : A -> result B) (l : list A) : result (list B) :=
  match l with
  | [] => Ok []
  | x :: l' => y <- f x ;; ys <- mapM f l' ;; Ok (y :: ys)
  end.

(** ** Floats *)

Definition float : Type := spec_float.

Definition fadd : float -> float -> float := SFadd prec emax.
Definition fsub : float -> float -> float := SFsub prec emax.
Definition fmul : float -> float -> float := SFmul prec emax.
Definition fdiv : float -> float -> float := SFdiv prec emax.
Definition fsqrt : float -> float := SFsqrt prec emax.

(** [np.nan] *)
Definition nan : float := S754_nan.
(** [0.0] *)
Definition fzero : float := S754_zero false.
(** [1.0] *)
Definition fone : float := Eval vm_compute in Prim2SF 1%float.

(** The floats that the literals of the examples denote. *)
Definition f0_002 : float := Eval vm_compute in Prim2SF 0.002%float.
Definition f0_005 : float := Eval vm_compute in Prim2SF 0.005%float.
Definition f0_01 : float := Eval vm_compute in Prim2SF 0.01%float.
Definition f0_02 : float := Eval vm_compute in Prim2SF 0.02%float.
Definition f0_03 : float := Eval vm_compute in Prim2SF 0.03%float.
Definition f0_1 : float := Eval vm_compute in Prim2SF 0.1%float.
Definition f1_1 : float := Eval vm_compute in Prim2SF 1.1%float.
Definition f2 : float := Eval vm_compute in Prim2SF 2%float.
Definition f100 : float := Eval vm_compute in Prim2SF 100%float.
Definition f110 : float := Eval vm_compute in Prim2SF 110%float.
Definition f121 : float := Eval vm_compute in Prim2SF 121%float.

(** [pd.isna] on a float: NaN only (an infinity is a value). *)
Definition isna (x : float) : bool :=
  match x with
  | S754_nan => true
  | _ => false
  end.

Definition is_inf (x : float) : bool :=
  match x with
  | S754_infinity _ => true
  | _ => false
  end.

Definition is_zero (x : float) : bool :=
  match x with
  | S754_zero _ => true
  | _ => false
  end.

(** The float nearest to an integer ([float(n)]). *)
Definition float_of_Z (n : Z) : float := binary_normalize prec emax n 0 false.

(** ** Strings *)

(** [str.lower] and [str.upper], on the ASCII letters (other bytes are
    left as they are). *)
Definition lower_ascii (c : ascii) : ascii :=
  let n := nat_of_ascii c in
  if (Nat.leb 65 n && Nat.leb n 90)%bool then ascii_of_nat (n + 32) else c.

Definition upper_ascii (c : ascii) : ascii :=
  let n := nat_of_ascii c in
  if (Nat.leb 97 n && Nat.leb n 122)%bool then ascii_of_nat (n - 32) else c.

Fixpoint str_map (f : ascii -> ascii) (s : string) : string :=
  match s with
  | EmptyString => EmptyString
  | String c s' => String (f c) (str_map f s')
  end.

Definition lower (s : string) : string := str_map lower_ascii s.
Definition upper (s : string) : string := str_map upper_ascii s.

(** [s.replace(' ', '_')] *)
Definition replace_space (s : string) : string :=
  str_map (fun c => if Ascii.eqb c " "%char then "_"%char else c) s.

(** [pat in s]: [pat] occurs in [s] as a substring. *)
Fixpoint contains (pat s : string) : bool :=
  if prefix pat s then true
  else match s with
       | EmptyString => false
       | String _ s' => contains pat s'
       end.

(** [x in cols] for a set of strings. *)
Definition mem (x : string) (cols : list string) : bool :=
  existsb (String.eqb x) cols.

(** ** Calendar dates *)

(** Python's [range(a, b)]. *)
Definition range (a b : Z) : list Z :=
  map (fun i => a + Z.of_nat i) (seq 0 (Z.to_nat (b - a))).

(** Days since 1970-01-01 of a date of the proleptic Gregorian calendar
    (the calendar of [Timestamp]). *)
Definition days_from_civil (y m d : Z) : Z :=
  let y := if m <=? 2 then y - 1 else y in
  let era := y / 400 in
  let yoe := y - era * 400 in
  let mp := if 2 <? m then m - 3 else m + 9 in
  let doy := (153 * mp + 2) / 5 + d - 1 in
  let doe := yoe * 365 + yoe / 4 - yoe / 100 + doy in
  era * 146097 + doe - 719468.

(** Year, month and day of a day number. *)
Definition civil_from_days (z : Z) : Z * Z * Z :=
  let z := z + 719468 in
  let era := z / 146097 in
  let doe := z - era * 146097 in
  let yoe := (doe - doe / 1460 + doe / 36524 - doe / 146096) / 365 in
  let y := yoe + era * 400 in
  let doy := doe - (365 * yoe + yoe / 4 - yoe / 100) in
  let mp := (5 * doy + 2) / 153 in
  let d := doy - (153 * mp + 2) / 5 + 1 in
  let m := if mp <? 10 then mp + 3 else mp - 9 in
  (if m <=? 2 then y + 1 else y, m, d).

Definition is_leap (y : Z) : bool :=
  ((y mod 4 =? 0) && negb (y mod 100 =? 0) || (y mod 400 =? 0))%bool.

Definition days_in_month (y m : Z) : Z :=
  if m =? 2 then (if is_leap y then 29 else 28)
  else if (m =? 4) || (m =? 6) || (m =? 9) || (m =? 11) then 30
  else 31.

Definition digit_of_ascii (c : ascii) : option Z :=
  let n := Z.of_nat (nat_of_ascii c) in
  if (48 <=? n) && (n <=? 57) then Some (n - 48) else None.

Definition ascii_of_digit (n : Z) : ascii :=
  ascii_of_nat (Z.to_nat (48 + n mod 10)).

(** [n] written with [w] decimal digits, zero padded. *)
Fixpoint zero_padded (w : nat) (n : Z) : string :=
  match w with
  | O => EmptyString
  | S w' => (zero_padded w' (n / 10) ++ String (ascii_of_digit n) EmptyString)%string
  end.

(** The decimal number a string of digits writes. *)
Fixpoint number_of_digits (acc : Z) (s : string) : option Z :=
  match s with
  | EmptyString => Some acc
  | String c s' =>
      match digit_of_ascii c with
      | Some d => number_of_digits (10 * acc + d) s'
      | None => None
      end
  end.

(** [ts.strftime('%Y-%m-%d')] of a day number. *)
Definition strftime_ymd (z : Z) : string :=
  let '(y, m, d) := civil_from_days z in
  (zero_padded 4 y ++ "-" ++ zero_padded 2 m ++ "-" ++ zero_padded 2 d)%string.

(** [pd.to_datetime] of a date string.  The model reads the format
    'YYYY-MM-DD', the one [mk_event_df] writes, and refuses any other
    string.  It agrees with pandas on the dates a [Timestamp] can hold
    (1677-09-22 to 2262-04-11) written in that format; pandas reads other
    formats as well, makes [NaT] of the empty string and refuses the
    dates outside that range, none of which the model follows. *)
Definition to_datetime (s : string) : result Z :=
  let bad := Raise (ValueError "Unknown datetime string format") in
  if negb (Nat.eqb (String.length s) 10) then bad
  else if negb (String.eqb (substring 4 1 s) "-" && String.eqb (substring 7 1 s) "-") then bad
  else
    match number_of_digits 0 (substring 0 4 s),
          number_of_digits 0 (substring 5 2 s),
          number_of_digits 0 (substring 8 2 s) with
    | Some y, Some m, Some d =>
        if (1 <=? m) && (m <=? 12) && (1 <=? d) && (d <=? days_in_month y m)
        then Ok (days_from_civil y m d)
        else Raise (ValueError "day is out of range for month")
    | _, _, _ => bad
    end.

(** The date [z] is read back from the string written for it. *)
Definition reads_back (z : Z) : bool :=
  match to_datetime (strftime_ymd z) with
  | Ok d => d =? z
  | Raise _ => false
  end.

(** [reads_back] on the [n] days from [z] on. *)
Fixpoint all_read_back (n : nat) (z : Z) : bool :=
  match n with
  | O => true
  | S n' => if reads_back z then all_read_back n' (z + 1) else false
  end.

(** ** config.py: [standardise_colnames] *)

Module config.

(** The sample period of the downloads. *)
Definition START : string := "1900-01-01".
Definition END : string := "2020-12-31".

(** The days of the sample period: 1900-01-01 is day -25567 and
    2020-12-31 is day 18627. *)
Definition in_sample_period (z : Z) : Prop := -25567 <= z <= 18627.

(** A table as the renaming sees it: the column labels, in order, each
    with its column of values. *)
Definition frame (V : Type) : Type := list (string * list V).

Definition columns {V : Type} (df : frame V) : list string := map fst df.

(** The local function [_parse_name]; [cols] is [set(df.columns)]. *)
Definition _parse_name (cols : list string) (colname : string) : string :=
  let new_name := replace_space (lower colname) in
  if String.eqb new_name colname then colname
  else if mem new_name cols then ("_" ++ new_name)%string
  else new_name.

(** [df.rename(columns=_parse_name)]: every label goes through
    [_parse_name]; the columns and their values stay. *)
Definition standardise_colnames {V : Type} (df : frame V) : frame V :=
  let cols := columns df in
  map (fun c => (_parse_name cols (fst c), snd c)) df.

(** The name a label normalizes to. *)
Definition normalized (colname : string) : string :=
  replace_space (lower colname).

(** A table with the labels "Adj Close" and "ADJ CLOSE". *)
Definition two_raw_labels : frame Z :=
  [("Adj Close", [1; 2]); ("ADJ CLOSE", [3; 4])].

(** A table with the labels "Adj Close" and "adj_close". *)
Definition raw_and_normal : frame Z :=
  [("Adj Close", [1; 2]); ("adj_close", [3; 4])].

(** [s.replace(a, b)] for single characters. *)
Definition replace_char (a b : ascii) (s : string) : string :=
  str_map (fun c => if Ascii.eqb c a then b else c) s.

(** [s.endswith('/')] *)
Fixpoint ends_with_sep (s : string) : bool :=
  match s with
  | EmptyString => false
  | String c EmptyString => Ascii.eqb c "/"%char
  | String _ s' => ends_with_sep s'
  end.

(** [os.path.join(a, b)] on a POSIX system: an absolute [b] replaces
    [a]; otherwise [b] is appended, after a '/' unless [a] is empty or
    ends with one. *)
Definition path_join (a b : string) : string :=
  if prefix "/" b then b
  else if (String.eqb a "" || ends_with_sep a)%bool then (a ++ b)%string
  else (a ++ "/" ++ b)%string.

(** The dictionary [csv_locs] returns. *)
Record locs : Type := {
  rec_csv : string;
  prc_csv : string
}.

Section Paths.

(** [toolkit_config.DATADIR], set outside this package. *)
Variable DATADIR : string.

Definition FF_FACTORS_CSV : string := path_join DATADIR "ff_daily.csv".

Definition csv_locs (tic : string) : locs :=
  let tic := replace_char "."%char "_"%char (lower tic) in
  {| rec_csv := path_join DATADIR (tic ++ "_rec.csv")%string;
     prc_csv := path_join DATADIR (tic ++ "_prc.csv")%string |}.

End Paths.

End config.

(** ** Tables shared by the stages *)

(** A row of the event table ([mk_event_df]'s output); [event_id] is the
    index. *)
Record Event : Type := {
  event_id : Z;
  firm : string;
  event_date : string;      (* 'YYYY-MM-DD' *)
  event_type : string       (* "upgrade" or "downgrade" *)
}.

(** A row of the returns table ([mk_ret_df]'s output); [date] is the
    index. *)
Record RetRow : Type := {
  date : Z;
  mkt : float;
  ret : float
}.

(** ** mk_cars.py *)

Module mk_cars.

(** A row of the table [expand_dates] returns; the index holds the
    event's id on every row. *)
Record DateRow : Type := {
  dr_event_id : Z;
  dr_firm : string;
  dr_event_date : Z;        (* datetime64 *)
  event_time : Z;
  ret_date : Z              (* datetime64 *)
}.

(** [pd.concat(row_lst, axis=1).transpose()]: one row per series;
    pandas refuses an empty list. *)
Definition concat_rows {A : Type} (row_lst : list A) : result (list A) :=
  match row_lst with
  | [] => Raise (ValueError "No objects to concatenate")
  | _ => Ok row_lst
  end.

(** [df.loc[:, name] = values] for a list of values: the lengths must
    agree. *)
Definition set_column {A B : Type} (df : list A) (values : list B)
  : result (list (A * B)) :=
  if Nat.eqb (List.length values) (List.length df) then Ok (combine df values)
  else Raise (ValueError "Length of values does not match length of index").

Definition expand_dates (ser : Event) (window : Z) : result (list DateRow) :=
  (* Create a list of series *)
  let row_lst := repeat ser (Z.to_nat (2 * window + 1)) in
  (* Create a new dataframe with copies of the single-row dataframe *)
  df <- concat_rows row_lst ;;
  (* Create the event date col *)
  event_dates <- mapM to_datetime (map event_date df) ;;
  let df := combine df event_dates in
  (* Create the event time *)
  df <- set_column df (range (- window) (window + 1)) ;;
  (* Create the return date; keep only relevant columns *)
  Ok (map (fun row =>
             let '(s, d, k) := row in
             {| dr_event_id := event_id s;
                dr_firm := firm s;
                dr_event_date := d;
                event_time := k;
                ret_date := d + k |}) df).

(** [dates.join(ret_df, how='inner')] with [ret_date] as the index of
    [dates]: the pairs of rows with the same date, in the order of the
    calling table, the matches of one row in the order of [ret_df]. *)
Definition join_inner (dates : list DateRow) (ret_df : list RetRow)
  : list (DateRow * RetRow) :=
  flat_map (fun d => map (pair d) (filter (fun r => date r =? ret_date d) ret_df)) dates.

(** [Series.sum()] is [nanops.nansum]: with the default [skipna=True] a
    missing value is replaced by 0, and the array is handed to numpy's
    [sum].  numpy starts from the identity 0.0 and adds to it the
    pairwise sum of the array ([DOUBLE_pairwise_sum] of
    [loops_utils.h.src]):

    - fewer than 8 values are added one after the other;
    - up to 128 values are added into eight accumulators, [r[j]] taking
      the values at the positions [j], [j + 8], [j + 16], ...; the
      accumulators are added as a balanced tree, and the values beyond
      the last full block of eight are added to that, one after the
      other;
    - a longer array is cut at [n2 = n / 2 - (n / 2) % 8] and the sums of
      the two parts are added.

    (The sign of a zero result is the one of [0.0 + ...], as numpy has it
    when its identity is 0.0.) *)

(** [r[j] += a[i + j]] for the [j] of one block. *)
Fixpoint add_block (r block : list float) : list float :=
  match r, block with
  | rj :: r', x :: block' => fadd rj x :: add_block r' block'
  | _, _ => r
  end.

(** [for (i = 8; i < n - (n % 8); i += 8)]: [blocks] full blocks are
    added to the accumulators; what is left of the array is returned
    with them. *)
Fixpoint unrolled (blocks : nat) (r a : list float) : list float * list float :=
  match blocks with
  | O => (r, a)
  | S blocks' => unrolled blocks' (add_block r (firstn 8 a)) (skipn 8 a)
  end.

(** [((r[0] + r[1]) + (r[2] + r[3])) + ((r[4] + r[5]) + (r[6] + r[7]))] *)
Definition accumulate (r : list float) : float :=
  match r with
  | [r0; r1; r2; r3; r4; r5; r6; r7] =>
      fadd (fadd (fadd r0 r1) (fadd r2 r3)) (fadd (fadd r4 r5) (fadd r6 r7))
  | _ => nan
  end.

(** The first two cases of [pairwise_sum]: an array of at most
    [PW_BLOCKSIZE] values. *)
Definition block_sum (a : list float) : float :=
  let n := List.length a in
  if Nat.ltb n 8 then fold_left fadd a fzero
  else
    let '(r, rest) := unrolled (n / 8 - 1)%nat (firstn 8 a) (skipn 8 a) in
    fold_left fadd rest (accumulate r).

(** [pairwise_sum(a, n)].  The recursion halves the array; [fuel] bounds
    its depth, and the length of the array is always enough
    ([pairwise_sum_fuel] below). *)
Fixpoint pairwise_sum (fuel : nat) (a : list float) : float :=
  let n := List.length a in
  if Nat.leb n 128 then block_sum a
  else
    match fuel with
    | O => block_sum a
    | S fuel' =>
        let n2 := (n / 2 - (n / 2) mod 8)%nat in
        fadd (pairwise_sum fuel' (firstn n2 a)) (pairwise_sum fuel' (skipn n2 a))
    end.

(** [ndarray.sum()] of a float64 array. *)
Definition np_sum (a : list float) : float :=
  fadd fzero (pairwise_sum (List.length a) a).

(** [np.putmask(values, mask, 0)] *)
Definition fill_missing (xs : list float) : list float :=
  map (fun x => if isna x then fzero else x) xs.

Definition nansum (xs : list float) : float := np_sum (fill_missing xs).

Definition calc_car (ser : Event) (ret_df : list RetRow) (window : Z) : result float :=
  (* Step 4.1: Expand dates and set 'ret_date' as the new index *)
  dates <- expand_dates ser window ;;
  (* Step 4.2: Join stock and market returns *)
  let df := join_inner dates ret_df in
  (* Step 4.3: Compute abnormal returns *)
  let aret := map (fun row => fsub (ret (snd row)) (mkt (snd row))) df in
  (* Step 4.4: Sum abnormal returns; if df is empty, return np.nan *)
  if Nat.eqb (List.length df) 0 then Ok nan
  else Ok (nansum aret).

(** The tables are Python objects, passed by reference.  An event table
    may or may not have the column 'car'. *)
Record EventFrame : Type := {
  ev_rows : list Event;
  ev_car : option (list float)
}.

Inductive object : Type :=
| RetFrame (rows : list RetRow)
| EventsFrame (df : EventFrame).

Definition ref : Type := nat.
Definition store : Type := ref -> option object.

Definition update (h : store) (r : ref) (o : object) : store :=
  fun r' => if Nat.eqb r' r then Some o else h r'.

(** [mk_cars_df(ret_df, event_df)]: [calc_car] on every row with the
    default window, the result assigned to the column 'car' of
    [event_df] itself, which is returned. *)
Definition mk_cars_df (ret_df event_df : ref) (h : store) : result (ref * store) :=
  match h ret_df, h event_df with
  | Some (RetFrame rets), Some (EventsFrame ev) =>
      cars <- mapM (fun ser => calc_car ser rets 2) (ev_rows ev) ;;
      let ev' := {| ev_rows := ev_rows ev; ev_car := Some cars |} in
      Ok (event_df, update h event_df (EventsFrame ev'))
  | _, _ => Raise (TypeError "not a data frame of the expected kind")
  end.

(** *** Sample data *)

(** The event of the docstring of [expand_dates]. *)
Definition wunderlich : Event :=
  {| event_id := 1; firm := "Wunderlich"; event_date := "2012-02-16";
     event_type := "upgrade" |}.

(** One trading day, 2012-02-16, with a stock return of 0.02 and a
    market return of 0.01. *)
Definition one_day : list RetRow :=
  [ {| date := 15386; mkt := f0_01; ret := f0_02 |} ].

(** The same day with the stock return missing. *)
Definition one_day_missing : list RetRow :=
  [ {| date := 15386; mkt := f0_01; ret := nan |} ].

(** A store with a returns table at 0 and an event table at 1. *)
Definition sample_store : store :=
  fun r =>
    match r with
    | O => Some (RetFrame one_day)
    | S O => Some (EventsFrame {| ev_rows := [wunderlich]; ev_car := None |})
    | _ => None
    end.

(** The sample store once the event table holds its column 'car'. *)
Definition sample_store_after : store :=
  update sample_store 1%nat
    (EventsFrame {| ev_rows := [wunderlich]; ev_car := Some [f0_01] |}).

(** The local function [_mk_example_event_df] of [_test_mk_cars_df]: the
    events of DEUTSCHE BANK on 2020-09-23, re-indexed by the list [[1]];
    the assignment of the index refuses any other number of rows. *)
Definition _mk_example_event_df (event_df : list Event) : result (list Event) :=
  let cond := fun e => (String.eqb (event_date e) "2020-09-23"
                        && String.eqb (firm e) "DEUTSCHE BANK")%bool in
  let event_df := filter cond event_df in
  if Nat.eqb (List.length event_df) 1
  then Ok (map (fun e => {| event_id := 1; firm := firm e;
                            event_date := event_date e;
                            event_type := event_type e |}) event_df)
  else Raise (ValueError "Length mismatch").

(** [ret_df.loc[first:last]] on a table in date order: the rows dated
    from [first] to [last], both included. *)
Definition loc_slice (first last : Z) (ret_df : list RetRow) : list RetRow :=
  filter (fun r => (first <=? date r) && (date r <=? last))%bool ret_df.

(** A trading day outside the window of the sample event. *)
Definition one_day_far : list RetRow :=
  [ {| date := 15400; mkt := f0_01; ret := f0_03 |} ].

End mk_cars.

(** ** The CAR engine in the words of the specification *)

(** The candidate row of offset [k] for an event on day [d]: event_time
    is [k] and ret_date is the event date plus [k] calendar days. *)
Definition spec_window_row (ser : Event) (d k : Z) : mk_cars.DateRow :=
  {| mk_cars.dr_event_id := event_id ser;
     mk_cars.dr_firm := firm ser;
     mk_cars.dr_event_date := d;
     mk_cars.event_time := k;
     mk_cars.ret_date := d + k |}.

(** The return records matched by the window of half-width [w] around
    day [d]: for each offset in turn, the records dated [d + k]. *)
Definition spec_matched (d w : Z) (ret_df : list RetRow) : list RetRow :=
  flat_map (fun k => filter (fun r => date r =? d + k) ret_df) (range (- w) (w + 1)).

(** abnormal_return = stock_return - market_return *)
Definition spec_abnormal_return (r : RetRow) : float := fsub (ret r) (mkt r).

(** CAR = sum of abnormal_return over all matched rows: the values
    added one after the other, in the order of the rows. *)
Definition spec_car_sum (d w : Z) (ret_df : list RetRow) : float :=
  fold_left fadd (map spec_abnormal_return (spec_matched d w ret_df)) fzero.

(** Floating-point addition is not associative, so the values of a list
    have one sum per order and grouping of the additions.
    [spec_adds_up xs v]: [v] is a sum of [xs], every value of the list
    taking part exactly once; the empty sum is 0.0. *)
Inductive spec_adds_up : list float -> float -> Prop :=
| adds_up_none : spec_adds_up [] fzero
| adds_up_one (x : float) : spec_adds_up [x] x
| adds_up_add (xs1 xs2 xs : list float) (a b : float) :
    spec_adds_up xs1 a -> spec_adds_up xs2 b ->
    Permutation xs (xs1 ++ xs2) ->
    spec_adds_up xs (fadd a b).

(** ** Sorting *)

(** Insertion of [x] before the first element it is not greater than. *)
Fixpoint insert_by {A : Type} (leb : A -> A -> bool) (x : A) (l : list A) : list A :=
  match l with
  | [] => [x]
  | y :: l' => if leb x y then x :: y :: l' else y :: insert_by leb x l'
  end.

(** A stable sort: rows that compare equal keep their order. *)
Definition sort_by {A : Type} (leb : A -> A -> bool) (l : list A) : list A :=
  fold_right (insert_by leb) [] l.

(** [df.sort_index()] for an index of dates or timestamps.  pandas
    promises no order among rows with the same index (its default sort
    is not stable); the model keeps them in the order they had. *)
Definition sort_index {A : Type} (index : A -> Z) (df : list A) : list A :=
  sort_by (fun x y => index x <=? index y) df.

(** Rows in the order of their index. *)
Definition index_le {A : Type} (index : A -> Z) (a b : A) : Prop :=
  index a <= index b.

(** ** mk_rets.py *)

Module mk_rets.

(** A row of the price file: the index 'Date' and the column 'close'
    (the other columns are carried along and dropped by the selection of
    'mkt' and 'ret'). *)
Record PriceRow : Type := {
  p_date : Z;
  close : float
}.

(** A row of the market factor file: the index 'Date' and the column
    'mkt'. *)
Record FactorRow : Type := {
  f_date : Z;
  f_mkt : float
}.

(** The argument [fill_method] of [Series.pct_change]. *)
Inductive fill_method : Type :=
| pad            (* missing values are filled forward first *)
| no_fill.       (* [fill_method=None] *)

(** [Series.ffill()] *)
Fixpoint ffill (prev : float) (xs : list float) : list float :=
  match xs with
  | [] => []
  | x :: xs' =>
      let y := if isna x then prev else x in
      y :: ffill y xs'
  end.

(** [Series.pct_change(fill_method=fm)]: [data / data.shift(1) - 1]. *)
Definition pct_change (fm : fill_method) (xs : list float) : list float :=
  let data := match fm with pad => ffill nan xs | no_fill => xs end in
  let shifted := nan :: data in
  map (fun p => fsub (fdiv (fst p) (snd p)) fone) (combine data shifted).

Section Defaults.

(** The [fill_method] that [pct_change()] takes by default: [pad] in the
    pandas releases of the time, [None] in later ones. *)
Variable default_fill_method : fill_method.

Definition mk_ret_df (prc : list PriceRow) (ff_df : list FactorRow) : list RetRow :=
  (* 3. Calculate returns *)
  let df := sort_index p_date prc in
  let df := combine df (pct_change default_fill_method (map close df)) in
  (* 4.2: Inner join between `df` and `ff_df`, columns 'mkt' and 'ret' *)
  let df :=
    flat_map (fun row =>
                map (fun f => {| date := p_date (fst row); mkt := f_mkt f; ret := snd row |})
                    (filter (fun f => f_date f =? p_date (fst row)) ff_df)) df in
  (* df.dropna(inplace=True) *)
  filter (fun r => negb (isna (mkt r)) && negb (isna (ret r))) df.

End Defaults.

(** *** Sample data *)

(** Three trading days, given out of order. *)
Definition sample_prices : list PriceRow :=
  [ {| p_date := 15387; close := f121 |};
    {| p_date := 15385; close := f100 |};
    {| p_date := 15386; close := f110 |} ].

Definition sample_factors : list FactorRow :=
  [ {| f_date := 15385; f_mkt := f0_005 |};
    {| f_date := 15386; f_mkt := f0_01 |};
    {| f_date := 15387; f_mkt := nan |};
    {| f_date := 15390; f_mkt := f0_002 |} ].

End mk_rets.

(** ** mk_events.py *)

Module mk_events.

(** A row of the recommendation file: the index 'Date', a timestamp in
    seconds, and the columns 'firm' and 'action' (the only ones kept). *)
Record RecRow : Type := {
  ts : Z;
  rec_firm : string;
  action : string
}.

(** A row once the column 'event_date' is there. *)
Record DatedRow : Type := {
  d_ts : Z;
  d_firm : string;
  d_action : string;
  d_event_date : string
}.

(** A row of [groups.last().reset_index()]. *)
Record GroupRow : Type := {
  g_event_date : string;
  g_firm : string;
  g_action : string
}.

Definition seconds_per_day : Z := 86400.

(** The day a timestamp falls on. *)
Definition day_of (t : Z) : Z := t / seconds_per_day.

(** Step 2: upper-case firm names and the column 'event_date'. *)
Definition dated (r : RecRow) : DatedRow :=
  {| d_ts := ts r;
     d_firm := upper (rec_firm r);
     d_action := action r;
     d_event_date := strftime_ymd (day_of (ts r)) |}.

Definition with_event_date (df : list RecRow) : list DatedRow := map dated df.

Definition key : Type := (string * string)%type.

Definition key_of (r : DatedRow) : key := (d_event_date r, d_firm r).

Definition key_eqb (k1 k2 : key) : bool :=
  (String.eqb (fst k1) (fst k2) && String.eqb (snd k1) (snd k2))%bool.

Definition key_eq_dec (k1 k2 : key) : {k1 = k2} + {k1 <> k2}.
Proof. decide equality; apply string_dec. Defined.

(** The order of group keys: by event_date, then by firm. *)
Definition key_leb (k1 k2 : key) : bool :=
  match String.compare (fst k1) (fst k2) with
  | Lt => true
  | Eq => String.leb (snd k1) (snd k2)
  | Gt => false
  end.

(** [df.groupby(['event_date', 'firm'])]: the distinct keys, sorted. *)
Definition group_keys (df : list DatedRow) : list key :=
  sort_by key_leb (nodup key_eq_dec (map key_of df)).

(** The rows of one group, in the order of [df]. *)
Definition group (k : key) (df : list DatedRow) : list DatedRow :=
  filter (fun r => key_eqb (key_of r) k) df.

(** [groups.last().reset_index()]: per group the action of its last row
    (a group is never empty).  [GroupBy.last] takes the last value that
    is not missing; an action is a string here, never missing. *)
Definition groupby_last (df : list DatedRow) : list GroupRow :=
  map (fun k => {| g_event_date := fst k;
                   g_firm := snd k;
                   g_action := last (map d_action (group k df)) "" |})
      (group_keys df).

(** The (event_date, firm) pair of a deduplicated row. *)
Definition gkey (g : GroupRow) : key := (g_event_date g, g_firm g).

(** Step 3: sort by timestamp, keep the last row of every
    (event_date, firm). *)
Definition deduplicated (recs : list RecRow) : list GroupRow :=
  groupby_last (sort_index d_ts (with_event_date recs)).

(** [str.contains('up|down')] *)
Definition contains_up_down (s : string) : bool :=
  (contains "up" s || contains "down" s)%bool.

(** Step 4.1: subset the 'action' column. *)
Definition relevant (recs : list RecRow) : list GroupRow :=
  filter (fun g => contains_up_down (g_action g)) (deduplicated recs).

Definition _mk_et (value : string) : result string :=
  if String.eqb value "down" then Ok "downgrade"
  else if String.eqb value "up" then Ok "upgrade"
  else Raise (UnknownAction value).

(** Step 4.3 and 4.4: the index 1, 2, ... and the columns of the output. *)
Definition number_events (df : list (GroupRow * string)) : list Event :=
  map (fun p => {| event_id := Z.of_nat (fst p) + 1;
                   firm := g_firm (fst (snd p));
                   event_date := g_event_date (fst (snd p));
                   event_type := snd (snd p) |})
      (combine (seq 0 (List.length df)) df).

(** Step 2, [df.index.strftime('%Y-%m-%d')]: [read_csv] makes a
    DatetimeIndex of the dates it parses; the index of a file without a
    row is a plain [Index], which has no [strftime]. *)
Definition index_strftime (df : list RecRow) : result (list DatedRow) :=
  match df with
  | [] => Raise (AttributeError "'Index' object has no attribute 'strftime'")
  | _ :: _ => Ok (with_event_date df)
  end.

Definition mk_event_df (recs : list RecRow) : result (list Event) :=
  (* Step 2. Create variables identifying the firm and the event date *)
  df <- index_strftime recs ;;
  (* Step 3. Deal with multiple recommendations *)
  let df := groupby_last (sort_index d_ts df) in
  (* Step 4.1: Subset the "action" column *)
  let df := filter (fun g => contains_up_down (g_action g)) df in
  (* Step 4.2: Create a column with the event type *)
  event_types <- mapM _mk_et (map g_action df) ;;
  (* Step 4.3 and 4.4 *)
  Ok (number_events (combine df event_types)).

(** *** Sample data *)

(** 2020-09-23 is day 18528. *)
Definition t_2020_09_23 : Z := 18528 * seconds_per_day.

(** Two recommendations of one firm on one day, the later one with the
    action "main". *)
Definition up_then_main : list RecRow :=
  [ {| ts := t_2020_09_23 + 36000; rec_firm := "Deutsche Bank"; action := "up" |};
    {| ts := t_2020_09_23 + 54000; rec_firm := "Deutsche Bank"; action := "main" |} ].

(** Recommendations with a repeated pair, given out of order. *)
Definition sample_recs : list RecRow :=
  [ {| ts := t_2020_09_23 + 54000; rec_firm := "Deutsche Bank"; action := "up" |};
    {| ts := t_2020_09_23 + 36000; rec_firm := "Deutsche Bank"; action := "down" |};
    {| ts := t_2020_09_23 + 40000; rec_firm := "Baird"; action := "down" |};
    {| ts := t_2020_09_23 - 86400; rec_firm := "Wunderlich"; action := "init" |} ].

(** A recommendation whose action contains "up" and is not "up". *)
Definition sample_upgrade : list RecRow :=
  [ {| ts := t_2020_09_23; rec_firm := "Baird"; action := "upgrade" |} ].

End mk_events.

(** ** The event builder in the words of the specification *)

(** The (event_date, firm) pair of a raw recommendation: the calendar date
    of its timestamp, as 'YYYY-MM-DD', and the firm in upper case. *)
Definition spec_event_key (r : mk_events.RecRow) : string * string :=
  (strftime_ymd (mk_events.ts r / 86400), upper (mk_events.rec_firm r)).

(** The (event_date, firm) pair of an event. *)
Definition spec_pair (e : Event) : string * string := (event_date e, firm e).

(** ** test_hypo.py *)

Module test_hypo.

(** A row of the CAR table as [calc_tstats] reads it: the columns
    'event_type' and 'car'. *)
Record CarRecord : Type := {
  cr_event_type : string;
  car : float
}.

(** A row of the result, indexed by event_type. *)
Record TStatRow : Type := {
  t_event_type : string;
  car_bar : float;
  car_t : float;
  n_obs : Z
}.

(** [event_cars.groupby('event_type')]: the distinct event types,
    sorted. *)
Definition group_keys (event_cars : list CarRecord) : list string :=
  sort_by String.leb (nodup string_dec (map cr_event_type event_cars)).

(** The column 'car' of one group. *)
Definition group_cars (k : string) (event_cars : list CarRecord) : list float :=
  map car (filter (fun r => String.eqb (cr_event_type r) k) event_cars).

(** The aggregations of a group are the loops of pandas'
    [_libs/groupby.pyx]: they go through the values of the group in row
    order and pass over the missing ones ([if val == val]). *)

(** [groups.count()] *)
Definition count (xs : list float) : Z :=
  fold_left (fun n x => if isna x then n else n + 1) xs 0.

(** The state of [group_mean] for one group: [nobs], [sumx] and
    [compensation]. *)
Record mean_state : Type := {
  m_nobs : Z;
  m_sumx : float;
  m_compensation : float
}.

Definition mean_init : mean_state :=
  {| m_nobs := 0; m_sumx := fzero; m_compensation := fzero |}.

(** One value of the group, added by Kahan's compensated summation:
<<
    nobs += 1
    y = val - compensation
    t = sumx + y
    compensation = t - sumx - y
    sumx = t
>> *)
Definition mean_step (st : mean_state) (val : float) : mean_state :=
  if isna val then st
  else
    let y := fsub val (m_compensation st) in
    let t := fadd (m_sumx st) y in
    {| m_nobs := m_nobs st + 1;
       m_sumx := t;
       m_compensation := fsub (fsub t (m_sumx st)) y |}.

(** [groups.mean()]: [sumx / nobs], missing for a group without a
    value. *)
Definition mean (xs : list float) : float :=
  let st := fold_left mean_step xs mean_init in
  if m_nobs st =? 0 then nan
  else fdiv (m_sumx st) (float_of_Z (m_nobs st)).

(** The state of [group_var] for one group: [nobs], [mean] and the sum
    of squares [out]. *)
Record var_state : Type := {
  v_nobs : Z;
  v_mean : float;
  v_out : float
}.

Definition var_init : var_state :=
  {| v_nobs := 0; v_mean := fzero; v_out := fzero |}.

(** One value of the group, by Welford's update:
<<
    nobs += 1
    oldmean = mean
    mean += (val - oldmean) / nobs
    out += (val - mean) * (val - oldmean)
>> *)
Definition var_step (st : var_state) (val : float) : var_state :=
  if isna val then st
  else
    let nobs := v_nobs st + 1 in
    let oldmean := v_mean st in
    let mean := fadd oldmean (fdiv (fsub val oldmean) (float_of_Z nobs)) in
    {| v_nobs := nobs;
       v_mean := mean;
       v_out := fadd (v_out st) (fmul (fsub val mean) (fsub val oldmean)) |}.

(** [groups.var(ddof)]: [out / (nobs - ddof)], missing when there are no
    more than [ddof] values. *)
Definition var (ddof : Z) (xs : list float) : float :=
  let st := fold_left var_step xs var_init in
  if v_nobs st <=? ddof then nan
  else fdiv (v_out st) (float_of_Z (v_nobs st - ddof)).

(** [groups.std()]: [np.sqrt] of the variance with [ddof=1]. *)
Definition std (xs : list float) : float := fsqrt (var 1 xs).

(** [groups.sem()]: [result = self.std(ddof=1)], then
    [result /= np.sqrt(self.count())]. *)
Definition sem (xs : list float) : float :=
  fdiv (std xs) (fsqrt (float_of_Z (count xs))).

Definition calc_tstats (event_cars : list CarRecord) : list TStatRow :=
  (* Separate between upgrades and downgrades *)
  let groups := map (fun k => (k, group_cars k event_cars)) (group_keys event_cars) in
  map (fun g =>
         (* Mean *)
         let car_bar := mean (snd g) in
         (* Standard error for mean (sem) *)
         let car_sem := sem (snd g) in
         let car_t := fdiv car_bar car_sem in
         (* collect the number of obs in each group *)
         let car_n := count (snd g) in
         {| t_event_type := fst g; car_bar := car_bar; car_t := car_t; n_obs := car_n |})
      groups.

(** *** Sample data *)

(** One upgrade, and two downgrades with the same CAR. *)
Definition sample_cars : list CarRecord :=
  [ {| cr_event_type := "upgrade"; car := f0_01 |};
    {| cr_event_type := "downgrade"; car := f0_02 |};
    {| cr_event_type := "downgrade"; car := f0_02 |} ].

(** Three upgrades with the CAR 0.1. *)
Definition sample_cars_equal : list CarRecord :=
  [ {| cr_event_type := "upgrade"; car := f0_1 |};
    {| cr_event_type := "upgrade"; car := f0_1 |};
    {| cr_event_type := "upgrade"; car := f0_1 |} ].

(** Upgrades with the CARs 0.01 and 0.03 and one without data. *)
Definition sample_cars_missing : list CarRecord :=
  [ {| cr_event_type := "upgrade"; car := f0_01 |};
    {| cr_event_type := "upgrade"; car := nan |};
    {| cr_event_type := "upgrade"; car := f0_03 |} ].

End test_hypo.

(** ** The hypothesis tester in the words of the specification *)

(** The cars of a group that are not missing. *)
Definition spec_observed (xs : list float) : list float :=
  filter (fun x => negb (isna x)) xs.

(** The statistics of the specification are taken over values none of
    which is missing: the same arithmetic as [groups.mean()] and
    [groups.sem()], every value of the list taking part. *)

(** The number of values. *)
Definition spec_n (xs : list float) : Z := Z.of_nat (List.length xs).

(** The compensated sum of the values and its compensation. *)
Definition spec_sum (xs : list float) : float * float :=
  fold_left (fun st val =>
               let y := fsub val (snd st) in
               let t := fadd (fst st) y in
               (t, fsub (fsub t (fst st)) y))
            xs (fzero, fzero).

(** mean(car) *)
Definition spec_mean (xs : list float) : float :=
  if spec_n xs =? 0 then nan
  else fdiv (fst (spec_sum xs)) (float_of_Z (spec_n xs)).

(** The running mean and the running sum of squared deviations, after
    the values seen so far. *)
Definition spec_deviations (xs : list float) : Z * float * float :=
  fold_left (fun st val =>
               let '(n, m, q) := st in
               let m' := fadd m (fdiv (fsub val m) (float_of_Z (n + 1))) in
               (n + 1, m', fadd q (fmul (fsub val m') (fsub val m))))
            xs (0, fzero, fzero).

(** The sample variance: squared deviations from the mean over n - 1,
    undefined for fewer than two values. *)
Definition spec_var (xs : list float) : float :=
  if spec_n xs <=? 1 then nan
  else fdiv (snd (spec_deviations xs)) (float_of_Z (spec_n xs - 1)).

(** standard error of the mean = stddev / sqrt(n) *)
Definition spec_sem (xs : list float) : float :=
  fdiv (fsqrt (spec_var xs)) (fsqrt (float_of_Z (spec_n xs))).

(** t_stat = mean / sem *)
Definition spec_t_stat (xs : list float) : float :=
  fdiv (spec_mean xs) (spec_sem xs).

(** The rows of a CAR table whose car is not missing. *)
Definition spec_dropna (event_cars : list test_hypo.CarRecord) : list test_hypo.CarRecord :=
  filter (fun r => negb (isna (test_hypo.car r))) event_cars.

(** ** main.py *)

Module main.

(** The CAR table [calc_tstats] reads off an event table. *)
Definition car_records (ev : mk_cars.EventFrame) : result (list test_hypo.CarRecord) :=
  match mk_cars.ev_car ev with
  | Some cars =>
      Ok (map (fun p => {| test_hypo.cr_event_type := event_type (fst p);
                           test_hypo.car := snd p |})
              (combine (mk_cars.ev_rows ev) cars))
  | None => Raise (ValueError "KeyError: 'car'")
  end.

(** [main(tic, update_csv=False)] on the tables the three files hold.
    The returns table and the event table are objects 0 and 1 of a fresh
    store. *)
Definition main (fm : mk_rets.fill_method) (prc : list mk_rets.PriceRow)
           (ff_df : list mk_rets.FactorRow) (recs : list mk_events.RecRow)
  : result (list test_hypo.TStatRow) :=
  (* Step 2: Create a data frame with stock (tic) and market returns *)
  let ret_df := mk_rets.mk_ret_df fm prc ff_df in
  (* Step 3: Create a data frame with the events *)
  event_df <- mk_events.mk_event_df recs ;;
  let h : mk_cars.store :=
    fun r => match r with
             | O => Some (mk_cars.RetFrame ret_df)
             | S O => Some (mk_cars.EventsFrame
                              {| mk_cars.ev_rows := event_df; mk_cars.ev_car := None |})
             | _ => None
             end in
  (* Step 4: Calculate CARs for each event *)
  res <- mk_cars.mk_cars_df 0%nat 1%nat h ;;
  match snd res (fst res) with
  | Some (mk_cars.EventsFrame cars_df) =>
      (* Step 5: Hypothesis testing using t-statistics *)
      event_cars <- car_records cars_df ;;
      Ok (test_hypo.calc_tstats event_cars)
  | _ => Raise (TypeError "not a data frame of the expected kind")
  end.

End main.

(** Rows in the strict order of their index. *)
Definition index_lt {A : Type} (index : A -> Z) (a b : A) : Prop :=
  index a < index b.

(** The daily return: today's close over yesterday's, minus one. *)
Definition spec_return (close_today close_before : float) : float :=
  fsub (fdiv close_today close_before) fone.

(** Pairs in ascending order of (event_date, firm): by the date first,
    by the firm for one date. *)
Definition spec_pair_lt (p q : string * string) : Prop :=
  String.ltb (fst p) (fst q) = true
  \/ (fst p = fst q /\ String.ltb (snd p) (snd q) = true).

(** The sum of a list of counts. *)
Definition spec_total (counts : list Z) : Z := fold_right Z.add 0 counts.

(* ================================================================== *)
(** * Part II: properties *)
(* ================================================================== *)

(** ** Column names *)

Lemma mem_In (x : string) (cols : list string) :
  mem x cols = true <-> In x cols.
Proof.
  unfold mem. rewrite existsb_exists. split.
  - intros [y [Hy Heq]]. apply String.eqb_eq in Heq. now subst.
  - intros H. exists x. split; [assumption | apply String.eqb_refl].
Qed.

Lemma append_cons_neq (c : ascii) (s : string) : String c s <> s.
Proof.
  intros H. apply (f_equal String.length) in H. simpl in H. lia.
Qed.

(** ** Event windows *)

Section ExpandDates.

Import mk_cars.

Lemma range_length (a b : Z) : List.length (range a b) = Z.to_nat (b - a).
Proof. unfold range. now rewrite length_map, length_seq. Qed.


Lemma range_In (a b k : Z) : In k (range a b) <-> a <= k < b.
Proof.
  unfold range. rewrite in_map_iff. split.
  - intros [i [<- Hi]]. apply in_seq in Hi. lia.
  - intros Hk. exists (Z.to_nat (k - a)). split; [lia |]. apply in_seq. lia.
Qed.

Lemma mapM_repeat {A B : Type} (f : A -> result B) (x : A) (y : B) (n : nat) :
  f x = Ok y -> mapM f (repeat x n) = Ok (repeat y n).
Proof.
  intros Hf. induction n as [| n IH]; simpl.
  - reflexivity.
  - now rewrite Hf, IH.
Qed.

Lemma combine_repeat {A B : Type} (x : A) (y : B) (n : nat) :
  combine (repeat x n) (repeat y n) = repeat (x, y) n.
Proof. induction n as [| n IH]; simpl; [reflexivity | now rewrite IH]. Qed.

Lemma combine_repeat_l {A B : Type} (x : A) (l : list B) :
  combine (repeat x (List.length l)) l = map (pair x) l.
Proof. induction l as [| b l IH]; simpl; [reflexivity | now rewrite IH]. Qed.

Lemma expand_dates_eq (ser : Event) (w d : Z) :
  0 <= w ->
  to_datetime (event_date ser) = Ok d ->
  expand_dates ser w = Ok (map (spec_window_row ser d) (range (- w) (w + 1))).
Proof.
  intros Hw Hd. unfold expand_dates.
  set (n := Z.to_nat (2 * w + 1)).
  assert (Hn : List.length (range (- w) (w + 1)) = n).
  { rewrite range_length. unfold n. f_equal. lia. }
  assert (Hrep : concat_rows (repeat ser n) = Ok (repeat ser n)).
  { destruct n as [| n'] eqn:En; [unfold n in En; lia | reflexivity]. }
  rewrite Hrep. cbn [bind].
  rewrite map_repeat, (mapM_repeat _ _ d n Hd). cbn [bind].
  rewrite combine_repeat. unfold set_column.
  rewrite repeat_length, Hn, Nat.eqb_refl. cbn [bind].
  rewrite <- Hn, combine_repeat_l, map_map. reflexivity.
Qed.

End ExpandDates.



(** ** Cumulative abnormal returns *)

(** ** Summation

    What [Series.sum()] returns is a sum of the values in the sense of
    [spec_adds_up], whatever the length of the array. *)

Section Summation.

Import mk_cars.

Lemma adds_up_perm (xs : list float) (v : float) :
  spec_adds_up xs v -> forall ys, Permutation ys xs -> spec_adds_up ys v.
Proof.
  induction 1 as [| x | xs1 xs2 xs a b H1 _ H2 _ Hp]; intros ys Hys.
  - apply Permutation_sym, Permutation_nil in Hys. subst ys. constructor.
  - apply Permutation_sym, Permutation_length_1_inv in Hys. subst ys. constructor.
  - apply (adds_up_add xs1 xs2); [assumption | assumption |].
    now transitivity xs.
Qed.

Lemma adds_up_app (xs1 xs2 : list float) (a b : float) :
  spec_adds_up xs1 a -> spec_adds_up xs2 b -> spec_adds_up (xs1 ++ xs2) (fadd a b).
Proof. intros H1 H2. now apply (adds_up_add xs1 xs2). Qed.

Lemma adds_up_fold (xs : list float) :
  forall (seen : list float) (acc : float),
    spec_adds_up seen acc -> spec_adds_up (seen ++ xs) (fold_left fadd xs acc).
Proof.
  induction xs as [| x xs IH]; intros seen acc H; simpl.
  - now rewrite app_nil_r.
  - replace (seen ++ x :: xs) with ((seen ++ [x]) ++ xs)
      by now rewrite <- app_assoc.
    apply IH. apply adds_up_app; [assumption | constructor].
Qed.

Lemma add_block_length (r block : list float) :
  List.length (add_block r block) = List.length r.
Proof.
  revert block. induction r as [| rj r IH]; intros [| x block]; simpl;
    try reflexivity.
  now rewrite IH.
Qed.

Lemma add_block_adds_up (parts : list (list float)) (r : list float) :
  Forall2 spec_adds_up parts r ->
  forall block, (List.length block <= List.length r)%nat ->
    exists parts',
      Forall2 spec_adds_up parts' (add_block r block)
      /\ Permutation (List.concat parts') (List.concat parts ++ block).
Proof.
  induction 1 as [| part rj parts r Hj Hrest IH]; intros block Hlen.
  - destruct block; [| simpl in Hlen; lia].
    exists []. split; [constructor | constructor].
  - destruct block as [| x block].
    + exists (part :: parts). split; [now constructor |].
      now rewrite app_nil_r.
    + simpl in Hlen. destruct (IH block ltac:(lia)) as [parts' [Hall Hperm]].
      exists ((part ++ [x]) :: parts'). split.
      * simpl. constructor; [| assumption].
        apply adds_up_app; [assumption | constructor].
      * simpl. rewrite <- !app_assoc. apply Permutation_app_head. simpl.
        now apply Permutation_cons_app.
Qed.

Lemma unrolled_adds_up (blocks : nat) :
  forall (parts : list (list float)) (r a : list float),
    Forall2 spec_adds_up parts r ->
    (8 <= List.length r)%nat ->
    exists parts',
      Forall2 spec_adds_up parts' (fst (unrolled blocks r a))
      /\ List.length (fst (unrolled blocks r a)) = List.length r
      /\ Permutation (List.concat parts' ++ snd (unrolled blocks r a)) (List.concat parts ++ a).
Proof.
  induction blocks as [| blocks IH]; intros parts r a Hall Hlen; cbn [unrolled].
  - exists parts. repeat split; [assumption | reflexivity].
  - assert (Hfirst : (List.length (firstn 8 a) <= List.length r)%nat).
    { rewrite length_firstn. lia. }
    destruct (add_block_adds_up parts r Hall (firstn 8 a) Hfirst)
      as [parts1 [Hall1 Hperm1]].
    destruct (IH parts1 (add_block r (firstn 8 a)) (skipn 8 a) Hall1)
      as [parts' [Hall' [Hlen' Hperm']]].
    { rewrite add_block_length. assumption. }
    exists parts'. split; [assumption |]. split.
    + now rewrite Hlen', add_block_length.
    + rewrite Hperm'. rewrite Hperm1. rewrite <- app_assoc.
      now rewrite firstn_skipn.
Qed.

Lemma accumulate_adds_up (parts : list (list float)) (r : list float) :
  Forall2 spec_adds_up parts r ->
  List.length r = 8%nat ->
  spec_adds_up (List.concat parts) (accumulate r).
Proof.
  intros Hall Hlen.
  do 8 (destruct r as [| ? r]; [discriminate |]).
  destruct r; [| discriminate].
  repeat match goal with
         | H : Forall2 _ _ (_ :: _) |- _ => inversion H; subst; clear H
         | H : Forall2 _ _ [] |- _ => inversion H; subst; clear H
         end.
  match goal with
  | |- spec_adds_up (List.concat [?l0; ?l1; ?l2; ?l3; ?l4; ?l5; ?l6; ?l7]) _ =>
      apply (adds_up_perm (((l0 ++ l1) ++ (l2 ++ l3)) ++ ((l4 ++ l5) ++ (l6 ++ l7))))
  end.
  - repeat apply adds_up_app; assumption.
  - simpl. rewrite app_nil_r, <- !app_assoc. reflexivity.
Qed.

Lemma singletons_add_up (xs : list float) :
  Forall2 spec_adds_up (map (fun x => [x]) xs) xs
  /\ List.concat (map (fun x => [x]) xs) = xs.
Proof.
  induction xs as [| x xs [IH1 IH2]]; simpl.
  - split; [constructor | reflexivity].
  - split; [constructor; [constructor | assumption] | now rewrite IH2].
Qed.

Lemma block_sum_adds_up (a : list float) : spec_adds_up a (block_sum a).
Proof.
  unfold block_sum. destruct (Nat.ltb_spec (List.length a) 8) as [Hn | Hn].
  - apply (adds_up_fold a [] fzero). constructor.
  - destruct (singletons_add_up (firstn 8 a)) as [Hall Hcat].
    assert (Hlen : List.length (firstn 8 a) = 8%nat)
      by (rewrite length_firstn; lia).
    destruct (unrolled_adds_up (List.length a / 8 - 1) _ (firstn 8 a) (skipn 8 a) Hall)
      as [parts [Hparts [Hlen' Hperm]]]; [lia |].
    destruct (unrolled _ _ _) as [r rest]. cbn [fst snd] in *.
    apply (adds_up_perm (List.concat parts ++ rest)).
    + apply adds_up_fold. apply accumulate_adds_up; [assumption | congruence].
    + rewrite Hperm, Hcat. now rewrite firstn_skipn.
Qed.

Lemma pairwise_sum_adds_up (fuel : nat) :
  forall a, spec_adds_up a (pairwise_sum fuel a).
Proof.
  induction fuel as [| fuel IH]; intros a; cbn [pairwise_sum];
    destruct (Nat.leb _ 128); try apply block_sum_adds_up.
  set (n2 := (_ - _)%nat).
  rewrite <- (firstn_skipn n2 a) at 1. apply adds_up_app; apply IH.
Qed.

(** The recursion of [pairwise_sum] never runs out of fuel: from the
    length of the array on, the result does not depend on it. *)
Lemma pairwise_sum_fuel (fuel1 : nat) :
  forall (fuel2 : nat) (a : list float),
    (List.length a <= fuel1)%nat -> (List.length a <= fuel2)%nat ->
    pairwise_sum fuel1 a = pairwise_sum fuel2 a.
Proof.
  induction fuel1 as [| fuel1 IH]; intros fuel2 a H1 H2.
  - destruct fuel2; cbn [pairwise_sum];
      destruct (Nat.leb_spec (List.length a) 128); try reflexivity; lia.
  - destruct fuel2 as [| fuel2]; cbn [pairwise_sum];
      destruct (Nat.leb_spec (List.length a) 128) as [Hn | Hn];
      try reflexivity; [lia |].
    set (n := List.length a) in *.
    pose proof (Nat.div_mod_eq n 2) as Hhalf.
    pose proof (Nat.mod_upper_bound n 2 ltac:(discriminate)) as Hr2.
    pose proof (Nat.mod_upper_bound (n / 2) 8 ltac:(discriminate)) as Hr8.
    set (n2 := (n / 2 - (n / 2) mod 8)%nat).
    assert (Hn2 : (0 < n2 < n)%nat) by (unfold n2; lia).
    f_equal; apply IH; rewrite ?length_firstn, ?length_skipn; fold n; lia.
Qed.

Lemma np_sum_adds_up (a : list float) : spec_adds_up a (np_sum a).
Proof.
  unfold np_sum. apply (adds_up_app [] a); [constructor |].
  apply pairwise_sum_adds_up.
Qed.

(** [Series.sum()] is a sum of the values, the missing ones taken as
    0.0. *)
Lemma nansum_adds_up (xs : list float) :
  spec_adds_up (fill_missing xs) (nansum xs).
Proof. apply np_sum_adds_up. Qed.

Lemma fill_missing_none (xs : list float) :
  forallb (fun x => negb (isna x)) xs = true -> fill_missing xs = xs.
Proof.
  intros H. unfold fill_missing.
  induction xs as [| x xs IH]; simpl in *.
  - reflexivity.
  - apply andb_true_iff in H. destruct H as [Hx Hxs].
    rewrite IH by assumption.
    destruct (isna x); [discriminate | reflexivity].
Qed.

(** Fewer than eight values are added one after the other. *)
Lemma pairwise_sum_few (fuel : nat) (a : list float) :
  (List.length a < 8)%nat -> pairwise_sum fuel a = fold_left fadd a fzero.
Proof.
  intros Hn. destruct fuel; cbn [pairwise_sum]; unfold block_sum;
    (destruct (Nat.leb_spec (List.length a) 128); [| lia]);
    (destruct (Nat.ltb_spec (List.length a) 8); [reflexivity | lia]).
Qed.

Lemma nansum_few (xs : list float) :
  (List.length xs < 8)%nat ->
  nansum xs = fadd fzero (fold_left fadd (fill_missing xs) fzero).
Proof.
  intros Hn. unfold nansum, np_sum. f_equal. apply pairwise_sum_few.
  unfold fill_missing. now rewrite length_map.
Qed.

(** Eleven values of 0.1 add up to 1.1 in blocks, and to
    1.0999999999999999 one after the other. *)
Example np_sum_blocks :
  np_sum (repeat f0_1 11) = f1_1
  /\ fold_left fadd (repeat f0_1 11) fzero <> f1_1.
Proof. split; [vm_compute; reflexivity | vm_compute; discriminate]. Qed.


End Summation.

Section CalcCar.

Import mk_cars.

Lemma join_inner_matched (ser : Event) (d : Z) (ks : list Z) (ret_df : list RetRow) :
  map snd (join_inner (map (spec_window_row ser d) ks) ret_df)
  = flat_map (fun k => filter (fun r => date r =? d + k) ret_df) ks.
Proof.
  unfold join_inner. induction ks as [| k ks IH]; simpl.
  - reflexivity.
  - rewrite map_app, IH, map_map. simpl. now rewrite map_id.
Qed.

Lemma spec_matched_In (d w : Z) (ret_df : list RetRow) (r : RetRow) :
  In r (spec_matched d w ret_df) <-> In r ret_df /\ d - w <= date r <= d + w.
Proof.
  unfold spec_matched. rewrite in_flat_map. split.
  - intros [k [Hk Hr]]. apply range_In in Hk. apply filter_In in Hr.
    destruct Hr as [Hr Hd]. apply Z.eqb_eq in Hd. split; [assumption | lia].
  - intros [Hr Hd]. exists (date r - d). split.
    + apply range_In. lia.
    + apply filter_In. split; [assumption | apply Z.eqb_eq; lia].
Qed.

Lemma calc_car_eq (ser : Event) (ret_df : list RetRow) (w d : Z) :
  0 <= w ->
  to_datetime (event_date ser) = Ok d ->
  calc_car ser ret_df w
  = Ok (match spec_matched d w ret_df with
        | [] => nan
        | m => nansum (map spec_abnormal_return m)
        end).
Proof.
  intros Hw Hd. unfold calc_car.
  rewrite (expand_dates_eq ser w d Hw Hd). cbn [bind].
  set (df := join_inner _ ret_df).
  assert (Hm : map snd df = spec_matched d w ret_df)
    by apply join_inner_matched.
  rewrite <- Hm.
  replace (map (fun row => fsub (ret (snd row)) (mkt (snd row))) df)
    with (map spec_abnormal_return (map snd df)) by now rewrite map_map.
  destruct df as [| row df']; reflexivity.
Qed.

End CalcCar.

(** C3.  When no record of the returns series is dated within the window
    around the event, [calc_car] returns NaN, the "no data" value: it
    raises nothing, and NaN is not 0.0, neither as a value nor under the
    comparison of floats, so that "no data" differs from a CAR of zero. *)
Theorem calc_car_no_data (ser : Event) (ret_df : list RetRow) (w d : Z) :
  0 <= w ->
  to_datetime (event_date ser) = Ok d ->
  (forall r, In r ret_df -> ~ (d - w <= date r <= d + w)) ->
  mk_cars.calc_car ser ret_df w = Ok nan
  /\ nan <> fzero
  /\ SFeqb nan fzero = false
  /\ isna nan = true /\ isna fzero = false.
Proof.
  intros Hw Hd Hno. split; [| repeat split; discriminate].
  rewrite (calc_car_eq ser ret_df w d Hw Hd).
  destruct (spec_matched d w ret_df) as [| r m] eqn:Em; [reflexivity |].
  exfalso. assert (Hin : In r (spec_matched d w ret_df)) by (rewrite Em; now left).
  apply spec_matched_In in Hin. destruct Hin as [Hin Hdate].
  exact (Hno r Hin Hdate).
Qed.

Lemma calc_car_no_data_witness :
  mk_cars.calc_car mk_cars.wunderlich
    [ {| date := 15400; mkt := f0_01; ret := f0_02 |} ] 2 = Ok nan
  /\ nan <> fzero
  /\ SFeqb nan fzero = false
  /\ isna nan = true /\ isna fzero = false.
Proof.
  apply (calc_car_no_data mk_cars.wunderlich _ 2 15386); [lia | reflexivity |].
  intros r [<- | []]. simpl. lia.
Defined.

(** C1.  The rows [calc_car] joins are the return records dated within
    the window of the event, offset by offset.  When at least one record
    matches, [calc_car] returns what [Series.sum()] makes of the stock
    returns minus the market returns of the matched rows; this is a sum
    of these differences, every matched row taking part exactly once (a
    missing difference, which a returns series without missing values
    does not produce, would count as 0.0).  Fewer than eight matched
    rows, as with the default window on a series with one row per day,
    are added one after the other to 0.0.  With one matched row of stock
    return 0.02 and market return 0.01 the result is 0.01. *)
Theorem calc_car_sums_matched (ser : Event) (ret_df : list RetRow) (w d : Z) :
  0 <= w ->
  to_datetime (event_date ser) = Ok d ->
  spec_matched d w ret_df <> [] ->
  (forall r, In r (spec_matched d w ret_df) <-> In r ret_df /\ d - w <= date r <= d + w)
  /\ (exists car,
        mk_cars.calc_car ser ret_df w = Ok car
        /\ car = mk_cars.nansum (map spec_abnormal_return (spec_matched d w ret_df))
        /\ spec_adds_up
             (mk_cars.fill_missing (map spec_abnormal_return (spec_matched d w ret_df)))
             car)
  /\ (forallb (fun x => negb (isna x))
        (map spec_abnormal_return (spec_matched d w ret_df)) = true ->
      (exists car,
         mk_cars.calc_car ser ret_df w = Ok car
         /\ spec_adds_up (map spec_abnormal_return (spec_matched d w ret_df)) car)
      /\ ((List.length (spec_matched d w ret_df) < 8)%nat ->
          mk_cars.calc_car ser ret_df w = Ok (fadd fzero (spec_car_sum d w ret_df))))
  /\ (forall r, spec_matched d w ret_df = [r] ->
        ret r = f0_02 -> mkt r = f0_01 ->
        mk_cars.calc_car ser ret_df w = Ok f0_01).
Proof.
  intros Hw Hd Hne.
  assert (Hcar : mk_cars.calc_car ser ret_df w
                 = Ok (mk_cars.nansum (map spec_abnormal_return (spec_matched d w ret_df)))).
  { rewrite (calc_car_eq ser ret_df w d Hw Hd).
    destruct (spec_matched d w ret_df); [contradiction | reflexivity]. }
  split; [intros r; apply spec_matched_In |].
  split; [| split].
  - eexists. split; [exact Hcar |]. split; [reflexivity | apply nansum_adds_up].
  - intros Hfull. split.
    + eexists. split; [exact Hcar |].
      rewrite <- (fill_missing_none _ Hfull) at 1. apply nansum_adds_up.
    + intros Hfew. rewrite Hcar. f_equal.
      rewrite nansum_few by now rewrite length_map.
      now rewrite (fill_missing_none _ Hfull).
  - intros r Hr Hret Hmkt. rewrite Hcar, Hr. simpl.
    unfold spec_abnormal_return. rewrite Hret, Hmkt. reflexivity.
Qed.

Lemma calc_car_sums_matched_witness :
  (forall r, In r (spec_matched 15386 2 mk_cars.one_day)
             <-> In r mk_cars.one_day /\ 15386 - 2 <= date r <= 15386 + 2)
  /\ (exists car,
        mk_cars.calc_car mk_cars.wunderlich mk_cars.one_day 2 = Ok car
        /\ car = mk_cars.nansum
                   (map spec_abnormal_return (spec_matched 15386 2 mk_cars.one_day))
        /\ spec_adds_up
             (mk_cars.fill_missing
                (map spec_abnormal_return (spec_matched 15386 2 mk_cars.one_day)))
             car)
  /\ (forallb (fun x => negb (isna x))
        (map spec_abnormal_return (spec_matched 15386 2 mk_cars.one_day)) = true ->
      (exists car,
         mk_cars.calc_car mk_cars.wunderlich mk_cars.one_day 2 = Ok car
         /\ spec_adds_up
              (map spec_abnormal_return (spec_matched 15386 2 mk_cars.one_day)) car)
      /\ ((List.length (spec_matched 15386 2 mk_cars.one_day) < 8)%nat ->
          mk_cars.calc_car mk_cars.wunderlich mk_cars.one_day 2
          = Ok (fadd fzero (spec_car_sum 15386 2 mk_cars.one_day))))
  /\ (forall r, spec_matched 15386 2 mk_cars.one_day = [r] ->
        ret r = f0_02 -> mkt r = f0_01 ->
        mk_cars.calc_car mk_cars.wunderlich mk_cars.one_day 2 = Ok f0_01).
Proof.
  apply (calc_car_sums_matched mk_cars.wunderlich mk_cars.one_day 2 15386);
    [lia | reflexivity | vm_compute; discriminate].
Defined.

(** Two edges of the sum.  With no matched record the plain sum over the
    matched rows is 0.0 and [calc_car] returns NaN, the value for "no
    data"; with one matched record whose stock return is missing (which
    [mk_ret_df] never produces) the plain sum is NaN and [calc_car]
    returns 0.0. *)
Lemma calc_car_edges :
  to_datetime (event_date mk_cars.wunderlich) = Ok 15386
  /\ mk_cars.calc_car mk_cars.wunderlich [] 2 = Ok nan
  /\ spec_car_sum 15386 2 [] = fzero
  /\ mk_cars.calc_car mk_cars.wunderlich mk_cars.one_day_missing 2 = Ok fzero
  /\ spec_car_sum 15386 2 mk_cars.one_day_missing = nan
  /\ nan <> fzero.
Proof. repeat split; try (vm_compute; reflexivity). discriminate. Qed.

(** ** Tables as shared objects *)

Lemma update_same (h : mk_cars.store) (r : mk_cars.ref) (o : mk_cars.object) :
  mk_cars.update h r o r = Some o.
Proof. unfold mk_cars.update. now rewrite Nat.eqb_refl. Qed.

Lemma update_other (h : mk_cars.store) (r r' : mk_cars.ref) (o : mk_cars.object) :
  r' <> r -> mk_cars.update h r o r' = h r'.
Proof.
  intros Hne. unfold mk_cars.update.
  apply Nat.eqb_neq in Hne. now rewrite Hne.
Qed.

(** C9 (as amended).  When [mk_cars_df ret_df event_df] returns, the
    table it returns is the event table it was given, the same object,
    now holding the column 'car' with the CAR of every row (window 2);
    the rows of the event table are as before, and the returns series and
    every other object of the store are unchanged. *)
Theorem mk_cars_df_frame (ret_df event_df res : mk_cars.ref) (h h' : mk_cars.store) :
  mk_cars.mk_cars_df ret_df event_df h = Ok (res, h') ->
  res = event_df
  /\ h' ret_df = h ret_df
  /\ (forall r, r <> event_df -> h' r = h r)
  /\ exists rets ev cars,
       h ret_df = Some (mk_cars.RetFrame rets)
       /\ h event_df = Some (mk_cars.EventsFrame ev)
       /\ mapM (fun ser => mk_cars.calc_car ser rets 2) (mk_cars.ev_rows ev) = Ok cars
       /\ h' event_df
          = Some (mk_cars.EventsFrame
                    {| mk_cars.ev_rows := mk_cars.ev_rows ev;
                       mk_cars.ev_car := Some cars |}).
Proof.
  unfold mk_cars.mk_cars_df. intros H.
  destruct (h ret_df) as [[rets | ?] |] eqn:Hret; try discriminate.
  destruct (h event_df) as [[? | ev] |] eqn:Hev; try discriminate.
  destruct (mapM _ (mk_cars.ev_rows ev)) as [cars | e] eqn:Hcars; try discriminate.
  cbn [bind] in H. injection H as <- <-.
  assert (Hne : ret_df <> event_df).
  { intros ->. rewrite Hret in Hev. discriminate. }
  split; [reflexivity |]. split; [| split].
  - rewrite update_other by assumption. exact Hret.
  - intros r Hr. now apply update_other.
  - exists rets, ev, cars. repeat split; try assumption.
    apply update_same.
Qed.

Lemma mk_cars_df_frame_witness :
  mk_cars.mk_cars_df 0%nat 1%nat mk_cars.sample_store
  = Ok (1%nat, mk_cars.sample_store_after)
  /\ mk_cars.sample_store_after 0%nat = mk_cars.sample_store 0%nat.
Proof.
  split; [reflexivity |].
  exact (proj1 (proj2 (mk_cars_df_frame 0%nat 1%nat 1%nat mk_cars.sample_store
                         mk_cars.sample_store_after eq_refl))).
Defined.

(** C9 as stated fails: on the sample store [mk_cars_df] returns the
    reference of the event table it was given, and the table behind that
    reference has changed. *)
Lemma mk_cars_df_mutates_event_df :
  exists h',
    mk_cars.mk_cars_df 0%nat 1%nat mk_cars.sample_store = Ok (1%nat, h')
    /\ mk_cars.sample_store 1%nat
       = Some (mk_cars.EventsFrame
                 {| mk_cars.ev_rows := [mk_cars.wunderlich]; mk_cars.ev_car := None |})
    /\ h' 1%nat
       = Some (mk_cars.EventsFrame
                 {| mk_cars.ev_rows := [mk_cars.wunderlich];
                    mk_cars.ev_car := Some [f0_01] |})
    /\ h' 1%nat <> mk_cars.sample_store 1%nat.
Proof.
  eexists. split; [reflexivity |]. repeat split. discriminate.
Qed.

(** ** Column names, continued *)

Section Colnames.

Import config.

Lemma parse_name_normalized (cols : list string) (b : string) :
  normalized b = b -> _parse_name cols b = b.
Proof.
  intros Hb. unfold _parse_name. fold (normalized b).
  now rewrite Hb, String.eqb_refl.
Qed.

Lemma parse_name_taken (cols : list string) (a : string) :
  normalized a <> a -> In (normalized a) cols ->
  _parse_name cols a = ("_" ++ normalized a)%string.
Proof.
  intros Ha Hin. unfold _parse_name. fold (normalized a).
  apply String.eqb_neq in Ha. rewrite Ha.
  apply mem_In in Hin. now rewrite Hin.
Qed.

(** Two labels that are not in normalized form and normalize to the same
    name are renamed to the same label. *)
Lemma parse_name_both_raw (cols : list string) (a b : string) :
  normalized a <> a -> normalized b <> b -> normalized a = normalized b ->
  _parse_name cols a = _parse_name cols b.
Proof.
  intros Ha Hb Hab. unfold _parse_name. fold (normalized a) (normalized b).
  apply String.eqb_neq in Ha, Hb. rewrite Ha, Hb, Hab. reflexivity.
Qed.

Lemma standardise_colnames_columns {V : Type} (df : frame V) :
  columns (standardise_colnames df) = map (_parse_name (columns df)) (columns df).
Proof.
  unfold standardise_colnames, columns. now rewrite !map_map.
Qed.

Lemma standardise_colnames_values {V : Type} (df : frame V) :
  map snd (standardise_colnames df) = map snd df.
Proof.
  unfold standardise_colnames. rewrite map_map. reflexivity.
Qed.

End Colnames.

(** C8 (as amended).  [standardise_colnames] keeps every column, in
    order, with its values; the labels are those [_parse_name] gives.
    When two distinct labels normalize to the same name and one of them
    is already that name, this one is left as it is and the other becomes
    the name with a '_' prefix, so the two output labels differ. *)
Theorem standardise_colnames_collision {V : Type} (df : config.frame V) (a b : string) :
  In a (config.columns df) ->
  In b (config.columns df) ->
  a <> b ->
  config.normalized a = config.normalized b ->
  config.normalized b = b ->
  map snd (config.standardise_colnames df) = map snd df
  /\ config.columns (config.standardise_colnames df)
     = map (config._parse_name (config.columns df)) (config.columns df)
  /\ config._parse_name (config.columns df) b = b
  /\ config._parse_name (config.columns df) a = ("_" ++ b)%string
  /\ config._parse_name (config.columns df) a <> config._parse_name (config.columns df) b.
Proof.
  intros Ha Hb Hne Hab Hnb.
  assert (Hna : config.normalized a <> a) by congruence.
  assert (Hpb := parse_name_normalized (config.columns df) b Hnb).
  assert (Hpa : config._parse_name (config.columns df) a = ("_" ++ b)%string).
  { rewrite parse_name_taken; [now rewrite Hab, Hnb | assumption |].
    now rewrite Hab, Hnb. }
  split; [apply standardise_colnames_values |].
  split; [apply standardise_colnames_columns |].
  split; [assumption |]. split; [assumption |].
  rewrite Hpa, Hpb. apply append_cons_neq.
Qed.

Lemma standardise_colnames_collision_witness :
  map snd (config.standardise_colnames config.raw_and_normal) = [[1; 2]; [3; 4]]
  /\ config.columns (config.standardise_colnames config.raw_and_normal)
     = ["_adj_close"; "adj_close"].
Proof.
  pose proof (standardise_colnames_collision config.raw_and_normal
                "Adj Close" "adj_close") as H.
  destruct H as [H1 [H2 _]].
  - simpl. now left.
  - simpl. right. now left.
  - discriminate.
  - reflexivity.
  - reflexivity.
  - split; [exact H1 | exact H2].
Defined.

(** C8 as stated fails: the labels "Adj Close" and "ADJ CLOSE" are
    distinct and normalize to the same name, neither gets the prefix, and
    the output has the label "adj_close" twice. *)
Lemma standardise_colnames_duplicates :
  config.normalized "Adj Close" = config.normalized "ADJ CLOSE"
  /\ config.columns (config.standardise_colnames config.two_raw_labels)
     = ["adj_close"; "adj_close"]
  /\ ~ NoDup (config.columns (config.standardise_colnames config.two_raw_labels)).
Proof.
  split; [reflexivity |]. split; [reflexivity |].
  intros H. inversion H as [| x l Hnotin _]; subst.
  apply Hnotin. now left.
Qed.

(** ** Sorting *)

Section Sorting.

Context {A : Type}.

Lemma insert_by_perm (leb : A -> A -> bool) (x : A) (l : list A) :
  Permutation (insert_by leb x l) (x :: l).
Proof.
  induction l as [| y l IH]; simpl.
  - apply Permutation_refl.
  - destruct (leb x y).
    + apply Permutation_refl.
    + apply Permutation_trans with (y :: x :: l).
      * now apply perm_skip.
      * apply perm_swap.
Qed.

Lemma sort_by_perm (leb : A -> A -> bool) (l : list A) :
  Permutation (sort_by leb l) l.
Proof.
  induction l as [| x l IH]; simpl.
  - apply Permutation_refl.
  - apply Permutation_trans with (x :: sort_by leb l).
    + apply insert_by_perm.
    + now apply perm_skip.
Qed.

Lemma sort_by_In (leb : A -> A -> bool) (l : list A) (x : A) :
  In x (sort_by leb l) <-> In x l.
Proof.
  split; apply Permutation_in;
    [apply sort_by_perm | apply Permutation_sym, sort_by_perm].
Qed.

Variable index : A -> Z.

Lemma insert_by_sorted (x : A) (l : list A) :
  Sorted (index_le index) l ->
  Sorted (index_le index) (insert_by (fun x y => index x <=? index y) x l).
Proof.
  induction l as [| y l IH]; intros Hs; simpl.
  - repeat constructor.
  - destruct (index x <=? index y) eqn:Hxy.
    + constructor; [assumption |]. constructor. apply Z.leb_le in Hxy. exact Hxy.
    + apply Z.leb_gt in Hxy. inversion Hs as [| ? ? Hl Hhd]; subst.
      constructor; [now apply IH |].
      destruct l as [| z l']; simpl.
      * constructor. unfold index_le. lia.
      * destruct (index x <=? index z).
        -- constructor. unfold index_le. lia.
        -- constructor. now inversion Hhd.
Qed.

Lemma sort_index_sorted (l : list A) :
  StronglySorted (index_le index) (sort_index index l).
Proof.
  apply Sorted_StronglySorted.
  - intros a b c Hab Hbc. unfold index_le in *. lia.
  - unfold sort_index, sort_by. induction l as [| x l IH]; simpl.
    + constructor.
    + now apply insert_by_sorted.
Qed.

Lemma sort_index_In (l : list A) (x : A) :
  In x (sort_index index l) <-> In x l.
Proof. apply sort_by_In. Qed.

(** The first row of a sorted table has the least index. *)
Lemma sort_index_first (l : list A) (first : A) :
  hd_error (sort_index index l) = Some first ->
  forall x, In x l -> index first <= index x.
Proof.
  intros Hhd x Hx. apply sort_index_In in Hx.
  pose proof (sort_index_sorted l) as Hs.
  destruct (sort_index index l) as [| y l']; [discriminate |].
  injection Hhd as ->. inversion Hs as [| ? ? _ Hall]; subst.
  destruct Hx as [<- | Hx]; [lia |].
  rewrite Forall_forall in Hall. exact (Hall x Hx).
Qed.

End Sorting.

(** ** Returns *)

Section Returns.

Import mk_rets.

Lemma fdiv_nan_r (x : float) : fdiv x nan = nan.
Proof. now destruct x. Qed.

Lemma fdiv_nan_l (y : float) : fdiv nan y = nan.
Proof. reflexivity. Qed.

(** The return of the first row is missing, whatever the fill method. *)
Lemma pct_change_first (fm : fill_method) (x : float) (xs : list float) :
  exists rest,
    pct_change fm (x :: xs) = nan :: rest /\ List.length rest = List.length xs.
Proof.
  unfold pct_change.
  set (data := match fm with pad => ffill nan (x :: xs) | no_fill => x :: xs end).
  assert (Hdata : exists y data', data = y :: data' /\ List.length data' = List.length xs).
  { destruct fm; unfold data; simpl.
    - eexists. eexists. split; [reflexivity |].
      generalize (if isna x then nan else x). clear. intros prev.
      revert prev. induction xs as [| z xs IH]; intros prev; simpl;
        [reflexivity | now rewrite IH].
    - eexists. eexists. split; reflexivity. }
  destruct Hdata as [y [data' [-> Hlen]]]. simpl.
  rewrite fdiv_nan_r. eexists. split; [reflexivity |].
  rewrite length_map, length_combine. simpl. lia.
Qed.

Lemma pct_change_length (fm : fill_method) (xs : list float) :
  List.length (pct_change fm xs) = List.length xs.
Proof.
  destruct xs as [| x xs]; [now destruct fm |].
  destruct (pct_change_first fm x xs) as [rest [-> Hlen]]. simpl. now rewrite Hlen.
Qed.

(** Where a row of the output comes from: a row of the sorted price
    table that is not the first one, and a row of the factor table of
    the same date. *)
Lemma mk_ret_df_origin (fm : fill_method) (prc : list PriceRow)
      (ff_df : list FactorRow) (r : RetRow) :
  In r (mk_ret_df fm prc ff_df) ->
  isna (mkt r) = false /\ isna (ret r) = false
  /\ (exists f, In f ff_df /\ f_date f = date r /\ f_mkt f = mkt r)
  /\ exists p0 ps cur,
       sort_index p_date prc = p0 :: ps /\ In cur ps /\ p_date cur = date r.
Proof.
  unfold mk_ret_df. intros Hin.
  apply filter_In in Hin. destruct Hin as [Hin Hna].
  apply andb_true_iff in Hna. destruct Hna as [Hmkt Hret].
  apply negb_true_iff in Hmkt, Hret.
  apply in_flat_map in Hin. destruct Hin as [[p v] [Hrow Hr]].
  apply in_map_iff in Hr. destruct Hr as [f [<- Hf]].
  apply filter_In in Hf. destruct Hf as [Hf Hdate]. apply Z.eqb_eq in Hdate.
  simpl in *.
  split; [assumption |]. split; [assumption |].
  split; [exists f; auto |].
  destruct (sort_index p_date prc) as [| p0 ps] eqn:Es; [contradiction |].
  simpl map in Hrow.
  destruct (pct_change_first fm (close p0) (map close ps)) as [rest [Hpc _]].
  rewrite Hpc in Hrow. simpl in Hrow. destruct Hrow as [Heq | Hrow].
  - injection Heq as <- <-. discriminate.
  - exists p0, ps, p. repeat split. eapply in_combine_l; eassumption.
Qed.

End Returns.

(** C5.  Every row of the table [mk_ret_df] returns has a stock return
    and a market return that are not missing; its date is a date of the
    price table and a date of the market factor table; and it stems from
    a row of the date-sorted price table that has a row before it.  When
    the price dates are unique, the first trading day (the least date) is
    the date of no output row. *)
Theorem mk_ret_df_sound (fm : mk_rets.fill_method) (prc : list mk_rets.PriceRow)
        (ff_df : list mk_rets.FactorRow) :
  (forall r, In r (mk_rets.mk_ret_df fm prc ff_df) ->
     isna (ret r) = false /\ isna (mkt r) = false
     /\ In (date r) (map mk_rets.p_date prc)
     /\ In (date r) (map mk_rets.f_date ff_df)
     /\ exists i prev cur,
          nth_error (sort_index mk_rets.p_date prc) i = Some prev
          /\ nth_error (sort_index mk_rets.p_date prc) (S i) = Some cur
          /\ mk_rets.p_date prev <= mk_rets.p_date cur
          /\ date r = mk_rets.p_date cur)
  /\ (NoDup (map mk_rets.p_date prc) ->
      forall first,
        hd_error (sort_index mk_rets.p_date prc) = Some first ->
        (forall p, In p prc -> mk_rets.p_date first <= mk_rets.p_date p)
        /\ ~ In (mk_rets.p_date first) (map date (mk_rets.mk_ret_df fm prc ff_df))).
Proof.
  split.
  - intros r Hr. apply mk_ret_df_origin in Hr.
    destruct Hr as [Hmkt [Hret [[f [Hf [Hfd _]]] [p0 [ps [cur [Es [Hcur Hd]]]]]]]].
    split; [assumption |]. split; [assumption |]. split; [| split].
    + rewrite <- Hd. apply in_map.
      apply (sort_index_In mk_rets.p_date). rewrite Es. now right.
    + rewrite <- Hfd. now apply in_map.
    + apply In_nth_error in Hcur. destruct Hcur as [i Hi].
      assert (Hlt : (i < List.length (p0 :: ps))%nat).
      { simpl. apply Nat.lt_lt_succ_r. apply nth_error_Some. congruence. }
      destruct (nth_error (p0 :: ps) i) as [prev |] eqn:Hprev;
        [| apply nth_error_None in Hprev; lia].
      exists i, prev, cur. rewrite Es. repeat split; auto.
      pose proof (sort_index_sorted mk_rets.p_date prc) as Hs. rewrite Es in Hs.
      clear - Hs Hprev Hi.
      revert i prev Hprev Hi. generalize dependent p0.
      induction ps as [| p1 ps IH]; intros p0 Hs i prev Hprev Hi.
      * destruct i; discriminate.
      * destruct i as [| i].
        -- simpl in *. injection Hprev as <-. injection Hi as <-.
           inversion Hs as [| ? ? _ Hall]; subst.
           now inversion Hall.
        -- simpl in Hprev, Hi. inversion Hs; subst. now apply (IH p1) with i.
  - intros Hnd first Hhd. split.
    + now apply (sort_index_first mk_rets.p_date).
    + intros Hin. apply in_map_iff in Hin. destruct Hin as [r [Hdr Hr]].
      apply mk_ret_df_origin in Hr.
      destruct Hr as [_ [_ [_ [p0 [ps [cur [Es [Hcur Hd]]]]]]]].
      rewrite Es in Hhd. injection Hhd as ->.
      assert (Hnd' : NoDup (map mk_rets.p_date (first :: ps))).
      { rewrite <- Es. eapply Permutation_NoDup; [| exact Hnd].
        apply Permutation_map, Permutation_sym, sort_by_perm. }
      simpl in Hnd'. inversion Hnd' as [| ? ? Hnotin _]; subst.
      apply Hnotin. rewrite <- Hdr, <- Hd. now apply in_map.
Qed.

Lemma mk_ret_df_sound_witness :
  mk_rets.mk_ret_df mk_rets.pad mk_rets.sample_prices mk_rets.sample_factors
  = [ {| date := 15386; mkt := f0_01; ret := fsub (fdiv f110 f100) fone |} ]
  /\ ~ In 15385 (map date (mk_rets.mk_ret_df mk_rets.pad mk_rets.sample_prices
                             mk_rets.sample_factors)).
Proof.
  split; [reflexivity |].
  refine (proj2 (proj2 (mk_ret_df_sound mk_rets.pad mk_rets.sample_prices
                          mk_rets.sample_factors) _
                   {| mk_rets.p_date := 15385; mk_rets.close := f100 |} eq_refl)).
  repeat constructor; simpl; intuition discriminate.
Defined.

(** ** Lists *)

Section ListFacts.

Context {A B : Type}.

Lemma mapM_Forall2 (f : A -> result B) (l : list A) (ys : list B) :
  mapM f l = Ok ys <-> Forall2 (fun x y => f x = Ok y) l ys.
Proof.
  revert ys. induction l as [| x l IH]; intros ys; simpl.
  - split.
    + intros H. injection H as <-. constructor.
    + intros H. now inversion H.
  - destruct (f x) as [y | e] eqn:Hfx; cbn [bind].
    + destruct (mapM f l) as [ys' | e] eqn:Hm; cbn [bind].
      * split.
        -- intros H. injection H as <-. constructor; [assumption | now apply IH].
        -- intros H. inversion H as [| ? y0 ? ys0 Hy Hys]; subst.
           apply IH in Hys. injection Hys as <-. congruence.
      * split; [discriminate |].
        intros H. inversion H as [| ? y0 ? ys0 Hy Hys]; subst.
        apply IH in Hys. discriminate.
    + split; [discriminate |].
      intros H. inversion H; subst. congruence.
Qed.

(** [mapM] raises what the first failing element raises. *)
Lemma mapM_first_raise (f : A -> result B) (l1 l2 : list A) (x : A) (e : exn) :
  (forall a, In a l1 -> exists b, f a = Ok b) ->
  f x = Raise e ->
  mapM f (l1 ++ x :: l2) = Raise e.
Proof.
  intros Hl1 Hx. induction l1 as [| a l1 IH]; simpl.
  - now rewrite Hx.
  - destruct (Hl1 a (or_introl eq_refl)) as [b Hb]. rewrite Hb. cbn [bind].
    rewrite IH; [reflexivity |]. intros a' Ha'. apply Hl1. now right.
Qed.

(** A list splits at its first element that satisfies [p]. *)
Lemma first_such (p : A -> bool) (l : list A) (x : A) :
  In x l -> p x = true ->
  exists l1 y l2, l = l1 ++ y :: l2 /\ p y = true /\ forall a, In a l1 -> p a = false.
Proof.
  induction l as [| a l IH]; intros Hin Hp; [contradiction |].
  destruct (p a) eqn:Hpa.
  - exists [], a, l. repeat split; [assumption | intros ? []].
  - destruct Hin as [-> | Hin]; [congruence |].
    destruct (IH Hin Hp) as [l1 [y [l2 [-> [Hy Hl1]]]]].
    exists (a :: l1), y, l2. repeat split; [assumption |].
    intros a' [<- | Ha']; [assumption | now apply Hl1].
Qed.

Lemma Forall2_combine_fst (R : A -> B -> Prop) (l : list A) (ys : list B) :
  Forall2 R l ys -> map fst (combine l ys) = l.
Proof. induction 1; simpl; [reflexivity | now f_equal]. Qed.

Lemma Forall2_combine_snd (R : A -> B -> Prop) (l : list A) (ys : list B) :
  Forall2 R l ys -> map snd (combine l ys) = ys.
Proof. induction 1; simpl; [reflexivity | now f_equal]. Qed.

Lemma Forall2_combine_In (R : A -> B -> Prop) (l : list A) (ys : list B) (p : A * B) :
  Forall2 R l ys -> In p (combine l ys) -> R (fst p) (snd p).
Proof.
  induction 1 as [| x y l ys Hxy _ IH]; simpl; [contradiction |].
  intros [<- | Hin]; [assumption | now apply IH].
Qed.

Lemma Forall2_In_l (R : A -> B -> Prop) (l : list A) (ys : list B) (x : A) :
  Forall2 R l ys -> In x l -> exists y, In (x, y) (combine l ys).
Proof.
  induction 1 as [| a y l ys _ _ IH]; simpl; [contradiction |].
  intros [<- | Hin].
  - exists y. now left.
  - destruct (IH Hin) as [y' Hy']. exists y'. now right.
Qed.

Lemma combine_seq_snd (l : list A) (n : nat) :
  map snd (combine (seq n (List.length l)) l) = l.
Proof.
  revert n. induction l as [| x l IH]; intros n; simpl; [reflexivity | now rewrite IH].
Qed.

Lemma combine_seq_nth (l : list A) (n i : nat) (p : nat * A) :
  nth_error (combine (seq n (List.length l)) l) i = Some p ->
  fst p = (n + i)%nat /\ nth_error l i = Some (snd p).
Proof.
  revert n i. induction l as [| x l IH]; intros n i; simpl.
  - destruct i; discriminate.
  - destruct i as [| i]; simpl.
    + intros H. injection H as <-. simpl. split; [lia | reflexivity].
    + intros H. apply IH in H. destruct H as [H1 H2]. split; [lia | assumption].
Qed.

Lemma NoDup_map_filter (keep : A -> bool) (f : A -> B) (rows : list A)
      (Hnd : NoDup (map f rows)) :
  NoDup (map f (filter keep rows)).
Proof.
  revert Hnd. induction rows as [| x l IH]; simpl; intros Hnd; [constructor |].
  inversion Hnd as [| ? ? Hnotin Hnd']; subst.
  destruct (keep x); simpl; [| now apply IH].
  constructor; [| now apply IH].
  intros Hin. apply Hnotin. apply in_map_iff in Hin.
  destruct Hin as [y [Hy Hin]]. apply filter_In in Hin.
  apply in_map_iff. exists y. tauto.
Qed.

Lemma NoDup_map_inj (f : A -> B) (l : list A) (x y : A) :
  NoDup (map f l) -> In x l -> In y l -> f x = f y -> x = y.
Proof.
  induction l as [| a l IH]; simpl; intros Hnd Hx Hy Hf; [contradiction |].
  inversion Hnd as [| ? ? Hnotin Hnd']; subst.
  destruct Hx as [-> | Hx], Hy as [-> | Hy].
  - reflexivity.
  - exfalso. apply Hnotin. rewrite Hf. now apply in_map.
  - exfalso. apply Hnotin. rewrite <- Hf. now apply in_map.
  - now apply IH.
Qed.

Lemma last_In (l : list A) (d : A) : l <> [] -> In (last l d) l.
Proof.
  induction l as [| x l IH]; intros Hne; [contradiction |].
  destruct l as [| y l]; [now left |].
  right. apply IH. discriminate.
Qed.

Lemma last_map_nonempty (f : A -> B) (l : list A) (d : A) (d' : B) :
  l <> [] -> last (map f l) d' = f (last l d).
Proof.
  induction l as [| x l IH]; intros Hne; [contradiction |].
  destruct l as [| y l]; [reflexivity |].
  change (last (map f (y :: l)) d' = f (last (y :: l) d)).
  apply IH. discriminate.
Qed.

Lemma StronglySorted_filter (R : A -> A -> Prop) (p : A -> bool) (l : list A) :
  StronglySorted R l -> StronglySorted R (filter p l).
Proof.
  induction 1 as [| x l Hs IH Hall]; simpl; [constructor |].
  destruct (p x); [| assumption].
  constructor; [assumption |].
  rewrite Forall_forall in *. intros y Hy. apply filter_In in Hy. now apply Hall.
Qed.

(** The last row of a sorted table is above every row. *)
Lemma StronglySorted_last (R : A -> A -> Prop) (l : list A) (d x : A) :
  (forall a, R a a) ->
  StronglySorted R l -> In x l -> R x (last l d).
Proof.
  intros Hrefl Hs. revert x. induction Hs as [| a l Hs IH Hall]; intros x Hx;
    [contradiction |].
  destruct l as [| b l].
  - destruct Hx as [<- | []]. apply Hrefl.
  - change (R x (last (b :: l) d)). destruct Hx as [<- | Hx].
    + rewrite Forall_forall in Hall. apply Hall. apply last_In. discriminate.
    + now apply IH.
Qed.

End ListFacts.

(** ** Events *)

Section Events.

Import mk_events.

Lemma key_eqb_eq (k1 k2 : key) : key_eqb k1 k2 = true <-> k1 = k2.
Proof.
  destruct k1 as [a b], k2 as [c d]. unfold key_eqb. simpl.
  rewrite andb_true_iff, !String.eqb_eq. split.
  - intros [-> ->]. reflexivity.
  - intros H. injection H as -> ->. split; reflexivity.
Qed.

Lemma key_of_dated (r : RecRow) : key_of (dated r) = spec_event_key r.
Proof. reflexivity. Qed.

Lemma group_In (k : key) (df : list DatedRow) (r : DatedRow) :
  In r (group k df) <-> In r df /\ key_of r = k.
Proof. unfold group. rewrite filter_In, key_eqb_eq. reflexivity. Qed.

Lemma group_keys_In (df : list DatedRow) (k : key) :
  In k (group_keys df) <-> exists r, In r df /\ key_of r = k.
Proof.
  unfold group_keys. rewrite sort_by_In, nodup_In, in_map_iff.
  split; intros [r H]; exists r; tauto.
Qed.

Lemma group_keys_NoDup (df : list DatedRow) : NoDup (group_keys df).
Proof.
  unfold group_keys. eapply Permutation_NoDup.
  - apply Permutation_sym, sort_by_perm.
  - apply NoDup_nodup.
Qed.

Lemma groupby_last_keys (df : list DatedRow) :
  map gkey (groupby_last df) = group_keys df.
Proof.
  unfold groupby_last. rewrite map_map. unfold gkey. simpl.
  rewrite <- (map_id (group_keys df)) at 2.
  apply map_ext. now intros [a b].
Qed.

(** A deduplicated row carries the action of a row of its group that no
    row of the group comes after. *)
Lemma groupby_last_spec (df : list DatedRow) (g : GroupRow) :
  StronglySorted (index_le d_ts) df ->
  In g (groupby_last df) ->
  exists r, In r df /\ key_of r = gkey g /\ d_action r = g_action g
            /\ forall r', In r' df -> key_of r' = gkey g -> d_ts r' <= d_ts r.
Proof.
  intros Hs Hg. unfold groupby_last in Hg. apply in_map_iff in Hg.
  destruct Hg as [k [<- Hk]]. unfold gkey. simpl.
  replace (fst k, snd k) with k by now destruct k.
  apply group_keys_In in Hk. destruct Hk as [r0 [Hr0 Hkey0]].
  assert (Hne : group k df <> []).
  { intros Hnil. assert (Hin : In r0 (group k df)) by now apply group_In.
    rewrite Hnil in Hin. contradiction. }
  exists (last (group k df) r0).
  pose proof (last_In (group k df) r0 Hne) as Hlast.
  apply group_In in Hlast. destruct Hlast as [Hin Hkey].
  split; [assumption |]. split; [assumption |]. split.
  - symmetry. now apply last_map_nonempty.
  - intros r' Hr' Hkey'.
    apply (StronglySorted_last (index_le d_ts) (group k df) r0 r').
    + intros a. unfold index_le. lia.
    + now apply StronglySorted_filter.
    + now apply group_In.
Qed.

Lemma groupby_last_complete (df : list DatedRow) (r : DatedRow) :
  In r df -> exists g, In g (groupby_last df) /\ gkey g = key_of r.
Proof.
  intros Hr.
  assert (Hk : In (key_of r) (map gkey (groupby_last df))).
  { rewrite groupby_last_keys. apply group_keys_In. now exists r. }
  apply in_map_iff in Hk. destruct Hk as [g [Hg Hin]]. now exists g.
Qed.

Lemma deduplicated_NoDup (recs : list RecRow) :
  NoDup (map gkey (deduplicated recs)).
Proof. unfold deduplicated. rewrite groupby_last_keys. apply group_keys_NoDup. Qed.

Lemma dated_rows_In (recs : list RecRow) (row : DatedRow) :
  In row (sort_index d_ts (with_event_date recs)) <-> exists r, In r recs /\ row = dated r.
Proof.
  rewrite sort_index_In. unfold with_event_date. rewrite in_map_iff.
  split; intros [r [H1 H2]]; exists r; split; auto.
Qed.

(** A deduplicated row, in terms of the raw rows. *)
Lemma deduplicated_spec (recs : list RecRow) (g : GroupRow) :
  In g (deduplicated recs) ->
  exists r, In r recs /\ spec_event_key r = gkey g /\ action r = g_action g
            /\ forall r', In r' recs -> spec_event_key r' = spec_event_key r -> ts r' <= ts r.
Proof.
  intros Hg. apply groupby_last_spec in Hg; [| apply sort_index_sorted].
  destruct Hg as [row [Hrow [Hkey [Hact Hmax]]]].
  apply dated_rows_In in Hrow. destruct Hrow as [r [Hr ->]].
  exists r. repeat split; try assumption.
  intros r' Hr' Hkey'.
  apply (Hmax (dated r')).
  - apply dated_rows_In. exists r'. split; [assumption | reflexivity].
  - rewrite key_of_dated, Hkey', <- Hkey. reflexivity.
Qed.

Lemma deduplicated_complete (recs : list RecRow) (r : RecRow) :
  In r recs -> exists g, In g (deduplicated recs) /\ gkey g = spec_event_key r.
Proof.
  intros Hr.
  destruct (groupby_last_complete (sort_index d_ts (with_event_date recs)) (dated r))
    as [g [Hg Hkey]].
  - apply dated_rows_In. now exists r.
  - now exists g.
Qed.

(** The deduplicated row of a pair whose last raw row is [r] carries the
    action of [r]. *)
Lemma deduplicated_latest (recs : list RecRow) (r : RecRow) (g : GroupRow) :
  In r recs ->
  (forall r', In r' recs -> spec_event_key r' = spec_event_key r -> r' = r \/ ts r' < ts r) ->
  In g (deduplicated recs) -> gkey g = spec_event_key r ->
  g_action g = action r.
Proof.
  intros Hr Hlatest Hg Hkey.
  destruct (deduplicated_spec recs g Hg) as [r2 [Hr2 [Hkey2 [Hact Hmax]]]].
  assert (Hsame : spec_event_key r2 = spec_event_key r) by congruence.
  destruct (Hlatest r2 Hr2 Hsame) as [-> | Hlt]; [now symmetry |].
  assert (Hle : ts r <= ts r2) by (apply Hmax; [assumption | now symmetry]).
  lia.
Qed.

Lemma mk_et_ok (value et : string) :
  _mk_et value = Ok et <->
  (value = "down" /\ et = "downgrade") \/ (value = "up" /\ et = "upgrade").
Proof.
  unfold _mk_et.
  destruct (String.eqb_spec value "down") as [-> | Hd].
  - split.
    + intros H. injection H as <-. now left.
    + intros [[_ ->] | [H _]]; [reflexivity | discriminate].
  - destruct (String.eqb_spec value "up") as [-> | Hu].
    + split.
      * intros H. injection H as <-. now right.
      * intros [[H _] | [_ ->]]; [discriminate | reflexivity].
    + split; [discriminate |]. intros [[H _] | [H _]]; contradiction.
Qed.

Lemma mk_et_raise (value : string) :
  value <> "down" -> value <> "up" -> _mk_et value = Raise (UnknownAction value).
Proof.
  intros Hd Hu. unfold _mk_et.
  apply String.eqb_neq in Hd, Hu. now rewrite Hd, Hu.
Qed.

Lemma number_events_nth (df : list (GroupRow * string)) (i : nat) (e : Event) :
  nth_error (number_events df) i = Some e ->
  event_id e = Z.of_nat i + 1 /\
  exists p, nth_error df i = Some p /\ spec_pair e = gkey (fst p) /\ event_type e = snd p.
Proof.
  unfold number_events. rewrite nth_error_map.
  destruct (nth_error (combine _ df) i) as [q |] eqn:Hq; [| discriminate].
  simpl. intros H. injection H as <-. simpl.
  apply combine_seq_nth in Hq. destruct Hq as [Hi Hnth]. simpl in Hi.
  split; [now rewrite Hi |]. exists (snd q). repeat split. assumption.
Qed.

Lemma number_events_length (df : list (GroupRow * string)) :
  List.length (number_events df) = List.length df.
Proof.
  unfold number_events. rewrite length_map, length_combine, length_seq. lia.
Qed.

Lemma number_events_In (df : list (GroupRow * string)) (p : GroupRow * string) :
  In p df -> exists e, In e (number_events df) /\ spec_pair e = gkey (fst p)
                       /\ event_type e = snd p.
Proof.
  intros Hp. apply In_nth_error in Hp. destruct Hp as [i Hi].
  assert (Hlt : (i < List.length (number_events df))%nat).
  { rewrite number_events_length. apply nth_error_Some. congruence. }
  destruct (nth_error (number_events df) i) as [e |] eqn:He;
    [| apply nth_error_None in He; lia].
  exists e. split; [eapply nth_error_In; eassumption |].
  apply number_events_nth in He. destruct He as [_ [p' [Hp' [Hk Ht]]]].
  rewrite Hi in Hp'. injection Hp' as <-. now split.
Qed.

Lemma number_events_pairs (df : list (GroupRow * string)) :
  map spec_pair (number_events df) = map gkey (map fst df).
Proof.
  unfold number_events. rewrite !map_map.
  transitivity (map (fun p => gkey (fst p))
                    (map snd (combine (seq 0 (List.length df)) df))).
  - rewrite map_map. reflexivity.
  - now rewrite combine_seq_snd.
Qed.

(** [mk_event_df] on a table with a row, and on the table without. *)
Lemma mk_event_df_rows (recs : list RecRow) :
  recs <> [] ->
  mk_event_df recs
  = (event_types <- mapM _mk_et (map g_action (relevant recs)) ;;
     Ok (number_events (combine (relevant recs) event_types))).
Proof. destruct recs; [contradiction | reflexivity]. Qed.

Lemma mk_event_df_no_row :
  mk_event_df [] = Raise (AttributeError "'Index' object has no attribute 'strftime'").
Proof. reflexivity. Qed.

Lemma mk_event_df_returns (recs : list RecRow) (events : list Event) :
  mk_event_df recs = Ok events -> recs <> [].
Proof. intros H ->. discriminate. Qed.

End Events.

(** C4 (as amended).  When [mk_event_df] returns, the event at position
    [i] (from 0) has event_id [i + 1], so the ids are exactly 1..N in
    increasing order; no two events share their (event_date, firm) pair;
    every event stems from a raw row of its pair that no raw row of the
    pair comes after, its event_type being that row's action mapped; and
    a pair whose chronologically last raw row is [r] has an event exactly
    when the action of [r] matches "up" or "down" (none otherwise). *)
Theorem mk_event_df_dedup (recs : list mk_events.RecRow) (events : list Event) :
  mk_events.mk_event_df recs = Ok events ->
  (forall i e, nth_error events i = Some e -> event_id e = Z.of_nat i + 1)
  /\ NoDup (map spec_pair events)
  /\ (forall e, In e events ->
        exists r, In r recs
                  /\ spec_event_key r = spec_pair e
                  /\ mk_events._mk_et (mk_events.action r) = Ok (event_type e)
                  /\ forall r', In r' recs -> spec_event_key r' = spec_event_key r ->
                                mk_events.ts r' <= mk_events.ts r)
  /\ (forall r, In r recs ->
        (forall r', In r' recs -> spec_event_key r' = spec_event_key r ->
                    r' = r \/ mk_events.ts r' < mk_events.ts r) ->
        ((exists e, In e events /\ spec_pair e = spec_event_key r)
         <-> mk_events.contains_up_down (mk_events.action r) = true)).
Proof.
  intros H. rewrite (mk_event_df_rows recs (mk_event_df_returns recs events H)) in H.
  destruct (mapM mk_events._mk_et (map mk_events.g_action (mk_events.relevant recs)))
    as [types |] eqn:Hm; [| discriminate].
  cbn [bind] in H. injection H as <-.
  apply mapM_Forall2 in Hm.
  assert (HF : Forall2 (fun g et => mk_events._mk_et (mk_events.g_action g) = Ok et)
                       (mk_events.relevant recs) types).
  { clear - Hm. remember (mk_events.relevant recs) as F. clear HeqF.
    revert types Hm. induction F as [| g F IH]; intros types Hm;
      inversion Hm; subst; constructor; auto. }
  clear Hm.
  set (df := combine (mk_events.relevant recs) types).
  assert (Hfst : map fst df = mk_events.relevant recs)
    by (eapply Forall2_combine_fst; eassumption).
  assert (Hnd : NoDup (map mk_events.gkey (mk_events.relevant recs))).
  { unfold mk_events.relevant. apply NoDup_map_filter, deduplicated_NoDup. }
  split; [| split; [| split]].
  - intros i e He. now apply number_events_nth in He.
  - rewrite number_events_pairs, Hfst. exact Hnd.
  - intros e He. apply In_nth_error in He. destruct He as [i Hi].
    apply number_events_nth in Hi. destruct Hi as [_ [p [Hp [Hk Ht]]]].
    apply nth_error_In in Hp.
    pose proof (Forall2_combine_In _ _ _ p HF Hp) as Het. simpl in Het.
    assert (Hg : In (fst p) (mk_events.relevant recs)).
    { rewrite <- Hfst. now apply in_map. }
    unfold mk_events.relevant in Hg. apply filter_In in Hg. destruct Hg as [Hg _].
    destruct (deduplicated_spec recs (fst p) Hg) as [r [Hr [Hkey [Hact Hmax]]]].
    exists r. repeat split; try assumption.
    + now rewrite Hk.
    + now rewrite Hact, Ht.
  - intros r Hr Hlatest.
    destruct (deduplicated_complete recs r Hr) as [g [Hg Hkey]].
    pose proof (deduplicated_latest recs r g Hr Hlatest Hg Hkey) as Hact.
    split.
    + intros [e [He Hpair]].
      apply In_nth_error in He. destruct He as [i Hi].
      apply number_events_nth in Hi. destruct Hi as [_ [p [Hp [Hk _]]]].
      apply nth_error_In in Hp.
      assert (Hg' : In (fst p) (mk_events.relevant recs)).
      { rewrite <- Hfst. now apply in_map. }
      unfold mk_events.relevant in Hg'. apply filter_In in Hg'.
      destruct Hg' as [Hg' Hcond].
      assert (Heq : fst p = g).
      { apply (NoDup_map_inj mk_events.gkey (mk_events.deduplicated recs));
          [apply deduplicated_NoDup | assumption | assumption | congruence]. }
      rewrite Heq, Hact in Hcond. exact Hcond.
    + intros Hcond.
      assert (Hg' : In g (mk_events.relevant recs)).
      { unfold mk_events.relevant. apply filter_In. split; [assumption |].
        now rewrite Hact. }
      destruct (Forall2_In_l _ _ _ g HF Hg') as [et Hp].
      destruct (number_events_In df (g, et) Hp) as [e [He [Hk _]]].
      exists e. split; [assumption |]. simpl in Hk. congruence.
Qed.

Lemma mk_event_df_dedup_witness :
  mk_events.mk_event_df mk_events.sample_recs
  = Ok [ {| event_id := 1; firm := "BAIRD"; event_date := "2020-09-23";
            event_type := "downgrade" |};
         {| event_id := 2; firm := "DEUTSCHE BANK"; event_date := "2020-09-23";
            event_type := "upgrade" |} ]
  /\ NoDup [("2020-09-23", "BAIRD"); ("2020-09-23", "DEUTSCHE BANK")].
Proof.
  split; [reflexivity |].
  refine (proj1 (proj2 (mk_event_df_dedup mk_events.sample_recs
            [ {| event_id := 1; firm := "BAIRD"; event_date := "2020-09-23";
                 event_type := "downgrade" |};
              {| event_id := 2; firm := "DEUTSCHE BANK"; event_date := "2020-09-23";
                 event_type := "upgrade" |} ] _))).
  vm_compute. reflexivity.
Defined.

(** C4 as stated fails: two raw rows share the pair
    (2020-09-23, DEUTSCHE BANK), the later one has the action "main",
    and the output has no event for the pair. *)
Lemma mk_event_df_drops_pair :
  map spec_event_key mk_events.up_then_main
  = [("2020-09-23", "DEUTSCHE BANK"); ("2020-09-23", "DEUTSCHE BANK")]
  /\ mk_events.mk_event_df mk_events.up_then_main = Ok [].
Proof. split; reflexivity. Qed.

(** ** t-statistics *)

Section TStats.

Import test_hypo.

Lemma count_acc (xs : list float) (n : Z) :
  fold_left (fun n x => if isna x then n else n + 1) xs n
  = n + Z.of_nat (List.length (spec_observed xs)).
Proof.
  revert n. induction xs as [| x xs IH]; intros n; simpl.
  - lia.
  - rewrite IH. destruct (isna x); simpl; lia.
Qed.

Lemma count_observed (xs : list float) :
  count xs = Z.of_nat (List.length (spec_observed xs)).
Proof. unfold count. now rewrite count_acc. Qed.

(** The loop of [group_mean] over a group is the compensated sum of its
    values that are not missing. *)
Lemma mean_fold (xs : list float) :
  forall st,
    fold_left mean_step xs st
    = {| m_nobs := m_nobs st + Z.of_nat (List.length (spec_observed xs));
         m_sumx := fst (fold_left (fun st val =>
                                     let y := fsub val (snd st) in
                                     let t := fadd (fst st) y in
                                     (t, fsub (fsub t (fst st)) y))
                                  (spec_observed xs) (m_sumx st, m_compensation st));
         m_compensation :=
           snd (fold_left (fun st val =>
                             let y := fsub val (snd st) in
                             let t := fadd (fst st) y in
                             (t, fsub (fsub t (fst st)) y))
                          (spec_observed xs) (m_sumx st, m_compensation st)) |}.
Proof.
  induction xs as [| x xs IH]; intros st; simpl.
  - destruct st. simpl. f_equal. symmetry. apply Z.add_0_r.
  - rewrite IH. unfold mean_step. destruct (isna x); simpl.
    + reflexivity.
    + f_equal. rewrite <- Z.add_assoc. f_equal.
      now rewrite Zpos_P_of_succ_nat, <- Z.add_1_l.
Qed.

Lemma mean_observed (xs : list float) : mean xs = spec_mean (spec_observed xs).
Proof. unfold mean, spec_mean, spec_sum, spec_n. rewrite mean_fold. reflexivity. Qed.

(** The loop of [group_var] over a group is the running variance of its
    values that are not missing. *)
Lemma var_fold (xs : list float) :
  forall st,
    let st' := fold_left (fun st val =>
                            let '(n, m, q) := st in
                            let m' := fadd m (fdiv (fsub val m) (float_of_Z (n + 1))) in
                            (n + 1, m', fadd q (fmul (fsub val m') (fsub val m))))
                         (spec_observed xs) (v_nobs st, v_mean st, v_out st) in
    fold_left var_step xs st
    = {| v_nobs := fst (fst st'); v_mean := snd (fst st'); v_out := snd st' |}.
Proof.
  induction xs as [| x xs IH]; intros st; simpl.
  - now destruct st.
  - rewrite IH. unfold var_step. destruct (isna x); reflexivity.
Qed.

Lemma deviations_count (xs : list float) :
  forall n m q,
    fst (fst (fold_left (fun st val =>
                           let '(n, m, q) := st in
                           let m' := fadd m (fdiv (fsub val m) (float_of_Z (n + 1))) in
                           (n + 1, m', fadd q (fmul (fsub val m') (fsub val m))))
                        xs (n, m, q)))
    = n + Z.of_nat (List.length xs).
Proof.
  induction xs as [| x xs IH]; intros n m q; simpl.
  - symmetry. apply Z.add_0_r.
  - rewrite IH. rewrite <- Z.add_assoc. f_equal.
    now rewrite Zpos_P_of_succ_nat, <- Z.add_1_l.
Qed.

Lemma var_nobs (xs : list float) :
  v_nobs (fold_left var_step xs var_init) = count xs.
Proof.
  rewrite var_fold. cbn [v_nobs]. unfold var_init. cbn [v_nobs v_mean v_out].
  rewrite deviations_count, count_observed. reflexivity.
Qed.

Lemma var_observed (xs : list float) : var 1 xs = spec_var (spec_observed xs).
Proof.
  unfold var. rewrite var_nobs, count_observed. unfold spec_var, spec_n.
  destruct (_ <=? 1); [reflexivity |].
  rewrite var_fold. reflexivity.
Qed.

Lemma sem_observed (xs : list float) : sem xs = spec_sem (spec_observed xs).
Proof. unfold sem, std, spec_sem, spec_n. now rewrite var_observed, count_observed. Qed.

Lemma tstat_keys_In (event_cars : list CarRecord) (k : string) :
  In k (group_keys event_cars) <-> In k (map cr_event_type event_cars).
Proof. unfold group_keys. now rewrite sort_by_In, nodup_In. Qed.

Lemma tstat_keys_NoDup (event_cars : list CarRecord) : NoDup (group_keys event_cars).
Proof.
  unfold group_keys. eapply Permutation_NoDup.
  - apply Permutation_sym, sort_by_perm.
  - apply NoDup_nodup.
Qed.

Lemma calc_tstats_keys (event_cars : list CarRecord) :
  map t_event_type (calc_tstats event_cars) = group_keys event_cars.
Proof.
  unfold calc_tstats. rewrite !map_map. simpl. apply map_id.
Qed.

Lemma calc_tstats_In (event_cars : list CarRecord) (row : TStatRow) :
  In row (calc_tstats event_cars) <->
  In (t_event_type row) (group_keys event_cars)
  /\ row = {| t_event_type := t_event_type row;
              car_bar := mean (group_cars (t_event_type row) event_cars);
              car_t := fdiv (mean (group_cars (t_event_type row) event_cars))
                            (sem (group_cars (t_event_type row) event_cars));
              n_obs := count (group_cars (t_event_type row) event_cars) |}.
Proof.
  unfold calc_tstats. rewrite map_map, in_map_iff. simpl. split.
  - intros [k [<- Hk]]. simpl. split; [assumption | reflexivity].
  - intros [Hk Hrow]. exists (t_event_type row). split; [now symmetry | assumption].
Qed.

(** Dropping the rows without a car and reading a group commute. *)
Lemma group_cars_dropna (k : string) (event_cars : list CarRecord) :
  spec_observed (group_cars k event_cars) = group_cars k (spec_dropna event_cars).
Proof.
  unfold spec_observed, group_cars, spec_dropna.
  induction event_cars as [| r l IH]; simpl; [reflexivity |].
  destruct (String.eqb (cr_event_type r) k) eqn:Hk; simpl;
    destruct (isna (car r)) eqn:Hna; simpl; rewrite ?Hk, ?Hna; simpl;
    now rewrite IH.
Qed.

Lemma spec_observed_idem (xs : list float) :
  spec_observed (spec_observed xs) = spec_observed xs.
Proof.
  unfold spec_observed. induction xs as [| x xs IH]; simpl; [reflexivity |].
  destruct (isna x) eqn:Hx; simpl; rewrite ?Hx; simpl; now rewrite IH.
Qed.

Lemma spec_observed_In (xs : list float) (x : float) :
  In x (spec_observed xs) -> isna x = false.
Proof.
  unfold spec_observed. rewrite filter_In. intros [_ H]. now apply negb_true_iff.
Qed.

(** Division by a missing value, and by zero. *)
Lemma fsqrt_nan : fsqrt nan = nan.
Proof. reflexivity. Qed.

Lemma fdiv_zero_r (x : float) (s : bool) :
  isna (fdiv x (S754_zero s)) = (is_zero x || isna x)%bool
  /\ (isna (fdiv x (S754_zero s)) = false -> is_inf (fdiv x (S754_zero s)) = true).
Proof. destruct x; simpl; split; auto; discriminate. Qed.

Lemma sem_few (xs : list float) : count xs <= 1 -> sem xs = nan.
Proof.
  intros Hn. unfold sem, std, var. rewrite var_nobs.
  apply Z.leb_le in Hn. rewrite Hn. reflexivity.
Qed.

(** A group without a value has no mean. *)
Lemma mean_none (xs : list float) : count xs = 0 -> mean xs = nan.
Proof.
  intros Hn. unfold mean. rewrite mean_fold. cbn [m_nobs mean_init].
  rewrite count_observed in Hn. rewrite Hn. reflexivity.
Qed.

End TStats.

(** C7 (as amended).  [calc_tstats] is a total function: it returns one
    row per event type of the table, each with the mean and the count of
    its group.  For a group of exactly one row, and for any group with
    fewer than two cars that are not missing, the t-statistic is NaN.
    For a group whose standard error is zero the t-statistic is NaN
    exactly when the mean is zero or missing; otherwise it is an
    infinity. *)
Theorem calc_tstats_degenerate (event_cars : list test_hypo.CarRecord) :
  map test_hypo.t_event_type (test_hypo.calc_tstats event_cars)
  = test_hypo.group_keys event_cars
  /\ NoDup (test_hypo.group_keys event_cars)
  /\ (forall r, In r event_cars ->
        In (test_hypo.cr_event_type r) (test_hypo.group_keys event_cars))
  /\ forall row, In row (test_hypo.calc_tstats event_cars) ->
       let g := test_hypo.group_cars (test_hypo.t_event_type row) event_cars in
       test_hypo.car_bar row = test_hypo.mean g
       /\ test_hypo.n_obs row = test_hypo.count g
       /\ (List.length g = 1%nat -> test_hypo.car_t row = nan)
       /\ (test_hypo.count g <= 1 -> test_hypo.car_t row = nan)
       /\ (is_zero (test_hypo.sem g) = true ->
           isna (test_hypo.car_t row)
           = (is_zero (test_hypo.car_bar row) || isna (test_hypo.car_bar row))%bool
           /\ (isna (test_hypo.car_t row) = false -> is_inf (test_hypo.car_t row) = true)).
Proof.
  split; [apply calc_tstats_keys |].
  split; [apply tstat_keys_NoDup |].
  split; [intros r Hr; apply tstat_keys_In; now apply in_map |].
  intros row Hrow g. apply calc_tstats_In in Hrow. destruct Hrow as [_ Hrow].
  fold g in Hrow. rewrite Hrow. simpl.
  assert (Hfew : test_hypo.count g <= 1 ->
                 fdiv (test_hypo.mean g) (test_hypo.sem g) = nan).
  { intros Hn. rewrite (sem_few g Hn). apply fdiv_nan_r. }
  split; [reflexivity |]. split; [reflexivity |]. split; [| split].
  - intros Hlen. apply Hfew. rewrite count_observed.
    pose proof (filter_length_le (fun x => negb (isna x)) g) as Hle.
    unfold spec_observed. lia.
  - exact Hfew.
  - intros Hz. destruct (test_hypo.sem g) as [s | | |]; try discriminate.
    apply fdiv_zero_r.
Qed.

Lemma calc_tstats_degenerate_witness :
  map test_hypo.t_event_type (test_hypo.calc_tstats test_hypo.sample_cars)
  = ["downgrade"; "upgrade"]
  /\ forall row, In row (test_hypo.calc_tstats test_hypo.sample_cars) ->
       test_hypo.t_event_type row = "upgrade" ->
       test_hypo.n_obs row = 1 /\ test_hypo.car_t row = nan.
Proof.
  split.
  - exact (proj1 (calc_tstats_degenerate test_hypo.sample_cars)).
  - intros row Hrow Hk.
    destruct (proj2 (proj2 (proj2 (calc_tstats_degenerate test_hypo.sample_cars)))
                row Hrow) as [_ [Hn [Hone _]]].
    rewrite Hk in Hn, Hone. split; [exact Hn | apply Hone; reflexivity].
Defined.

(** C7 as stated fails: the two downgrades of the sample have the same
    CAR, the standard error of the group is zero, and its t-statistic is
    plus infinity, which is not NaN. *)
Lemma calc_tstats_zero_sem_infinite :
  test_hypo.sem (test_hypo.group_cars "downgrade" test_hypo.sample_cars) = fzero
  /\ In {| test_hypo.t_event_type := "downgrade";
           test_hypo.car_bar := f0_02;
           test_hypo.car_t := S754_infinity false;
           test_hypo.n_obs := 2 |}
        (test_hypo.calc_tstats test_hypo.sample_cars)
  /\ isna (S754_infinity false) = false.
Proof.
  split; [vm_compute; reflexivity |]. split; [| reflexivity].
  vm_compute. left. reflexivity.
Qed.

Section Main.

Import main.

(** What [main] hands to [calc_tstats]: one record per event, with the
    CAR [calc_car] gave, missing or not. *)
Lemma main_unfiltered (fm : mk_rets.fill_method) (prc : list mk_rets.PriceRow)
      (ff_df : list mk_rets.FactorRow) (recs : list mk_events.RecRow)
      (stats : list test_hypo.TStatRow) :
  main fm prc ff_df recs = Ok stats ->
  exists events cars,
    mk_events.mk_event_df recs = Ok events
    /\ mapM (fun ser => mk_cars.calc_car ser (mk_rets.mk_ret_df fm prc ff_df) 2) events
       = Ok cars
    /\ stats = test_hypo.calc_tstats
                 (map (fun p => {| test_hypo.cr_event_type := event_type (fst p);
                                   test_hypo.car := snd p |})
                      (combine events cars)).
Proof.
  unfold main. intros H.
  destruct (mk_events.mk_event_df recs) as [events |]; [| discriminate].
  cbn [bind] in H. unfold mk_cars.mk_cars_df in H. simpl in H.
  destruct (mapM _ events) as [cars |] eqn:Hcars; [| discriminate].
  cbn [bind] in H. simpl in H. unfold mk_cars.update in H. simpl in H.
  injection H as <-. exists events, cars. repeat split. exact Hcars.
Qed.

End Main.

Section Observed.

Import test_hypo.

(** The cars of a group that are not missing, row by row. *)
Lemma observed_In (event_cars : list CarRecord) (k : string) (x : float) :
  In x (spec_observed (group_cars k event_cars)) <->
  isna x = false
  /\ exists r, In r event_cars /\ cr_event_type r = k /\ car r = x.
Proof.
  unfold spec_observed, group_cars. rewrite filter_In, in_map_iff. split.
  - intros [[r [Hx Hr]] Hna]. apply filter_In in Hr. destruct Hr as [Hr Hk].
    apply String.eqb_eq in Hk. apply negb_true_iff in Hna.
    split; [assumption |]. now exists r.
  - intros [Hna [r [Hr [Hk Hx]]]]. split.
    + exists r. split; [assumption |]. apply filter_In.
      split; [assumption | now apply String.eqb_eq].
    + now apply negb_true_iff.
Qed.

(** A group has an observation exactly when some row of its event type
    has a car. *)
Lemma count_positive (event_cars : list CarRecord) (k : string) :
  0 < count (group_cars k event_cars) <->
  exists r, In r (spec_dropna event_cars) /\ cr_event_type r = k.
Proof.
  rewrite count_observed. split.
  - intros Hn.
    destruct (spec_observed (group_cars k event_cars)) as [| x obs] eqn:E;
      [simpl in Hn; lia |].
    assert (Hx : In x (spec_observed (group_cars k event_cars)))
      by (rewrite E; now left).
    apply observed_In in Hx. destruct Hx as [Hna [r [Hr [Hk Hx]]]].
    exists r. split; [| assumption]. unfold spec_dropna. apply filter_In.
    split; [assumption |]. rewrite Hx. now apply negb_true_iff.
  - intros [r [Hr Hk]]. unfold spec_dropna in Hr. apply filter_In in Hr.
    destruct Hr as [Hr Hna]. apply negb_true_iff in Hna.
    assert (Hx : In (car r) (spec_observed (group_cars k event_cars))).
    { apply observed_In. split; [assumption |]. now exists r. }
    destruct (spec_observed (group_cars k event_cars)); [contradiction |].
    simpl. lia.
Qed.

(** The row of an event type, from the cars of the type that are not
    missing. *)
Lemma calc_tstats_row (event_cars : list CarRecord) (row : TStatRow) :
  In row (calc_tstats event_cars) ->
  car_bar row
  = spec_mean (spec_observed (group_cars (t_event_type row) event_cars))
  /\ car_t row
     = spec_t_stat (spec_observed (group_cars (t_event_type row) event_cars))
  /\ n_obs row
     = spec_n (spec_observed (group_cars (t_event_type row) event_cars)).
Proof.
  intros Hrow. apply calc_tstats_In in Hrow. destruct Hrow as [_ Hrow].
  rewrite Hrow. cbn [car_bar car_t n_obs t_event_type]. unfold spec_t_stat.
  rewrite mean_observed, sem_observed, count_observed. repeat split.
Qed.

Lemma calc_tstats_dropna (event_cars : list CarRecord) (row : TStatRow) :
  In row (calc_tstats (spec_dropna event_cars)) <->
  In row (calc_tstats event_cars) /\ 0 < n_obs row.
Proof.
  rewrite !calc_tstats_In, !tstat_keys_In.
  set (k := t_event_type row).
  assert (Hsame : {| t_event_type := k;
                     car_bar := mean (group_cars k (spec_dropna event_cars));
                     car_t := fdiv (mean (group_cars k (spec_dropna event_cars)))
                                   (sem (group_cars k (spec_dropna event_cars)));
                     n_obs := count (group_cars k (spec_dropna event_cars)) |}
                  = {| t_event_type := k;
                       car_bar := mean (group_cars k event_cars);
                       car_t := fdiv (mean (group_cars k event_cars))
                                     (sem (group_cars k event_cars));
                       n_obs := count (group_cars k event_cars) |}).
  { rewrite !mean_observed, !sem_observed, !count_observed.
    rewrite <- !group_cars_dropna, !spec_observed_idem. reflexivity. }
  rewrite Hsame. split.
  - intros [Hk Hrow]. apply in_map_iff in Hk. destruct Hk as [r [Hr Hin]].
    split; [split; [| assumption] |].
    + apply in_map_iff. exists r. split; [assumption |].
      unfold spec_dropna in Hin. now apply filter_In in Hin.
    + rewrite Hrow. cbn [n_obs]. apply count_positive. now exists r.
  - intros [[_ Hrow] Hn]. split; [| assumption].
    rewrite Hrow in Hn. cbn [n_obs] in Hn. apply count_positive in Hn.
    destruct Hn as [r [Hr Hk]]. apply in_map_iff. now exists r.
Qed.

End Observed.

(** C10.  [calc_tstats] leaves no event type out and passes over the
    missing cars: for every row of the CAR table the result has exactly
    one row of its event type, whose mean, t-statistic (mean over
    standard error) and n_obs are those of the cars of the type that are
    not missing, every such car taking part, in row order; these are the
    cars the type has once the rows without a car are dropped from the
    table.  The result on the table without those rows consists of the
    rows of the result on the whole table that have an observation.
    [main] passes [calc_tstats] the whole CAR table, one record per
    event. *)
Theorem calc_tstats_skips_missing (event_cars : list test_hypo.CarRecord) :
  (forall r, In r event_cars ->
     exists row,
       In row (test_hypo.calc_tstats event_cars)
       /\ test_hypo.t_event_type row = test_hypo.cr_event_type r
       /\ (forall row', In row' (test_hypo.calc_tstats event_cars) ->
              test_hypo.t_event_type row' = test_hypo.cr_event_type r -> row' = row)
       /\ test_hypo.car_bar row
          = spec_mean (spec_observed
                         (test_hypo.group_cars (test_hypo.cr_event_type r) event_cars))
       /\ test_hypo.car_t row
          = spec_t_stat (spec_observed
                           (test_hypo.group_cars (test_hypo.cr_event_type r) event_cars))
       /\ test_hypo.n_obs row
          = spec_n (spec_observed
                      (test_hypo.group_cars (test_hypo.cr_event_type r) event_cars)))
  /\ (forall row, In row (test_hypo.calc_tstats event_cars) ->
        exists r, In r event_cars
                  /\ test_hypo.cr_event_type r = test_hypo.t_event_type row)
  /\ (forall k x,
        In x (spec_observed (test_hypo.group_cars k event_cars)) <->
        isna x = false
        /\ exists r, In r event_cars /\ test_hypo.cr_event_type r = k
                     /\ test_hypo.car r = x)
  /\ (forall k, spec_observed (test_hypo.group_cars k event_cars)
                = test_hypo.group_cars k (spec_dropna event_cars))
  /\ (forall row, In row (test_hypo.calc_tstats (spec_dropna event_cars)) <->
                  In row (test_hypo.calc_tstats event_cars)
                  /\ 0 < test_hypo.n_obs row)
  /\ (forall fm prc ff_df recs stats,
        main.main fm prc ff_df recs = Ok stats ->
        exists events cars,
          mk_events.mk_event_df recs = Ok events
          /\ mapM (fun ser => mk_cars.calc_car ser (mk_rets.mk_ret_df fm prc ff_df) 2) events
             = Ok cars
          /\ stats = test_hypo.calc_tstats
                       (map (fun p => {| test_hypo.cr_event_type := event_type (fst p);
                                         test_hypo.car := snd p |})
                            (combine events cars))).
Proof.
  split; [| split; [| split; [| split; [| split]]]].
  - intros r Hr.
    set (k := test_hypo.cr_event_type r).
    set (g := test_hypo.group_cars k event_cars).
    assert (Hk : In k (test_hypo.group_keys event_cars)).
    { apply tstat_keys_In. now apply in_map. }
    assert (Hin : In {| test_hypo.t_event_type := k;
                        test_hypo.car_bar := test_hypo.mean g;
                        test_hypo.car_t := fdiv (test_hypo.mean g) (test_hypo.sem g);
                        test_hypo.n_obs := test_hypo.count g |}
                     (test_hypo.calc_tstats event_cars)).
    { apply calc_tstats_In. split; [exact Hk | reflexivity]. }
    eexists. split; [exact Hin |]. split; [reflexivity |]. split.
    + intros row' Hrow' Hk'. apply calc_tstats_In in Hrow'.
      destruct Hrow' as [_ Hrow']. rewrite Hrow', Hk'. reflexivity.
    + exact (calc_tstats_row event_cars _ Hin).
  - intros row Hrow. apply calc_tstats_In in Hrow. destruct Hrow as [Hk _].
    apply tstat_keys_In, in_map_iff in Hk. destruct Hk as [r [Hk Hr]].
    now exists r.
  - intros k x. apply observed_In.
  - intros k. apply group_cars_dropna.
  - apply calc_tstats_dropna.
  - apply main_unfiltered.
Qed.

Lemma calc_tstats_skips_missing_witness :
  exists row,
    In row (test_hypo.calc_tstats test_hypo.sample_cars_missing)
    /\ test_hypo.t_event_type row = "upgrade"
    /\ test_hypo.car_bar row = spec_mean [f0_01; f0_03]
    /\ test_hypo.car_t row = spec_t_stat [f0_01; f0_03]
    /\ test_hypo.n_obs row = 2.
Proof.
  destruct (proj1 (calc_tstats_skips_missing test_hypo.sample_cars_missing)
              {| test_hypo.cr_event_type := "upgrade"; test_hypo.car := nan |}
              ltac:(right; left; reflexivity))
    as [row [Hin [Hk [_ [Hbar [Ht Hn]]]]]].
  exists row. split; [exact Hin |]. split; [exact Hk |].
  split; [exact Hbar |]. split; [exact Ht | exact Hn].
Defined.

(** ** Worked examples *)

(** A negative window leaves [pd.concat] with nothing to concatenate. *)
Lemma expand_dates_negative_window (ser : Event) (w : Z) :
  w < 0 ->
  mk_cars.expand_dates ser w = Raise (ValueError "No objects to concatenate").
Proof.
  intros Hw. unfold mk_cars.expand_dates.
  replace (Z.to_nat (2 * w + 1)) with 0%nat by lia. reflexivity.
Qed.

(** An action that contains "up" and is not "up" stops [mk_event_df]. *)
Example mk_event_df_upgrade :
  mk_events.mk_event_df mk_events.sample_upgrade = Raise (UnknownAction "upgrade").
Proof. reflexivity. Qed.

(** A single upgrade has no t-statistic. *)
Example calc_tstats_singleton :
  In {| test_hypo.t_event_type := "upgrade";
        test_hypo.car_bar := f0_01;
        test_hypo.car_t := nan;
        test_hypo.n_obs := 1 |}
     (test_hypo.calc_tstats test_hypo.sample_cars).
Proof. vm_compute. right. left. reflexivity. Qed.

(** Three upgrades with the same CAR of 0.1: the running variance stays
    at 0.0, so the standard error is 0.0 and the t-statistic is plus
    infinity. *)
Example calc_tstats_equal_cars :
  test_hypo.sem (test_hypo.group_cars "upgrade" test_hypo.sample_cars_equal) = fzero
  /\ map test_hypo.car_t (test_hypo.calc_tstats test_hypo.sample_cars_equal)
     = [S754_infinity false]
  /\ map test_hypo.n_obs (test_hypo.calc_tstats test_hypo.sample_cars_equal) = [3].
Proof. repeat split; vm_compute; reflexivity. Qed.

(** Of three upgrades, one without data: the mean is 0.02, the
    t-statistic 2.0, and n_obs is 2. *)
Example calc_tstats_one_missing :
  test_hypo.calc_tstats test_hypo.sample_cars_missing
  = [ {| test_hypo.t_event_type := "upgrade";
         test_hypo.car_bar := f0_02;
         test_hypo.car_t := f2;
         test_hypo.n_obs := 2 |} ].
Proof. vm_compute. reflexivity. Qed.

(** The sample run: the returns table covers February 2012 and the
    events are of September 2020, so every CAR is missing and both groups
    have no observation. *)
Example main_sample :
  main.main mk_rets.pad mk_rets.sample_prices mk_rets.sample_factors
            mk_events.sample_recs
  = Ok [ {| test_hypo.t_event_type := "downgrade"; test_hypo.car_bar := nan;
            test_hypo.car_t := nan; test_hypo.n_obs := 0 |};
         {| test_hypo.t_event_type := "upgrade"; test_hypo.car_bar := nan;
            test_hypo.car_t := nan; test_hypo.n_obs := 0 |} ].
Proof. vm_compute. reflexivity. Qed.

(** ** Dates of the sample period *)

Lemma all_read_back_spec (n : nat) (z k : Z) :
  all_read_back n z = true -> z <= k < z + Z.of_nat n -> reads_back k = true.
Proof.
  revert z. induction n as [| n IH]; intros z Hall Hk; [lia |].
  cbn [all_read_back] in Hall. destruct (reads_back z) eqn:Hz; [| discriminate].
  destruct (Z.eq_dec k z) as [-> | Hne]; [assumption |].
  apply (IH (z + 1)); [assumption | lia].
Qed.

Lemma sample_period_bounds :
  to_datetime config.START = Ok (-25567) /\ to_datetime config.END = Ok 18627.
Proof. split; reflexivity. Qed.

(** Every date of the sample period is read back by [pd.to_datetime]
    from the string [strftime] writes for it. *)
(** The 44195 days from 1900-01-01 to 2020-12-31, one by one. *)
Lemma sample_period_read_back : all_read_back (Z.to_nat 44195) (-25567) = true.
Proof. vm_cast_no_check (eq_refl true). Qed.

Lemma to_datetime_strftime (z : Z) :
  config.in_sample_period z -> to_datetime (strftime_ymd z) = Ok z.
Proof.
  intros Hz.
  assert (Hrb : reads_back z = true).
  { apply (all_read_back_spec _ _ z sample_period_read_back).
    unfold config.in_sample_period in Hz. lia. }
  unfold reads_back in Hrb.
  destruct (to_datetime (strftime_ymd z)) as [d |]; [| discriminate].
  apply Z.eqb_eq in Hrb. now subst.
Qed.

(** ** Labels and paths of [config.py] *)

Section ConfigFacts.

Import config.

Lemma str_map_map (f g : ascii -> ascii) (s : string) :
  str_map f (str_map g s) = str_map (fun c => f (g c)) s.
Proof. induction s as [| c s IH]; simpl; [reflexivity | now rewrite IH]. Qed.

Lemma str_map_ext (f g : ascii -> ascii) (s : string) :
  (forall c, f c = g c) -> str_map f s = str_map g s.
Proof.
  intros H. induction s as [| c s IH]; simpl; [reflexivity | now rewrite H, IH].
Qed.

Lemma str_map_append (f : ascii -> ascii) (s t : string) :
  str_map f (s ++ t)%string = (str_map f s ++ str_map f t)%string.
Proof. induction s as [| c s IH]; simpl; [reflexivity | now rewrite IH]. Qed.

Ltac by_cases_on_ascii c :=
  destruct c as [[] [] [] [] [] [] [] []]; reflexivity.

Lemma lower_ascii_idem (c : ascii) : lower_ascii (lower_ascii c) = lower_ascii c.
Proof. by_cases_on_ascii c. Qed.

Lemma lower_upper_ascii (c : ascii) : lower_ascii (upper_ascii c) = lower_ascii c.
Proof. by_cases_on_ascii c. Qed.

Lemma upper_ascii_idem (c : ascii) : upper_ascii (upper_ascii c) = upper_ascii c.
Proof. by_cases_on_ascii c. Qed.

Lemma normalized_char_idem (c : ascii) :
  (fun c => if Ascii.eqb (lower_ascii c) " "%char then "_"%char else lower_ascii c)
    ((fun c => if Ascii.eqb (lower_ascii c) " "%char then "_"%char else lower_ascii c) c)
  = (fun c => if Ascii.eqb (lower_ascii c) " "%char then "_"%char else lower_ascii c) c.
Proof. by_cases_on_ascii c. Qed.

Lemma normalized_as_map (s : string) :
  normalized s
  = str_map (fun c => if Ascii.eqb (lower_ascii c) " "%char then "_"%char
                      else lower_ascii c) s.
Proof. unfold normalized, replace_space, lower. now rewrite str_map_map. Qed.

Lemma normalized_idem (s : string) : normalized (normalized s) = normalized s.
Proof.
  rewrite !normalized_as_map, str_map_map.
  apply str_map_ext, normalized_char_idem.
Qed.

Lemma normalized_underscore (s : string) :
  normalized ("_" ++ s)%string = ("_" ++ normalized s)%string.
Proof. reflexivity. Qed.

(** Whatever the labels of the table, [_parse_name] returns a label in
    normalized form. *)
Lemma parse_name_is_normalized (cols : list string) (colname : string) :
  normalized (_parse_name cols colname) = _parse_name cols colname.
Proof.
  unfold _parse_name. fold (normalized colname).
  destruct (String.eqb_spec (normalized colname) colname) as [Heq | Hne].
  - now rewrite Heq at 1.
  - destruct (mem (normalized colname) cols).
    + now rewrite normalized_underscore, normalized_idem.
    + apply normalized_idem.
Qed.

Lemma lower_upper (s : string) : lower (upper s) = lower s.
Proof. unfold lower, upper. rewrite str_map_map. apply str_map_ext, lower_upper_ascii. Qed.

Lemma lower_idem (s : string) : lower (lower s) = lower s.
Proof. unfold lower. rewrite str_map_map. apply str_map_ext, lower_ascii_idem. Qed.

Lemma upper_idem (s : string) : upper (upper s) = upper s.
Proof. unfold upper. rewrite str_map_map. apply str_map_ext, upper_ascii_idem. Qed.

Lemma dot_to_underscore_lower (s : string) :
  lower (replace_char "."%char "_"%char s) = replace_char "."%char "_"%char (lower s).
Proof.
  unfold lower, replace_char. rewrite !str_map_map. apply str_map_ext.
  intros c. by_cases_on_ascii c.
Qed.

Lemma dot_to_underscore_idem (s : string) :
  replace_char "."%char "_"%char (replace_char "."%char "_"%char s)
  = replace_char "."%char "_"%char s.
Proof.
  unfold replace_char. rewrite str_map_map. apply str_map_ext.
  intros c. by_cases_on_ascii c.
Qed.

Lemma prefix_append (a b : string) : prefix a (a ++ b)%string = true.
Proof.
  induction a as [| c a IH].
  - now destruct b.
  - change (String c a ++ b)%string with (String c (a ++ b)%string).
    cbn [prefix]. destruct (ascii_dec c c) as [_ | Hne]; [assumption | contradiction].
Qed.

Lemma append_inj_l (a s t : string) : (a ++ s)%string = (a ++ t)%string -> s = t.
Proof.
  induction a as [| c a IH]; simpl; intros H; [assumption |].
  injection H as H. now apply IH.
Qed.

Lemma append_assoc (a b c : string) :
  ((a ++ b) ++ c)%string = (a ++ (b ++ c))%string.
Proof. induction a as [| x a IH]; simpl; [reflexivity | now rewrite IH]. Qed.

Lemma prefix_slash_append (a b : string) :
  a <> "" -> prefix "/" (a ++ b)%string = prefix "/" a.
Proof.
  destruct a as [| c a]; [contradiction |]. intros _.
  change (String c a ++ b)%string with (String c (a ++ b)%string).
  cbn [prefix]. destruct (ascii_dec "/"%char c); [| reflexivity].
  now destruct a, b.
Qed.

End ConfigFacts.

(** X1.  [standardise_colnames] returns labels in normalized form
    (lower case, no space), whatever the labels it is given, and applying
    it to its own result changes nothing. *)
Theorem standardise_colnames_idempotent {V : Type} (df : config.frame V) :
  (forall c, In c (config.columns (config.standardise_colnames df)) ->
             config.normalized c = c)
  /\ config.standardise_colnames (config.standardise_colnames df)
     = config.standardise_colnames df.
Proof.
  assert (Hnorm : forall c, In c (config.columns (config.standardise_colnames df)) ->
                            config.normalized c = c).
  { intros c Hc. rewrite standardise_colnames_columns in Hc.
    apply in_map_iff in Hc. destruct Hc as [c0 [<- _]].
    apply parse_name_is_normalized. }
  split; [exact Hnorm |].
  remember (config.standardise_colnames df) as out eqn:Hout. clear Hout.
  unfold config.standardise_colnames.
  transitivity (map (fun c : string * list V => c) out); [| apply map_id].
  apply map_ext_in. intros [c v] Hin. simpl. f_equal.
  apply parse_name_normalized. apply Hnorm.
  unfold config.columns. apply in_map_iff. exists (c, v). now split.
Qed.

Section PathFacts.

Import config.

Variable DATADIR : string.

Lemma path_join_inj (name1 name2 : string) :
  prefix "/" name1 = prefix "/" name2 ->
  path_join DATADIR name1 = path_join DATADIR name2 -> name1 = name2.
Proof.
  unfold path_join. intros Hp. rewrite Hp.
  destruct (prefix "/" name2); [auto |].
  destruct (String.eqb DATADIR "" || ends_with_sep DATADIR)%bool; intros H.
  - now apply append_inj_l in H.
  - apply append_inj_l in H. now apply (append_inj_l "/") in H.
Qed.

Lemma path_join_relative (name : string) :
  prefix "/" name = false -> prefix DATADIR (path_join DATADIR name) = true.
Proof.
  unfold path_join. intros ->.
  destruct (String.eqb DATADIR "" || ends_with_sep DATADIR)%bool; apply prefix_append.
Qed.

Lemma file_name_prefix (tic rest : string) :
  prefix "/" (replace_char "."%char "_"%char (lower tic) ++ String "_" rest)%string
  = prefix "/" tic.
Proof.
  destruct tic as [| c tic]; [reflexivity |].
  change (prefix "/" (String ((fun c => if Ascii.eqb c "."%char then "_"%char else c)
                                (lower_ascii c))
                             (replace_char "."%char "_"%char (lower tic) ++ String "_" rest))
          = prefix "/" (String c tic)).
  cbn [prefix].
  assert (Hc : (if ascii_dec "/"%char
                     ((fun c => if Ascii.eqb c "."%char then "_"%char else c) (lower_ascii c))
                then true else false)
               = (if ascii_dec "/"%char c then true else false)).
  { destruct c as [[] [] [] [] [] [] [] []]; reflexivity. }
  destruct (ascii_dec "/"%char _), (ascii_dec "/"%char c); try discriminate.
  - now destruct tic; destruct (replace_char _ _ _ ++ _)%string.
  - reflexivity.
Qed.

End PathFacts.

(** X2.  The files [csv_locs] names depend on the ticker through
    [tic.lower().replace('.', '_')] only: the case of the ticker does not
    matter, and a '.' and a '_' in it give the same files.  The file of
    the recommendations and the file of the prices are never the same. *)
Theorem csv_locs_ticker (DATADIR tic : string) :
  config.csv_locs DATADIR (upper tic) = config.csv_locs DATADIR tic
  /\ config.csv_locs DATADIR (lower tic) = config.csv_locs DATADIR tic
  /\ config.csv_locs DATADIR (config.replace_char "."%char "_"%char tic)
     = config.csv_locs DATADIR tic
  /\ config.rec_csv (config.csv_locs DATADIR tic)
     <> config.prc_csv (config.csv_locs DATADIR tic).
Proof.
  unfold config.csv_locs. split; [| split; [| split]].
  - now rewrite lower_upper.
  - now rewrite lower_idem.
  - now rewrite dot_to_underscore_lower, dot_to_underscore_idem.
  - simpl. intros H. apply path_join_inj in H.
    + apply append_inj_l in H. discriminate.
    + now rewrite (file_name_prefix tic "rec.csv"), (file_name_prefix tic "prc.csv").
Qed.

(** X3.  For a ticker that does not start with '/', both files lie under
    [DATADIR]: their paths start with it.  For a ticker that starts with
    '/', [os.path.join] drops [DATADIR]: the paths are the file names
    themselves, which start with '/', the same whatever [DATADIR] is. *)
Theorem csv_locs_under_datadir (DATADIR tic : string) :
  (prefix "/" tic = false ->
   prefix DATADIR (config.rec_csv (config.csv_locs DATADIR tic)) = true
   /\ prefix DATADIR (config.prc_csv (config.csv_locs DATADIR tic)) = true)
  /\ (prefix "/" tic = true ->
      config.rec_csv (config.csv_locs DATADIR tic)
      = (config.replace_char "."%char "_"%char (lower tic) ++ "_rec.csv")%string
      /\ config.prc_csv (config.csv_locs DATADIR tic)
         = (config.replace_char "."%char "_"%char (lower tic) ++ "_prc.csv")%string
      /\ prefix "/" (config.rec_csv (config.csv_locs DATADIR tic)) = true
      /\ prefix "/" (config.prc_csv (config.csv_locs DATADIR tic)) = true
      /\ forall dir, config.csv_locs dir tic = config.csv_locs DATADIR tic).
Proof.
  split; intros Htic.
  - unfold config.csv_locs. simpl.
    split; apply path_join_relative.
    + now rewrite (file_name_prefix tic "rec.csv").
    + now rewrite (file_name_prefix tic "prc.csv").
  - assert (Hrec : forall dir,
               config.path_join dir
                 (config.replace_char "."%char "_"%char (lower tic) ++ "_rec.csv")%string
               = (config.replace_char "."%char "_"%char (lower tic) ++ "_rec.csv")%string).
    { intros dir. unfold config.path_join.
      now rewrite (file_name_prefix tic "rec.csv"), Htic. }
    assert (Hprc : forall dir,
               config.path_join dir
                 (config.replace_char "."%char "_"%char (lower tic) ++ "_prc.csv")%string
               = (config.replace_char "."%char "_"%char (lower tic) ++ "_prc.csv")%string).
    { intros dir. unfold config.path_join.
      now rewrite (file_name_prefix tic "prc.csv"), Htic. }
    unfold config.csv_locs. cbn [config.rec_csv config.prc_csv].
    rewrite (Hrec DATADIR), (Hprc DATADIR).
    split; [reflexivity |]. split; [reflexivity |].
    split; [now rewrite (file_name_prefix tic "rec.csv") |].
    split; [now rewrite (file_name_prefix tic "prc.csv") |].
    intros dir. now rewrite (Hrec dir), (Hprc dir).
Qed.

Lemma csv_locs_under_datadir_witness :
  (prefix "data" (config.rec_csv (config.csv_locs "data" "QAN.AX")) = true
   /\ prefix "data" (config.prc_csv (config.csv_locs "data" "QAN.AX")) = true)
  /\ config.rec_csv (config.csv_locs "data" "/TMP/X.Y") = "/tmp/x_y_rec.csv"
  /\ config.csv_locs "elsewhere" "/TMP/X.Y" = config.csv_locs "data" "/TMP/X.Y".
Proof.
  split; [| split].
  - apply (proj1 (csv_locs_under_datadir "data" "QAN.AX")). reflexivity.
  - exact (proj1 (proj2 (csv_locs_under_datadir "data" "/TMP/X.Y") eq_refl)).
  - apply (proj2 (csv_locs_under_datadir "data" "/TMP/X.Y") eq_refl).
Defined.

(** A ticker that starts with '/' names files outside [DATADIR]. *)
Example csv_locs_absolute :
  config.csv_locs "data" "/TMP/X.Y"
  = {| config.rec_csv := "/tmp/x_y_rec.csv"; config.prc_csv := "/tmp/x_y_prc.csv" |}
  /\ config.csv_locs "data" "QAN.AX"
     = {| config.rec_csv := "data/qan_ax_rec.csv"; config.prc_csv := "data/qan_ax_prc.csv" |}.
Proof. split; reflexivity. Qed.

(** ** More on the CAR engine *)

Section CalcCarFacts.

Import mk_cars.

Lemma mapM_repeat_raise {A B : Type} (f : A -> result B) (x : A) (e : exn) (n : nat) :
  f x = Raise e -> mapM f (repeat x (S n)) = Raise e.
Proof. intros Hf. simpl. now rewrite Hf. Qed.

Lemma expand_dates_bad_date (ser : Event) (w : Z) (e : exn) :
  0 <= w -> to_datetime (event_date ser) = Raise e -> expand_dates ser w = Raise e.
Proof.
  intros Hw Hd. unfold expand_dates.
  destruct (Z.to_nat (2 * w + 1)) as [| n] eqn:En; [lia |].
  change (concat_rows (repeat ser (S n))) with (Ok (repeat ser (S n))).
  cbn [bind]. rewrite map_repeat.
  now rewrite (mapM_repeat_raise to_datetime _ e n Hd).
Qed.

Lemma filter_filter_implied {A : Type} (p q : A -> bool) (l : list A) :
  (forall x, q x = true -> p x = true) -> filter q (filter p l) = filter q l.
Proof.
  intros Hpq. induction l as [| x l IH]; simpl; [reflexivity |].
  destruct (p x) eqn:Hp; simpl.
  - now rewrite IH.
  - destruct (q x) eqn:Hq; [| assumption].
    apply Hpq in Hq. congruence.
Qed.

Lemma spec_matched_slice (d w first last : Z) (ret_df : list RetRow) :
  first <= d - w -> d + w <= last ->
  spec_matched d w (loc_slice first last ret_df) = spec_matched d w ret_df.
Proof.
  intros Hf Hl. unfold spec_matched, loc_slice.
  assert (Hks : forall k, In k (range (- w) (w + 1)) -> - w <= k <= w)
    by (intros k Hk; apply range_In in Hk; lia).
  induction (range (- w) (w + 1)) as [| k ks IH]; simpl; [reflexivity |].
  rewrite IH by (intros k' Hk'; apply Hks; now right). f_equal.
  apply filter_filter_implied. intros r Hr. apply Z.eqb_eq in Hr.
  pose proof (Hks k (or_introl eq_refl)).
  apply andb_true_iff. split; apply Z.leb_le; lia.
Qed.

Lemma filter_none {A : Type} (p : A -> bool) (l : list A) :
  (forall x, In x l -> p x = false) -> filter p l = [].
Proof.
  intros H. induction l as [| x l IH]; [reflexivity |]. simpl.
  rewrite (H x (or_introl eq_refl)). apply IH. intros y Hy. apply H. now right.
Qed.

(** On a table sorted by date the rows of the first date of a run come
    before the rows of its later dates. *)
Lemma first_date_first (ret_df : list RetRow) (a b : Z) :
  a < b ->
  StronglySorted (index_le date) ret_df ->
  filter (fun r => date r =? a) ret_df
  ++ filter (fun r => (a + 1 <=? date r) && (date r <? b))%bool ret_df
  = filter (fun r => (a <=? date r) && (date r <? b))%bool ret_df.
Proof.
  intros Hab Hs. induction Hs as [| r l Hs IH Hall]; [reflexivity |]. simpl.
  destruct (Z.eq_dec (date r) a) as [Hra | Hra].
  - replace (date r =? a) with true by lia.
    replace ((a + 1 <=? date r) && (date r <? b))%bool with false by lia.
    replace ((a <=? date r) && (date r <? b))%bool with true by lia.
    simpl. now rewrite IH.
  - replace (date r =? a) with false by lia.
    destruct ((a <=? date r) && (date r <? b))%bool eqn:Hin.
    + replace ((a + 1 <=? date r) && (date r <? b))%bool with true by lia.
      assert (Hnone : filter (fun r0 => date r0 =? a) l = []).
      { apply filter_none. intros x Hx. rewrite Forall_forall in Hall.
        specialize (Hall x Hx). unfold index_le in Hall. lia. }
      rewrite Hnone in IH |- *. simpl in *. now rewrite IH.
    + replace ((a + 1 <=? date r) && (date r <? b))%bool with false by lia.
      exact IH.
Qed.

(** On a table sorted by date, the rows of a run of consecutive dates,
    taken date by date, are the rows dated within the run, in the order
    of the table. *)
Lemma matched_sorted (ret_df : list RetRow) (a : Z) (n : nat) :
  StronglySorted (index_le date) ret_df ->
  flat_map (fun k => filter (fun r => date r =? k) ret_df)
           (map (fun i => a + Z.of_nat i) (seq 0 n))
  = filter (fun r => (a <=? date r) && (date r <? a + Z.of_nat n))%bool ret_df.
Proof.
  intros Hs. revert a. induction n as [| n IH]; intros a.
  - simpl. symmetry. apply filter_none. intros x _. lia.
  - cbn [seq map flat_map]. rewrite <- seq_shift, map_map.
    replace (map (fun i => a + Z.of_nat (S i)) (seq 0 n))
      with (map (fun i => (a + 1) + Z.of_nat i) (seq 0 n))
      by (apply map_ext; intros i; lia).
    rewrite (IH (a + 1)). replace (a + Z.of_nat 0) with a by lia.
    replace (a + 1 + Z.of_nat n) with (a + Z.of_nat (S n)) by lia.
    apply first_date_first; [lia | assumption].
Qed.

End CalcCarFacts.

(** X4.  With a negative window, [expand_dates] and [calc_car] raise the
    [ValueError] of [pd.concat], which has nothing to concatenate; this
    comes before the event date is read, so it holds whatever the event
    and the returns table are. *)
Theorem calc_car_errors (ser : Event) (ret_df : list RetRow) (w : Z) :
  w < 0 ->
  mk_cars.expand_dates ser w = Raise (ValueError "No objects to concatenate")
  /\ mk_cars.calc_car ser ret_df w = Raise (ValueError "No objects to concatenate").
Proof.
  intros Hw. unfold mk_cars.calc_car.
  rewrite (expand_dates_negative_window ser w Hw). split; reflexivity.
Qed.

Lemma calc_car_errors_witness :
  mk_cars.expand_dates mk_cars.wunderlich (-1)
  = Raise (ValueError "No objects to concatenate")
  /\ mk_cars.calc_car mk_cars.wunderlich mk_cars.one_day (-1)
     = Raise (ValueError "No objects to concatenate").
Proof. apply (calc_car_errors mk_cars.wunderlich mk_cars.one_day (-1)). lia. Defined.

(** X5.  The CAR of an event depends on its date only, and on the
    returns dated within the window only: on any slice of the returns
    table that contains the window, [calc_car] gives the same result for
    any event of the same date. *)
Theorem calc_car_slice (ser ser' : Event) (ret_df : list RetRow) (w d first last : Z) :
  0 <= w ->
  to_datetime (event_date ser) = Ok d ->
  event_date ser' = event_date ser ->
  first <= d - w -> d + w <= last ->
  mk_cars.calc_car ser' (mk_cars.loc_slice first last ret_df) w
  = mk_cars.calc_car ser ret_df w.
Proof.
  intros Hw Hd Hsame Hf Hl.
  rewrite (calc_car_eq ser ret_df w d Hw Hd).
  rewrite (calc_car_eq ser' _ w d Hw) by now rewrite Hsame.
  now rewrite spec_matched_slice.
Qed.

Lemma calc_car_slice_witness :
  mk_cars.calc_car mk_cars.wunderlich
    (mk_cars.loc_slice 15384 15388 (mk_cars.one_day ++ mk_cars.one_day_far)) 2
  = mk_cars.calc_car mk_cars.wunderlich (mk_cars.one_day ++ mk_cars.one_day_far) 2.
Proof.
  apply (calc_car_slice mk_cars.wunderlich mk_cars.wunderlich _ 2 15386);
    [lia | reflexivity | reflexivity | lia | lia].
Defined.

Lemma flat_map_map {A B C : Type} (f : B -> list C) (g : A -> B) (l : list A) :
  flat_map f (map g l) = flat_map (fun x => f (g x)) l.
Proof. induction l as [| x l IH]; simpl; [reflexivity | now rewrite IH]. Qed.

Lemma spec_matched_sorted (d w : Z) (ret_df : list RetRow) :
  0 <= w ->
  StronglySorted (index_le date) ret_df ->
  spec_matched d w ret_df = mk_cars.loc_slice (d - w) (d + w) ret_df.
Proof.
  intros Hw Hs. unfold spec_matched, range, mk_cars.loc_slice.
  rewrite flat_map_map.
  transitivity (flat_map (fun k => filter (fun r => date r =? k) ret_df)
                         (map (fun i => (d - w) + Z.of_nat i)
                              (seq 0 (Z.to_nat (w + 1 - - w))))).
  - rewrite flat_map_map. apply flat_map_ext. intros i.
    apply filter_ext. intros r. now rewrite Z.add_assoc.
  - rewrite matched_sorted by assumption.
    apply filter_ext. intros r. f_equal.
    rewrite Z2Nat.id by lia.
    destruct (Z.ltb_spec (date r) (d - w + (w + 1 - - w))),
             (Z.leb_spec (date r) (d + w)); try reflexivity; exfalso; lia.
Qed.

(** X6.  On a returns table sorted by date the rows [calc_car] sums are
    the rows dated from [d - w] to [d + w], in the order of the table. *)
Theorem calc_car_sorted (ser : Event) (ret_df : list RetRow) (w d : Z) :
  0 <= w ->
  to_datetime (event_date ser) = Ok d ->
  StronglySorted (index_le date) ret_df ->
  mk_cars.calc_car ser ret_df w
  = Ok (match mk_cars.loc_slice (d - w) (d + w) ret_df with
        | [] => nan
        | m => mk_cars.nansum (map spec_abnormal_return m)
        end).
Proof.
  intros Hw Hd Hs. rewrite (calc_car_eq ser ret_df w d Hw Hd).
  now rewrite spec_matched_sorted.
Qed.

Lemma calc_car_sorted_witness :
  mk_cars.calc_car mk_cars.wunderlich (mk_cars.one_day ++ mk_cars.one_day_far) 2
  = Ok (match mk_cars.loc_slice (15386 - 2) (15386 + 2)
                (mk_cars.one_day ++ mk_cars.one_day_far) with
        | [] => nan
        | m => mk_cars.nansum (map spec_abnormal_return m)
        end).
Proof.
  apply (calc_car_sorted mk_cars.wunderlich _ 2 15386); [lia | reflexivity |].
  repeat constructor. unfold index_le. simpl. lia.
Defined.

(** X7.  Running [mk_cars_df] again on the store it leaves gives the
    same table and the same store: the second run recomputes the column
    'car' it finds.  The column has one value per event. *)
Theorem mk_cars_df_twice (ret_df event_df res : mk_cars.ref) (h h' : mk_cars.store) :
  mk_cars.mk_cars_df ret_df event_df h = Ok (res, h') ->
  (exists ev cars,
      h' res = Some (mk_cars.EventsFrame ev)
      /\ mk_cars.ev_car ev = Some cars
      /\ List.length cars = List.length (mk_cars.ev_rows ev))
  /\ exists h'',
       mk_cars.mk_cars_df ret_df event_df h' = Ok (res, h'')
       /\ forall r, h'' r = h' r.
Proof.
  unfold mk_cars.mk_cars_df. intros H.
  destruct (h ret_df) as [[rets | ?] |] eqn:Hret; try discriminate.
  destruct (h event_df) as [[? | ev] |] eqn:Hev; try discriminate.
  destruct (mapM _ (mk_cars.ev_rows ev)) as [cars | e] eqn:Hcars; try discriminate.
  cbn [bind] in H. injection H as <- <-.
  assert (Hne : ret_df <> event_df).
  { intros ->. rewrite Hret in Hev. discriminate. }
  split.
  - eexists. exists cars. rewrite update_same. split; [reflexivity |].
    split; [reflexivity |]. simpl.
    apply mapM_Forall2 in Hcars. symmetry. eapply Forall2_length. eassumption.
  - rewrite update_other by assumption. rewrite Hret, update_same. simpl.
    rewrite Hcars. cbn [bind]. eexists. split; [reflexivity |].
    intros r. unfold mk_cars.update.
    destruct (Nat.eqb r event_df); reflexivity.
Qed.

Lemma mk_cars_df_twice_witness :
  exists h'',
    mk_cars.mk_cars_df 0%nat 1%nat mk_cars.sample_store_after = Ok (1%nat, h'')
    /\ forall r, h'' r = mk_cars.sample_store_after r.
Proof.
  exact (proj2 (mk_cars_df_twice 0%nat 1%nat 1%nat mk_cars.sample_store
                  mk_cars.sample_store_after eq_refl)).
Defined.

(** ** More on the returns *)

Lemma StronglySorted_app {X : Type} (R : X -> X -> Prop) (l1 l2 : list X) :
  StronglySorted R l1 -> StronglySorted R l2 ->
  (forall x y, In x l1 -> In y l2 -> R x y) ->
  StronglySorted R (l1 ++ l2).
Proof.
  intros H1 H2 H12. induction H1 as [| x l1 H1 IH Hall]; simpl; [assumption |].
  constructor.
  - apply IH. intros a b Ha Hb. apply H12; [now right | assumption].
  - apply Forall_app. split; [assumption |].
    apply Forall_forall. intros y Hy. apply H12; [now left | assumption].
Qed.

Section SortedFacts.

Context {A B : Type}.

Lemma flat_map_StronglySorted (RA : A -> A -> Prop) (RB : B -> B -> Prop)
      (f : A -> list B) (l : list A) :
  StronglySorted RA l ->
  (forall a, In a l -> StronglySorted RB (f a)) ->
  (forall a a' b b', RA a a' -> In b (f a) -> In b' (f a') -> RB b b') ->
  StronglySorted RB (flat_map f l).
Proof.
  intros Hs Hblock Hcross. induction Hs as [| a l Hs IH Hall]; simpl; [constructor |].
  apply StronglySorted_app.
  - apply Hblock. now left.
  - apply IH. intros a' Ha'. apply Hblock. now right.
  - intros x y Hx Hy. apply in_flat_map in Hy. destruct Hy as [a' [Ha' Hy]].
    rewrite Forall_forall in Hall. eapply Hcross; eauto.
Qed.

Lemma constant_index_sorted (index : B -> Z) (c : Z) (l : list B) :
  (forall b, In b l -> index b = c) -> StronglySorted (index_le index) l.
Proof.
  intros H. induction l as [| b l IH]; constructor.
  - apply IH. intros b' Hb'. apply H. now right.
  - apply Forall_forall. intros b' Hb'. unfold index_le.
    rewrite (H b (or_introl eq_refl)), (H b' (or_intror Hb')). lia.
Qed.

Lemma short_list_sorted (R : B -> B -> Prop) (l : list B) :
  (List.length l <= 1)%nat -> StronglySorted R l.
Proof.
  destruct l as [| b [| b' l]]; simpl; intros H.
  - constructor.
  - repeat constructor.
  - lia.
Qed.

Lemma sorted_NoDup_strict (index : A -> Z) (l : list A) :
  StronglySorted (index_le index) l -> NoDup (map index l) ->
  StronglySorted (index_lt index) l.
Proof.
  intros Hs. induction Hs as [| a l Hs IH Hall]; intros Hnd; [constructor |].
  simpl in Hnd. inversion Hnd as [| ? ? Hnotin Hnd']; subst.
  constructor; [now apply IH |].
  rewrite Forall_forall in *. intros x Hx. specialize (Hall x Hx).
  unfold index_le, index_lt in *.
  assert (index x <> index a).
  { intros Heq. apply Hnotin. rewrite <- Heq. now apply in_map. }
  lia.
Qed.

Lemma strict_NoDup (index : A -> Z) (l : list A) :
  StronglySorted (index_lt index) l -> NoDup (map index l).
Proof.
  induction 1 as [| a l Hs IH Hall]; simpl; constructor; [| assumption].
  intros Hin. apply in_map_iff in Hin. destruct Hin as [x [Hx Hin]].
  rewrite Forall_forall in Hall. specialize (Hall x Hin).
  unfold index_lt in Hall. lia.
Qed.

Lemma combine_sorted (R : A -> A -> Prop) (l : list A) (ys : list B) :
  StronglySorted R l ->
  StronglySorted (fun p q => R (fst p) (fst q)) (combine l ys).
Proof.
  intros Hs. revert ys. induction Hs as [| a l Hs IH Hall]; intros ys; simpl;
    [constructor |].
  destruct ys as [| y ys]; constructor; [apply IH |].
  apply Forall_forall. intros [x v] Hin. simpl.
  rewrite Forall_forall in Hall. apply Hall. eapply in_combine_l; eassumption.
Qed.

Lemma filter_unique (index : A -> Z) (k : Z) (l : list A) :
  NoDup (map index l) ->
  (List.length (filter (fun x => Z.eqb (index x) k) l) <= 1)%nat.
Proof.
  induction l as [| a l IH]; simpl; intros Hnd; [lia |].
  inversion Hnd as [| ? ? Hnotin Hnd']; subst.
  destruct (index a =? k) eqn:Hk; [| now apply IH].
  apply Z.eqb_eq in Hk. simpl.
  rewrite filter_none; [simpl; lia |].
  intros x Hx. apply Z.eqb_neq. intros Hxk. apply Hnotin.
  rewrite Hk, <- Hxk. now apply in_map.
Qed.

End SortedFacts.

Section ReturnsFacts.

Import mk_rets.

(** The rows of the table before [dropna]: a price row with its return
    and a factor row of the same date. *)
Lemma mk_ret_df_In (fm : fill_method) (prc : list PriceRow)
      (ff_df : list FactorRow) (r : RetRow) :
  In r (mk_ret_df fm prc ff_df) <->
  isna (mkt r) = false /\ isna (ret r) = false
  /\ exists p f,
       In (p, ret r) (combine (sort_index p_date prc)
                              (pct_change fm (map close (sort_index p_date prc))))
       /\ In f ff_df /\ f_date f = p_date p
       /\ date r = p_date p /\ mkt r = f_mkt f.
Proof.
  unfold mk_ret_df. rewrite filter_In, in_flat_map, andb_true_iff, !negb_true_iff.
  split.
  - intros [[[p v] [Hrow Hr]] [Hm Hv]].
    apply in_map_iff in Hr. destruct Hr as [f [<- Hf]].
    apply filter_In in Hf. destruct Hf as [Hf Hd]. apply Z.eqb_eq in Hd.
    simpl in *. repeat split; try assumption. exists p, f. repeat split; assumption.
  - intros [Hm [Hv [p [f [Hrow [Hf [Hd [Hdate Hmkt]]]]]]]].
    split; [| now split]. exists (p, ret r). split; [assumption |].
    apply in_map_iff. exists f. split.
    + destruct r as [d m v]. simpl in *. now subst.
    + apply filter_In. split; [assumption |]. simpl. now apply Z.eqb_eq.
Qed.

Lemma ffill_no_missing (prev : float) (xs : list float) :
  (forall x, In x xs -> isna x = false) -> ffill prev xs = xs.
Proof.
  revert prev. induction xs as [| x xs IH]; intros prev H; simpl; [reflexivity |].
  rewrite (H x (or_introl eq_refl)). f_equal. apply IH.
  intros y Hy. apply H. now right.
Qed.

(** The return beside each price row: the row's close over the close of
    the row before, or over [c] for the first row. *)
Lemma returns_beside (l : list PriceRow) (c : float) (q : PriceRow) (v : float) :
  In (q, v) (combine l (map (fun p => fsub (fdiv (fst p) (snd p)) fone)
                            (combine (map close l) (c :: map close l)))) ->
  (hd_error l = Some q /\ v = spec_return (close q) c)
  \/ exists i prev,
       nth_error l i = Some prev /\ nth_error l (S i) = Some q
       /\ v = spec_return (close q) (close prev).
Proof.
  revert c. induction l as [| p l IH]; intros c; simpl; [contradiction |].
  intros [Heq | Hin].
  - injection Heq as <- <-. left. split; reflexivity.
  - right. apply IH in Hin. destruct Hin as [[Hhd Hv] | [i [prev [Hi [HSi Hv]]]]].
    + exists 0%nat, p. simpl. repeat split; assumption.
    + exists (S i), prev. simpl. repeat split; assumption.
Qed.

Lemma mk_ret_df_date_sorted (fm : fill_method) (prc : list PriceRow)
      (ff_df : list FactorRow) :
  StronglySorted (index_le date) (mk_ret_df fm prc ff_df).
Proof.
  unfold mk_ret_df. apply StronglySorted_filter.
  apply (flat_map_StronglySorted
           (fun p q : PriceRow * float => p_date (fst p) <= p_date (fst q))).
  - apply (combine_sorted (index_le p_date)). apply sort_index_sorted.
  - intros row _. apply (constant_index_sorted date (p_date (fst row))).
    intros b Hb. apply in_map_iff in Hb. destruct Hb as [f [<- _]]. reflexivity.
  - intros a a' b b' Haa Hb Hb'.
    apply in_map_iff in Hb, Hb'. destruct Hb as [f [<- _]], Hb' as [f' [<- _]].
    exact Haa.
Qed.

Lemma mk_ret_df_date_strict (fm : fill_method) (prc : list PriceRow)
      (ff_df : list FactorRow) :
  NoDup (map p_date prc) -> NoDup (map f_date ff_df) ->
  StronglySorted (index_lt date) (mk_ret_df fm prc ff_df).
Proof.
  intros Hp Hf. unfold mk_ret_df. apply StronglySorted_filter.
  apply (flat_map_StronglySorted
           (fun p q : PriceRow * float => p_date (fst p) < p_date (fst q))).
  - apply (combine_sorted (index_lt p_date)).
    apply sorted_NoDup_strict; [apply sort_index_sorted |].
    eapply Permutation_NoDup; [| exact Hp].
    apply Permutation_map, Permutation_sym, sort_by_perm.
  - intros row _. apply short_list_sorted. rewrite length_map.
    now apply (filter_unique f_date).
  - intros a a' b b' Haa Hb Hb'.
    apply in_map_iff in Hb, Hb'. destruct Hb as [f [<- _]], Hb' as [f' [<- _]].
    exact Haa.
Qed.

End ReturnsFacts.

(** X8.  The table [mk_ret_df] returns is in ascending order of date.
    When no two price rows and no two factor rows share a date, the
    order is strict: every date occurs once. *)
Theorem mk_ret_df_sorted (fm : mk_rets.fill_method) (prc : list mk_rets.PriceRow)
        (ff_df : list mk_rets.FactorRow) :
  StronglySorted (index_le date) (mk_rets.mk_ret_df fm prc ff_df)
  /\ (NoDup (map mk_rets.p_date prc) -> NoDup (map mk_rets.f_date ff_df) ->
      StronglySorted (index_lt date) (mk_rets.mk_ret_df fm prc ff_df)
      /\ NoDup (map date (mk_rets.mk_ret_df fm prc ff_df))).
Proof.
  split; [apply mk_ret_df_date_sorted |].
  intros Hp Hf.
  assert (Hs := mk_ret_df_date_strict fm prc ff_df Hp Hf).
  split; [assumption | now apply strict_NoDup].
Qed.

Lemma mk_ret_df_sorted_witness :
  NoDup (map date (mk_rets.mk_ret_df mk_rets.pad mk_rets.sample_prices
                     mk_rets.sample_factors)).
Proof.
  refine (proj2 (proj2 (mk_ret_df_sorted mk_rets.pad mk_rets.sample_prices
                          mk_rets.sample_factors) _ _));
    repeat constructor; simpl; intuition discriminate.
Defined.

(** X9.  [mk_ret_df] returns the empty table, and raises nothing, when
    the price table and the factor table have no date in common, and
    when the price table has fewer than two rows. *)
Theorem mk_ret_df_empty (fm : mk_rets.fill_method) (prc : list mk_rets.PriceRow)
        (ff_df : list mk_rets.FactorRow) :
  ((forall p f, In p prc -> In f ff_df -> mk_rets.p_date p <> mk_rets.f_date f) ->
   mk_rets.mk_ret_df fm prc ff_df = [])
  /\ ((List.length prc <= 1)%nat -> mk_rets.mk_ret_df fm prc ff_df = []).
Proof.
  split.
  - intros Hno. destruct (mk_rets.mk_ret_df fm prc ff_df) as [| r out] eqn:Eo;
      [reflexivity | exfalso].
    assert (Hr : In r (mk_rets.mk_ret_df fm prc ff_df)) by (rewrite Eo; now left).
    apply mk_ret_df_origin in Hr.
    destruct Hr as [_ [_ [[f [Hf [Hfd _]]] [p0 [ps [cur [Es [Hcur Hd]]]]]]]].
    apply (Hno cur f); [| assumption | congruence].
    apply (sort_index_In mk_rets.p_date). rewrite Es. now right.
  - intros Hlen. destruct (mk_rets.mk_ret_df fm prc ff_df) as [| r out] eqn:Eo;
      [reflexivity | exfalso].
    assert (Hr : In r (mk_rets.mk_ret_df fm prc ff_df)) by (rewrite Eo; now left).
    apply mk_ret_df_origin in Hr.
    destruct Hr as [_ [_ [_ [p0 [ps [cur [Es [Hcur _]]]]]]]].
    assert (Hl : List.length (sort_index mk_rets.p_date prc) = List.length prc).
    { apply Permutation_length, sort_by_perm. }
    rewrite Es in Hl. simpl in Hl. destruct ps; [contradiction | simpl in Hl; lia].
Qed.

(** X10.  When no close is missing, or with [fill_method=None], the
    stock return of every output row is the close of its price row over
    the close of the row before it in date order, minus one; its market
    return is that of a factor row of the same date. *)
Theorem mk_ret_df_returns (fm : mk_rets.fill_method) (prc : list mk_rets.PriceRow)
        (ff_df : list mk_rets.FactorRow) :
  fm = mk_rets.no_fill \/ (forall p, In p prc -> isna (mk_rets.close p) = false) ->
  forall r, In r (mk_rets.mk_ret_df fm prc ff_df) ->
    (exists i prev cur,
        nth_error (sort_index mk_rets.p_date prc) i = Some prev
        /\ nth_error (sort_index mk_rets.p_date prc) (S i) = Some cur
        /\ date r = mk_rets.p_date cur
        /\ ret r = spec_return (mk_rets.close cur) (mk_rets.close prev))
    /\ exists f, In f ff_df /\ mk_rets.f_date f = date r /\ mkt r = mk_rets.f_mkt f.
Proof.
  intros Hfm r Hr. apply mk_ret_df_In in Hr.
  destruct Hr as [_ [Hv [p [f [Hrow [Hf [Hfd [Hd Hm]]]]]]]].
  split; [| exists f; repeat split; congruence].
  assert (Hpc : mk_rets.pct_change fm (map mk_rets.close (sort_index mk_rets.p_date prc))
                = mk_rets.pct_change mk_rets.no_fill
                    (map mk_rets.close (sort_index mk_rets.p_date prc))).
  { destruct Hfm as [-> | Hclose]; [reflexivity |].
    destruct fm; [| reflexivity]. unfold mk_rets.pct_change.
    rewrite ffill_no_missing; [reflexivity |].
    intros x Hx. apply in_map_iff in Hx. destruct Hx as [q [<- Hq]].
    apply Hclose. exact (proj1 (sort_index_In mk_rets.p_date prc q) Hq). }
  rewrite Hpc in Hrow. unfold mk_rets.pct_change in Hrow.
  apply returns_beside in Hrow.
  destruct Hrow as [[_ Hnan] | [i [prev [Hi [HSi Hval]]]]].
  - exfalso. rewrite Hnan in Hv. unfold spec_return in Hv.
    rewrite fdiv_nan_r in Hv. discriminate.
  - exists i, prev, p. repeat split; assumption.
Qed.

Lemma mk_ret_df_returns_witness :
  exists i prev cur,
    nth_error (sort_index mk_rets.p_date mk_rets.sample_prices) i = Some prev
    /\ nth_error (sort_index mk_rets.p_date mk_rets.sample_prices) (S i) = Some cur
    /\ 15386 = mk_rets.p_date cur
    /\ fsub (fdiv f110 f100) fone
       = spec_return (mk_rets.close cur) (mk_rets.close prev).
Proof.
  refine (proj1 (mk_ret_df_returns mk_rets.no_fill mk_rets.sample_prices
                   mk_rets.sample_factors (or_introl eq_refl)
                   {| date := 15386; mkt := f0_01; ret := fsub (fdiv f110 f100) fone |}
                   _)).
  vm_compute. left. reflexivity.
Defined.

(** ** The order of the input rows *)

Section RowOrder.

Context {A : Type}.
Variable index : A -> Z.

Lemma strict_sorted_unique (l1 l2 : list A) :
  StronglySorted (index_lt index) l1 -> StronglySorted (index_lt index) l2 ->
  Permutation l1 l2 -> l1 = l2.
Proof.
  intros H1. revert l2. induction H1 as [| a l1 H1 IH Hall1]; intros l2 H2 Hp.
  - apply Permutation_nil in Hp. now subst.
  - destruct l2 as [| b l2]; [apply Permutation_sym, Permutation_nil in Hp; discriminate |].
    inversion H2 as [| ? ? H2' Hall2]; subst.
    rewrite Forall_forall in Hall1, Hall2. unfold index_lt in Hall1, Hall2.
    assert (Hab : a = b).
    { assert (Ha : In a (b :: l2)) by (eapply Permutation_in; [exact Hp | now left]).
      assert (Hb : In b (a :: l1))
        by (eapply Permutation_in; [apply Permutation_sym; exact Hp | now left]).
      destruct Ha as [-> | Ha]; [reflexivity |].
      destruct Hb as [-> | Hb]; [reflexivity |].
      specialize (Hall1 b Hb). specialize (Hall2 a Ha). lia. }
    subst b. f_equal. apply IH; [assumption |].
    eapply Permutation_cons_inv. exact Hp.
Qed.

Lemma sort_index_strict (l : list A) :
  NoDup (map index l) -> StronglySorted (index_lt index) (sort_index index l).
Proof.
  intros Hnd. apply sorted_NoDup_strict; [apply sort_index_sorted |].
  eapply Permutation_NoDup; [| exact Hnd].
  apply Permutation_map, Permutation_sym, sort_by_perm.
Qed.

(** Rows with distinct indexes are sorted the same way whatever their
    order. *)
Lemma sort_index_perm (l l' : list A) :
  NoDup (map index l) -> Permutation l l' ->
  sort_index index l' = sort_index index l.
Proof.
  intros Hnd Hp. apply strict_sorted_unique.
  - apply sort_index_strict. eapply Permutation_NoDup; [| exact Hnd].
    now apply Permutation_map.
  - now apply sort_index_strict.
  - eapply Permutation_trans; [apply sort_by_perm |].
    eapply Permutation_trans; [apply Permutation_sym; exact Hp |].
    apply Permutation_sym, sort_by_perm.
Qed.

Lemma filter_Permutation (p : A -> bool) (l l' : list A) :
  Permutation l l' -> Permutation (filter p l) (filter p l').
Proof.
  induction 1 as [| x l l' _ IH | x y l | l l' l'' _ IH1 _ IH2]; simpl.
  - constructor.
  - destruct (p x); [now constructor | assumption].
  - destruct (p x), (p y); try apply Permutation_refl. apply perm_swap.
  - eapply Permutation_trans; eassumption.
Qed.

Lemma filter_index_perm (k : Z) (l l' : list A) :
  NoDup (map index l) -> Permutation l l' ->
  filter (fun x => Z.eqb (index x) k) l' = filter (fun x => Z.eqb (index x) k) l.
Proof.
  intros Hnd Hp.
  pose proof (filter_unique index k l Hnd) as Hlen.
  pose proof (filter_Permutation (fun x => Z.eqb (index x) k) l l' Hp) as Hf.
  destruct (filter (fun x => Z.eqb (index x) k) l) as [| a [| b t]].
  - apply Permutation_nil in Hf. now rewrite Hf.
  - now apply Permutation_length_1_inv in Hf.
  - simpl in Hlen. lia.
Qed.

End RowOrder.

(** X11.  When no two price rows and no two factor rows share a date,
    [mk_ret_df] does not depend on the order of the rows of either
    table. *)
Theorem mk_ret_df_row_order (fm : mk_rets.fill_method)
        (prc prc' : list mk_rets.PriceRow) (ff_df ff_df' : list mk_rets.FactorRow) :
  NoDup (map mk_rets.p_date prc) ->
  NoDup (map mk_rets.f_date ff_df) ->
  Permutation prc prc' ->
  Permutation ff_df ff_df' ->
  mk_rets.mk_ret_df fm prc' ff_df' = mk_rets.mk_ret_df fm prc ff_df.
Proof.
  intros Hp Hf Hpp Hff. unfold mk_rets.mk_ret_df.
  rewrite (sort_index_perm mk_rets.p_date prc prc' Hp Hpp).
  f_equal. apply flat_map_ext. intros row. f_equal.
  now apply (filter_index_perm mk_rets.f_date).
Qed.

Lemma mk_ret_df_row_order_witness :
  mk_rets.mk_ret_df mk_rets.pad (rev mk_rets.sample_prices) (rev mk_rets.sample_factors)
  = mk_rets.mk_ret_df mk_rets.pad mk_rets.sample_prices mk_rets.sample_factors.
Proof.
  apply mk_ret_df_row_order; try apply Permutation_rev;
    repeat constructor; simpl; intuition discriminate.
Defined.

(** ** The order of strings and of group keys *)

Lemma sort_by_sorted {A : Type} (leb : A -> A -> bool) (l : list A) :
  (forall x y, leb x y = false -> leb y x = true) ->
  Sorted (fun x y => leb x y = true) (sort_by leb l).
Proof.
  intros Htotal. unfold sort_by. induction l as [| a l IH]; simpl; [constructor |].
  revert IH. generalize (fold_right (insert_by leb) [] l). clear l.
  intros l Hs. induction l as [| y l IHl]; simpl.
  - repeat constructor.
  - destruct (leb a y) eqn:Hay.
    + constructor; [assumption |]. now constructor.
    + inversion Hs as [| ? ? Hl Hhd]; subst.
      constructor; [now apply IHl |].
      destruct l as [| z l']; simpl.
      * constructor. now apply Htotal.
      * destruct (leb a z).
        -- constructor. now apply Htotal.
        -- constructor. now inversion Hhd.
Qed.

Lemma compare_refl (s : string) : String.compare s s = Eq.
Proof. now apply String_as_OT.cmp_eq. Qed.

Lemma compare_lt_trans (a b c : string) :
  String.compare a b = Lt -> String.compare b c = Lt -> String.compare a c = Lt.
Proof.
  intros Hab Hbc. apply String_as_OT.cmp_lt.
  apply String_as_OT.lt_trans with b; now apply String_as_OT.cmp_lt.
Qed.

Lemma string_leb_cases (a b : string) :
  String.leb a b = true <-> a = b \/ String.compare a b = Lt.
Proof.
  unfold String.leb. destruct (String.compare a b) eqn:Hc.
  - apply String.compare_eq_iff in Hc. tauto.
  - tauto.
  - split; [discriminate |]. intros [-> | H]; [| discriminate].
    rewrite compare_refl in Hc. discriminate.
Qed.

Lemma string_leb_trans (a b c : string) :
  String.leb a b = true -> String.leb b c = true -> String.leb a c = true.
Proof.
  rewrite !string_leb_cases. intros [-> | Hab] [-> | Hbc]; auto.
  right. now apply compare_lt_trans with b.
Qed.

Lemma string_leb_total (a b : string) :
  String.leb a b = false -> String.leb b a = true.
Proof.
  intros H. destruct (String.leb_total a b) as [H' | H']; [congruence | assumption].
Qed.

Section KeyOrder.

Import mk_events.

Lemma key_leb_cases (k1 k2 : key) :
  key_leb k1 k2 = true <-> k1 = k2 \/ spec_pair_lt k1 k2.
Proof.
  destruct k1 as [a b], k2 as [c d]. unfold key_leb, spec_pair_lt, String.ltb. simpl.
  destruct (String.compare a c) eqn:Hac.
  - apply String.compare_eq_iff in Hac. subst c.
    rewrite string_leb_cases. split.
    + intros [-> | Hbd]; [now left | right; right; now rewrite Hbd].
    + intros [Heq | [H | [_ H]]].
      * injection Heq as ->. now left.
      * discriminate.
      * right. now destruct (String.compare b d).
  - split; [intros _; right; now left | reflexivity].
  - split; [discriminate |]. intros [Heq | [H | [-> _]]].
    + injection Heq as -> ->. rewrite compare_refl in Hac. discriminate.
    + discriminate.
    + rewrite compare_refl in Hac. discriminate.
Qed.

Lemma key_leb_total (k1 k2 : key) : key_leb k1 k2 = false -> key_leb k2 k1 = true.
Proof.
  destruct k1 as [a b], k2 as [c d]. unfold key_leb. simpl.
  rewrite (String.compare_antisym c a).
  destruct (String.compare a c); simpl; try discriminate; [| reflexivity].
  apply string_leb_total.
Qed.

Lemma key_leb_trans (k1 k2 k3 : key) :
  key_leb k1 k2 = true -> key_leb k2 k3 = true -> key_leb k1 k3 = true.
Proof.
  destruct k1 as [a b], k2 as [c d], k3 as [e f]. unfold key_leb. simpl.
  destruct (String.compare a c) eqn:Hac; try discriminate.
  - apply String.compare_eq_iff in Hac. subst c.
    destruct (String.compare a e); try discriminate; [| reflexivity].
    apply string_leb_trans.
  - intros _. destruct (String.compare c e) eqn:Hce; try discriminate.
    + apply String.compare_eq_iff in Hce. subst e. now rewrite Hac.
    + intros _. now rewrite (compare_lt_trans a c e).
Qed.

Lemma group_keys_sorted (df : list DatedRow) :
  StronglySorted spec_pair_lt (group_keys df).
Proof.
  assert (Hs : StronglySorted (fun x y => key_leb x y = true) (group_keys df)).
  { apply Sorted_StronglySorted.
    - intros x y z. apply key_leb_trans.
    - apply sort_by_sorted, key_leb_total. }
  pose proof (group_keys_NoDup df) as Hnd.
  induction Hs as [| k l Hs IH Hall]; [constructor |].
  inversion Hnd as [| ? ? Hnotin Hnd']; subst.
  constructor; [now apply IH |].
  rewrite Forall_forall in *. intros k' Hk'.
  destruct (proj1 (key_leb_cases k k') (Hall k' Hk')) as [-> | Hlt];
    [contradiction | assumption].
Qed.

End KeyOrder.

(** ** More on the events *)

Section EventFacts.

Import mk_events.

Lemma mk_event_df_inv (recs : list RecRow) (events : list Event) :
  mk_event_df recs = Ok events ->
  exists types,
    Forall2 (fun g et => _mk_et (g_action g) = Ok et) (relevant recs) types
    /\ events = number_events (combine (relevant recs) types).
Proof.
  intros H. rewrite (mk_event_df_rows recs (mk_event_df_returns recs events H)) in H.
  destruct (mapM _mk_et (map g_action (relevant recs))) as [types |] eqn:Hm;
    [| discriminate].
  cbn [bind] in H. injection H as <-. exists types. split; [| reflexivity].
  apply mapM_Forall2 in Hm. remember (relevant recs) as F. clear HeqF.
  revert types Hm. induction F as [| g F IH]; intros types Hm;
    inversion Hm; subst; constructor; auto.
Qed.

Lemma mk_event_df_pairs (recs : list RecRow) (events : list Event) :
  mk_event_df recs = Ok events ->
  map spec_pair events = map gkey (relevant recs).
Proof.
  intros H. apply mk_event_df_inv in H. destruct H as [types [HF ->]].
  rewrite number_events_pairs. f_equal. eapply Forall2_combine_fst; eassumption.
Qed.

Lemma event_origin (recs : list RecRow) (events : list Event) (e : Event) :
  mk_event_df recs = Ok events -> In e events ->
  exists g, In g (relevant recs) /\ gkey g = spec_pair e
            /\ _mk_et (g_action g) = Ok (event_type e).
Proof.
  intros H He. apply mk_event_df_inv in H. destruct H as [types [HF ->]].
  apply In_nth_error in He. destruct He as [i Hi].
  apply number_events_nth in Hi. destruct Hi as [_ [p [Hp [Hk Ht]]]].
  apply nth_error_In in Hp.
  exists (fst p). split; [| split].
  - erewrite <- (Forall2_combine_fst _ (relevant recs) types) by eassumption.
    now apply in_map.
  - now symmetry.
  - rewrite Ht. exact (Forall2_combine_In _ _ _ p HF Hp).
Qed.

Lemma relevant_In (recs : list RecRow) (g : GroupRow) :
  In g (relevant recs) ->
  exists r, In r recs /\ spec_event_key r = gkey g /\ action r = g_action g.
Proof.
  unfold relevant. intros Hg. apply filter_In in Hg. destruct Hg as [Hg _].
  destruct (deduplicated_spec recs g Hg) as [r [Hr [Hk [Ha _]]]].
  exists r. repeat split; assumption.
Qed.

Lemma map_filter_sorted {X Y : Type} (R : Y -> Y -> Prop) (f : X -> Y)
      (p : X -> bool) (l : list X) :
  StronglySorted R (map f l) -> StronglySorted R (map f (filter p l)).
Proof.
  induction l as [| x l IH]; simpl; intros Hs; [constructor |].
  inversion Hs as [| ? ? Hs' Hall]; subst.
  destruct (p x); simpl; [| now apply IH].
  constructor; [now apply IH |].
  rewrite Forall_forall in *. intros y Hy. apply Hall.
  apply in_map_iff in Hy. destruct Hy as [z [<- Hz]].
  apply filter_In in Hz. apply in_map. tauto.
Qed.

Lemma relevant_sorted (recs : list RecRow) :
  StronglySorted spec_pair_lt (map gkey (relevant recs)).
Proof.
  unfold relevant. apply map_filter_sorted.
  unfold deduplicated. rewrite groupby_last_keys. apply group_keys_sorted.
Qed.

Lemma relevant_length (recs : list RecRow) :
  (List.length (relevant recs) <= List.length recs)%nat.
Proof.
  unfold relevant.
  apply Nat.le_trans with (List.length (deduplicated recs)); [apply filter_length_le |].
  unfold deduplicated, groupby_last. rewrite length_map.
  set (df := sort_index d_ts (with_event_date recs)).
  apply Nat.le_trans with (List.length (map key_of df)).
  - apply NoDup_incl_length; [apply group_keys_NoDup |].
    intros k Hk. apply group_keys_In in Hk. destruct Hk as [r [Hr <-]].
    now apply in_map.
  - rewrite length_map. unfold df, sort_index.
    rewrite (Permutation_length (sort_by_perm _ (with_event_date recs))).
    unfold with_event_date. now rewrite length_map.
Qed.

End EventFacts.

(** X12.  When [mk_event_df] returns, its events are in strictly
    ascending order of (event_date, firm), the order in which they are
    numbered; there are no more events than raw rows; every firm is in
    upper case and every event type is "upgrade" or "downgrade". *)
Theorem mk_event_df_events (recs : list mk_events.RecRow) (events : list Event) :
  mk_events.mk_event_df recs = Ok events ->
  StronglySorted spec_pair_lt (map spec_pair events)
  /\ (List.length events <= List.length recs)%nat
  /\ forall e, In e events ->
       upper (firm e) = firm e
       /\ (event_type e = "upgrade" \/ event_type e = "downgrade").
Proof.
  intros H. split; [| split].
  - rewrite (mk_event_df_pairs recs events H). apply relevant_sorted.
  - apply Nat.le_trans with (List.length (mk_events.relevant recs));
      [| apply relevant_length].
    rewrite <- (length_map spec_pair), (mk_event_df_pairs recs events H), length_map.
    apply Nat.le_refl.
  - intros e He. destruct (event_origin recs events e H He) as [g [Hg [Hk Ht]]].
    split.
    + destruct (relevant_In recs g Hg) as [r [_ [Hkey _]]].
      assert (Hf : firm e = upper (mk_events.rec_firm r)).
      { unfold spec_event_key, mk_events.gkey, spec_pair in *. congruence. }
      rewrite Hf. apply upper_idem.
    + apply mk_et_ok in Ht. destruct Ht as [[_ ->] | [_ ->]]; auto.
Qed.

Lemma mk_event_df_events_witness :
  StronglySorted spec_pair_lt
    [("2020-09-23", "BAIRD"); ("2020-09-23", "DEUTSCHE BANK")].
Proof.
  refine (proj1 (mk_event_df_events mk_events.sample_recs
            [ {| event_id := 1; firm := "BAIRD"; event_date := "2020-09-23";
                 event_type := "downgrade" |};
              {| event_id := 2; firm := "DEUTSCHE BANK"; event_date := "2020-09-23";
                 event_type := "upgrade" |} ] _)).
  vm_compute. reflexivity.
Defined.

Lemma filter_unique_key {X Y : Type} (f : X -> Y) (p : X -> bool) (l : list X) (e : X) :
  NoDup (map f l) -> In e l -> p e = true ->
  (forall x, In x l -> p x = true -> f x = f e) ->
  filter p l = [e].
Proof.
  induction l as [| a l IH]; simpl; intros Hnd He Hpe Hkey; [contradiction |].
  inversion Hnd as [| ? ? Hnotin Hnd']; subst.
  destruct He as [-> | He].
  - rewrite Hpe. f_equal. apply filter_none. intros x Hx.
    destruct (p x) eqn:Hpx; [| reflexivity].
    exfalso. apply Hnotin. rewrite <- (Hkey x (or_intror Hx) Hpx). now apply in_map.
  - destruct (p a) eqn:Hpa.
    + exfalso. apply Hnotin. rewrite (Hkey a (or_introl eq_refl) Hpa). now apply in_map.
    + apply IH; auto.
Qed.

Lemma mk_event_df_pairs_NoDup (recs : list mk_events.RecRow) (events : list Event) :
  mk_events.mk_event_df recs = Ok events -> NoDup (map spec_pair events).
Proof.
  intros H. rewrite (mk_event_df_pairs recs events H).
  unfold mk_events.relevant. apply NoDup_map_filter, deduplicated_NoDup.
Qed.

(** X13.  On the output of [mk_event_df], [_mk_example_event_df] never
    finds two rows: it returns the one event of DEUTSCHE BANK on
    2020-09-23, with the index 1, when there is one, and raises the
    length mismatch of the index assignment when there is none. *)
Theorem mk_example_event_df_on_events (recs : list mk_events.RecRow) (events : list Event) :
  mk_events.mk_event_df recs = Ok events ->
  (forall e, In e events -> spec_pair e = ("2020-09-23", "DEUTSCHE BANK") ->
     mk_cars._mk_example_event_df events
     = Ok [ {| event_id := 1; firm := firm e; event_date := event_date e;
               event_type := event_type e |} ])
  /\ ((forall e, In e events -> spec_pair e <> ("2020-09-23", "DEUTSCHE BANK")) ->
      mk_cars._mk_example_event_df events = Raise (ValueError "Length mismatch")).
Proof.
  intros H. pose proof (mk_event_df_pairs_NoDup recs events H) as Hnd.
  set (cond := fun e => (String.eqb (event_date e) "2020-09-23"
                         && String.eqb (firm e) "DEUTSCHE BANK")%bool).
  assert (Hcond : forall e, cond e = true <-> spec_pair e = ("2020-09-23", "DEUTSCHE BANK")).
  { intros e. unfold cond, spec_pair. rewrite andb_true_iff, !String.eqb_eq. split.
    - intros [-> ->]. reflexivity.
    - intros Heq. injection Heq as -> ->. split; reflexivity. }
  split.
  - intros e He Hpair. unfold mk_cars._mk_example_event_df. fold cond.
    rewrite (filter_unique_key spec_pair cond events e Hnd He); [reflexivity | |].
    + now apply Hcond.
    + intros x _ Hx. apply Hcond in Hx. congruence.
  - intros Hnone. unfold mk_cars._mk_example_event_df. fold cond.
    rewrite filter_none; [reflexivity |].
    intros x Hx. destruct (cond x) eqn:Hc; [| reflexivity].
    apply Hcond in Hc. exfalso. exact (Hnone x Hx Hc).
Qed.

Lemma mk_example_event_df_on_events_witness :
  mk_cars._mk_example_event_df
    [ {| event_id := 1; firm := "BAIRD"; event_date := "2020-09-23";
         event_type := "downgrade" |};
      {| event_id := 2; firm := "DEUTSCHE BANK"; event_date := "2020-09-23";
         event_type := "upgrade" |} ]
  = Ok [ {| event_id := 1; firm := "DEUTSCHE BANK"; event_date := "2020-09-23";
            event_type := "upgrade" |} ].
Proof.
  refine (proj1 (mk_example_event_df_on_events mk_events.sample_recs _ _)
            {| event_id := 2; firm := "DEUTSCHE BANK"; event_date := "2020-09-23";
               event_type := "upgrade" |} _ eq_refl).
  - vm_compute. reflexivity.
  - simpl. right. left. reflexivity.
Defined.

(** X14.  When the raw rows have distinct timestamps, [mk_event_df] does
    not depend on their order. *)
Theorem mk_event_df_row_order (recs recs' : list mk_events.RecRow) :
  NoDup (map mk_events.ts recs) ->
  Permutation recs recs' ->
  mk_events.mk_event_df recs' = mk_events.mk_event_df recs.
Proof.
  intros Hnd Hp.
  assert (Hs : sort_index mk_events.d_ts (mk_events.with_event_date recs')
               = sort_index mk_events.d_ts (mk_events.with_event_date recs)).
  { apply sort_index_perm.
    - unfold mk_events.with_event_date. rewrite map_map. exact Hnd.
    - unfold mk_events.with_event_date. now apply Permutation_map. }
  destruct recs as [| r recs0].
  - apply Permutation_nil in Hp. now subst recs'.
  - assert (Hne : recs' <> []).
    { intros ->. apply Permutation_sym, Permutation_nil in Hp. discriminate. }
    rewrite (mk_event_df_rows recs' Hne), (mk_event_df_rows (r :: recs0)) by discriminate.
    unfold mk_events.relevant, mk_events.deduplicated.
    now rewrite Hs.
Qed.

Lemma mk_event_df_row_order_witness :
  mk_events.mk_event_df (rev mk_events.sample_recs)
  = mk_events.mk_event_df mk_events.sample_recs.
Proof.
  apply mk_event_df_row_order; [| apply Permutation_rev].
  repeat constructor; simpl; intuition discriminate.
Defined.

(** ** The stages together *)

Lemma mapM_all_ok {A B : Type} (f : A -> result B) (l : list A) :
  (forall x, In x l -> exists y, f x = Ok y) ->
  exists ys, mapM f l = Ok ys /\ List.length ys = List.length l.
Proof.
  induction l as [| x l IH]; intros H; simpl.
  - exists []. split; reflexivity.
  - destruct (H x (or_introl eq_refl)) as [y Hy].
    destruct IH as [ys [Hys Hlen]]; [intros x' Hx'; apply H; now right |].
    exists (y :: ys). rewrite Hy, Hys. simpl. split; [reflexivity | now rewrite Hlen].
Qed.

Lemma mapM_raise_In {A B : Type} (f : A -> result B) (l : list A) (e : exn) :
  mapM f l = Raise e -> exists x, In x l /\ f x = Raise e.
Proof.
  induction l as [| x l IH]; simpl; [discriminate |].
  destruct (f x) as [y |] eqn:Hx; cbn [bind].
  - destruct (mapM f l) as [ys |] eqn:Hm; cbn [bind]; [discriminate |].
    intros H. injection H as ->. destruct (IH eq_refl) as [x' [Hin Hx']].
    exists x'. split; [now right | assumption].
  - intros H. injection H as ->. exists x. split; [now left | assumption].
Qed.

(** The date of an event of [mk_event_df] is the date of a raw row,
    written by [strftime]. *)
Lemma event_date_written (recs : list mk_events.RecRow) (events : list Event) (e : Event) :
  mk_events.mk_event_df recs = Ok events -> In e events ->
  exists r, In r recs
            /\ event_date e = strftime_ymd (mk_events.day_of (mk_events.ts r)).
Proof.
  intros H He. destruct (event_origin recs events e H He) as [g [Hg [Hk _]]].
  destruct (relevant_In recs g Hg) as [r [Hr [Hkey _]]].
  exists r. split; [assumption |].
  unfold spec_event_key, mk_events.gkey, spec_pair in *.
  unfold mk_events.day_of, mk_events.seconds_per_day. congruence.
Qed.



(** ** More on the t-statistics *)

Section TStatFacts.

Import test_hypo.

Lemma tstat_keys_sorted (event_cars : list CarRecord) :
  StronglySorted (fun a b => String.ltb a b = true) (group_keys event_cars).
Proof.
  assert (Hs : StronglySorted (fun x y => String.leb x y = true) (group_keys event_cars)).
  { apply Sorted_StronglySorted.
    - intros x y z. apply string_leb_trans.
    - apply sort_by_sorted, string_leb_total. }
  pose proof (tstat_keys_NoDup event_cars) as Hnd.
  induction Hs as [| k l Hs IH Hall]; [constructor |].
  inversion Hnd as [| ? ? Hnotin Hnd']; subst.
  constructor; [now apply IH |].
  rewrite Forall_forall in *. intros k' Hk'.
  destruct (proj1 (string_leb_cases k k') (Hall k' Hk')) as [-> | Hlt];
    [contradiction |]. unfold String.ltb. now rewrite Hlt.
Qed.

(** The count of a group, row by row. *)
Lemma count_group_cons (k : string) (r : CarRecord) (l : list CarRecord) :
  count (group_cars k (r :: l))
  = (if (String.eqb (cr_event_type r) k && negb (isna (car r)))%bool then 1 else 0)
    + count (group_cars k l).
Proof.
  rewrite !count_observed. unfold group_cars, spec_observed.
  cbn [filter]. destruct (String.eqb (cr_event_type r) k); cbn [andb map filter].
  - destruct (isna (car r)); cbn [negb]; [reflexivity |].
    cbn [List.length]. now rewrite Nat2Z.inj_succ, Z.add_1_l.
  - reflexivity.
Qed.

Lemma one_key_matches (t : string) (b : bool) (ks : list string) :
  NoDup ks -> In t ks ->
  spec_total (map (fun k => if (String.eqb t k && b)%bool then 1 else 0) ks)
  = if b then 1 else 0.
Proof.
  induction ks as [| k ks IH]; simpl; intros Hnd Hin; [contradiction |].
  inversion Hnd as [| ? ? Hnotin Hnd']; subst.
  destruct Hin as [-> | Hin].
  - rewrite String.eqb_refl. simpl.
    assert (Hrest : spec_total (map (fun k => if (String.eqb t k && b)%bool then 1 else 0) ks) = 0).
    { clear IH Hnd Hnd'. induction ks as [| k ks IHk]; [reflexivity |]. simpl.
      assert (Hne : String.eqb t k = false).
      { apply String.eqb_neq. intros ->. apply Hnotin. now left. }
      rewrite Hne. simpl. apply IHk. intros H. apply Hnotin. now right. }
    rewrite Hrest. destruct b; reflexivity.
  - assert (Hne : String.eqb t k = false).
    { apply String.eqb_neq. intros ->. contradiction. }
    rewrite Hne. simpl. now apply IH.
Qed.

Lemma spec_total_add (f g : string -> Z) (ks : list string) :
  spec_total (map (fun k => f k + g k) ks)
  = spec_total (map f ks) + spec_total (map g ks).
Proof. induction ks as [| k ks IH]; simpl; [reflexivity | rewrite IH; lia]. Qed.

Lemma counts_total (ks : list string) (event_cars : list CarRecord) :
  NoDup ks ->
  (forall r, In r event_cars -> In (cr_event_type r) ks) ->
  spec_total (map (fun k => count (group_cars k event_cars)) ks)
  = Z.of_nat (List.length (spec_dropna event_cars)).
Proof.
  intros Hnd. induction event_cars as [| r l IH]; intros Hall.
  - clear. induction ks as [| k ks IHk]; [reflexivity |].
    simpl in *. now rewrite IHk.
  - rewrite (map_ext _ _ (fun k => count_group_cons k r l)).
    rewrite (spec_total_add
               (fun k => if (String.eqb (cr_event_type r) k && negb (isna (car r)))%bool
                         then 1 else 0)).
    rewrite one_key_matches; [| assumption | apply Hall; now left].
    rewrite IH by (intros r' Hr'; apply Hall; now right).
    unfold spec_dropna. cbn [filter].
    destruct (isna (car r)); cbn [negb List.length]; [reflexivity |].
    now rewrite Nat2Z.inj_succ, Z.add_1_l.
Qed.

End TStatFacts.

(** X16.  The rows of the result of [calc_tstats] come in strictly
    ascending order of event type.  Each n_obs lies between 0 and the
    number of rows of its type, the n_obs of all rows add up to the
    number of rows of the table whose car is not missing, and a row with
    no observation has a missing mean. *)
Theorem calc_tstats_counts (event_cars : list test_hypo.CarRecord) :
  StronglySorted (fun a b => String.ltb a b = true)
    (map test_hypo.t_event_type (test_hypo.calc_tstats event_cars))
  /\ spec_total (map test_hypo.n_obs (test_hypo.calc_tstats event_cars))
     = Z.of_nat (List.length (spec_dropna event_cars))
  /\ forall row, In row (test_hypo.calc_tstats event_cars) ->
       0 <= test_hypo.n_obs row
            <= Z.of_nat (List.length
                           (test_hypo.group_cars (test_hypo.t_event_type row) event_cars))
       /\ (test_hypo.n_obs row = 0 -> test_hypo.car_bar row = nan).
Proof.
  split; [| split].
  - rewrite calc_tstats_keys. apply tstat_keys_sorted.
  - unfold test_hypo.calc_tstats. rewrite !map_map. simpl.
    apply counts_total; [apply tstat_keys_NoDup |].
    intros r Hr. apply tstat_keys_In. now apply in_map.
  - intros row Hrow. apply calc_tstats_In in Hrow. destruct Hrow as [_ Hrow].
    rewrite Hrow. simpl. rewrite count_observed. split.
    + pose proof (filter_length_le (fun x => negb (isna x))
                    (test_hypo.group_cars (test_hypo.t_event_type row) event_cars)).
      unfold spec_observed. lia.
    + intros Hzero. rewrite mean_observed. unfold spec_mean.
      destruct (spec_observed _) as [| x xs]; [reflexivity | simpl in Hzero; lia].
Qed.

Section MainFacts.

Import main.

Lemma main_eq (fm : mk_rets.fill_method) (prc : list mk_rets.PriceRow)
      (ff_df : list mk_rets.FactorRow) (recs : list mk_events.RecRow) :
  main fm prc ff_df recs
  = (events <- mk_events.mk_event_df recs ;;
     cars <- mapM (fun ser => mk_cars.calc_car ser (mk_rets.mk_ret_df fm prc ff_df) 2)
                  events ;;
     Ok (test_hypo.calc_tstats
           (map (fun p => {| test_hypo.cr_event_type := event_type (fst p);
                             test_hypo.car := snd p |})
                (combine events cars)))).
Proof.
  unfold main. destruct (mk_events.mk_event_df recs) as [events |]; [| reflexivity].
  cbn [bind]. unfold mk_cars.mk_cars_df. simpl.
  destruct (mapM _ events) as [cars |]; reflexivity.
Qed.

Lemma two_event_types (l : list string) :
  StronglySorted (fun a b => String.ltb a b = true) l ->
  (forall k, In k l -> k = "upgrade" \/ k = "downgrade") ->
  l = [] \/ l = ["downgrade"] \/ l = ["upgrade"] \/ l = ["downgrade"; "upgrade"].
Proof.
  intros Hs Hin.
  destruct l as [| a l]; [now left |].
  inversion Hs as [| ? ? Hs' Ha]; subst. rewrite Forall_forall in Ha.
  destruct l as [| b l].
  - destruct (Hin a (or_introl eq_refl)) as [-> | ->]; auto.
  - inversion Hs' as [| ? ? Hs'' Hb]; subst. rewrite Forall_forall in Hb.
    pose proof (Ha b (or_introl eq_refl)) as Hab.
    destruct (Hin a (or_introl eq_refl)) as [-> | ->],
             (Hin b (or_intror (or_introl eq_refl))) as [-> | ->];
      try discriminate.
    destruct l as [| c l]; [auto |]. exfalso.
    pose proof (Hb c (or_introl eq_refl)) as Hbc.
    destruct (Hin c (or_intror (or_intror (or_introl eq_refl)))) as [-> | ->];
      discriminate.
Qed.

End MainFacts.

(** X17.  For raw rows dated within the sample period, [main] raises
    exactly when [mk_event_df] does, and then the same exception (the
    unknown action): the later stages raise nothing.  When it returns,
    the result has at most the rows "downgrade" and "upgrade", in this
    order, and the n_obs of its rows add up to no more than the number
    of events. *)
Theorem main_runs (fm : mk_rets.fill_method) (prc : list mk_rets.PriceRow)
        (ff_df : list mk_rets.FactorRow) (recs : list mk_events.RecRow) :
  (forall r, In r recs -> config.in_sample_period (mk_events.day_of (mk_events.ts r))) ->
  (forall e, main.main fm prc ff_df recs = Raise e <-> mk_events.mk_event_df recs = Raise e)
  /\ (forall events, mk_events.mk_event_df recs = Ok events ->
      exists stats,
        main.main fm prc ff_df recs = Ok stats
        /\ (map test_hypo.t_event_type stats = []
            \/ map test_hypo.t_event_type stats = ["downgrade"]
            \/ map test_hypo.t_event_type stats = ["upgrade"]
            \/ map test_hypo.t_event_type stats = ["downgrade"; "upgrade"])
        /\ spec_total (map test_hypo.n_obs stats) <= Z.of_nat (List.length events)).
Proof.
  intros Hperiod.
  assert (Hok : forall events, mk_events.mk_event_df recs = Ok events ->
            exists cars,
              mapM (fun ser => mk_cars.calc_car ser (mk_rets.mk_ret_df fm prc ff_df) 2)
                   events = Ok cars
              /\ List.length cars = List.length events).
  { intros events H. apply mapM_all_ok. intros e He.
    destruct (event_date_written recs events e H He) as [r [Hr Hd]].
    assert (Hparse : to_datetime (event_date e) = Ok (mk_events.day_of (mk_events.ts r))).
    { rewrite Hd. apply to_datetime_strftime. now apply Hperiod. }
    rewrite (calc_car_eq e _ 2 _ ltac:(lia) Hparse). eexists. reflexivity. }
  split.
  - intros e. rewrite main_eq.
    destruct (mk_events.mk_event_df recs) as [events | e'] eqn:Hev; cbn [bind].
    + destruct (Hok events eq_refl) as [cars [Hcars _]]. rewrite Hcars. cbn [bind].
      split; discriminate.
    + split; intros He; injection He as ->; reflexivity.
  - intros events Hev. rewrite main_eq, Hev. cbn [bind].
    destruct (Hok events Hev) as [cars [Hcars Hlen]]. rewrite Hcars. cbn [bind].
    eexists. split; [reflexivity |].
    set (table := map _ (combine events cars)).
    split.
    + apply two_event_types.
      * rewrite calc_tstats_keys. apply tstat_keys_sorted.
      * intros k Hk. rewrite calc_tstats_keys in Hk. apply tstat_keys_In in Hk.
        unfold table in Hk. rewrite map_map in Hk. simpl in Hk.
        apply in_map_iff in Hk. destruct Hk as [[e c] [<- Hin]]. simpl.
        apply in_combine_l in Hin.
        destruct (event_origin recs events e Hev Hin) as [g [_ [_ Ht]]].
        apply mk_et_ok in Ht. destruct Ht as [[_ ->] | [_ ->]]; auto.
    + unfold test_hypo.calc_tstats. rewrite !map_map. cbn [test_hypo.n_obs snd].
      rewrite counts_total.
      * apply Nat2Z.inj_le.
        apply Nat.le_trans with (List.length table); [apply filter_length_le |].
        unfold table. rewrite length_map, length_combine, Hlen.
        rewrite Nat.min_id. apply Nat.le_refl.
      * apply tstat_keys_NoDup.
      * intros r Hr. apply tstat_keys_In. now apply in_map.
Qed.

Lemma main_runs_witness :
  exists stats,
    main.main mk_rets.pad mk_rets.sample_prices mk_rets.sample_factors
              mk_events.sample_recs = Ok stats
    /\ (map test_hypo.t_event_type stats = []
        \/ map test_hypo.t_event_type stats = ["downgrade"]
        \/ map test_hypo.t_event_type stats = ["upgrade"]
        \/ map test_hypo.t_event_type stats = ["downgrade"; "upgrade"])
    /\ spec_total (map test_hypo.n_obs stats) <= Z.of_nat 2.
Proof.
  refine (proj2 (main_runs mk_rets.pad mk_rets.sample_prices mk_rets.sample_factors
                   mk_events.sample_recs _)
            [ {| event_id := 1; firm := "BAIRD"; event_date := "2020-09-23";
                 event_type := "downgrade" |};
              {| event_id := 2; firm := "DEUTSCHE BANK"; event_date := "2020-09-23";
                 event_type := "upgrade" |} ] _).
  - intros r Hr. unfold config.in_sample_period.
    simpl in Hr. destruct Hr as [<- | [<- | [<- | [<- | []]]]]; vm_compute;
      split; discriminate.
  - vm_compute. reflexivity.
Defined.

(** ** The matched rows, in any order of the returns table *)

Lemma first_date_perm (ret_df : list RetRow) (a b : Z) :
  a < b ->
  Permutation
    (filter (fun r => date r =? a) ret_df
     ++ filter (fun r => (a + 1 <=? date r) && (date r <? b))%bool ret_df)
    (filter (fun r => (a <=? date r) && (date r <? b))%bool ret_df).
Proof.
  intros Hab. induction ret_df as [| r l IH]; [constructor |]. simpl.
  destruct (Z.eq_dec (date r) a) as [Hra | Hra].
  - replace (date r =? a) with true by lia.
    replace ((a + 1 <=? date r) && (date r <? b))%bool with false by lia.
    replace ((a <=? date r) && (date r <? b))%bool with true by lia.
    simpl. now constructor.
  - replace (date r =? a) with false by lia.
    destruct ((a <=? date r) && (date r <? b))%bool eqn:Hin.
    + replace ((a + 1 <=? date r) && (date r <? b))%bool with true by lia.
      apply Permutation_sym, Permutation_cons_app, Permutation_sym, IH.
    + replace ((a + 1 <=? date r) && (date r <? b))%bool with false by lia.
      exact IH.
Qed.

Lemma matched_perm (ret_df : list RetRow) (a : Z) (n : nat) :
  Permutation
    (flat_map (fun k => filter (fun r => date r =? k) ret_df)
              (map (fun i => a + Z.of_nat i) (seq 0 n)))
    (filter (fun r => (a <=? date r) && (date r <? a + Z.of_nat n))%bool ret_df).
Proof.
  revert a. induction n as [| n IH]; intros a.
  - simpl. rewrite filter_none; [constructor |]. intros x _. lia.
  - cbn [seq map flat_map]. rewrite <- seq_shift, map_map.
    replace (map (fun i => a + Z.of_nat (S i)) (seq 0 n))
      with (map (fun i => (a + 1) + Z.of_nat i) (seq 0 n))
      by (apply map_ext; intros i; lia).
    replace (a + Z.of_nat 0) with a by lia.
    eapply Permutation_trans.
    + apply Permutation_app_head. apply (IH (a + 1)).
    + replace (a + 1 + Z.of_nat n) with (a + Z.of_nat (S n)) by lia.
      apply first_date_perm. lia.
Qed.

Lemma spec_matched_window (d w : Z) (ret_df : list RetRow) :
  0 <= w ->
  Permutation (spec_matched d w ret_df) (mk_cars.loc_slice (d - w) (d + w) ret_df).
Proof.
  intros Hw.
  unfold spec_matched, range, mk_cars.loc_slice. rewrite flat_map_map.
  replace (flat_map (fun x => filter (fun r => date r =? d + (- w + Z.of_nat x)) ret_df)
                    (seq 0 (Z.to_nat (w + 1 - - w))))
    with (flat_map (fun k => filter (fun r => date r =? k) ret_df)
                   (map (fun i => (d - w) + Z.of_nat i)
                        (seq 0 (Z.to_nat (w + 1 - - w))))).
  - eapply Permutation_trans; [apply matched_perm |].
    replace (filter (fun r => (d - w <=? date r)
                              && (date r <? d - w + Z.of_nat (Z.to_nat (w + 1 - - w))))%bool
                    ret_df)
      with (filter (fun r => (d - w <=? date r) && (date r <=? d + w))%bool ret_df);
      [apply Permutation_refl |].
    apply filter_ext. intros r. f_equal. rewrite Z2Nat.id by lia.
    destruct (Z.ltb_spec (date r) (d - w + (w + 1 - - w))),
             (Z.leb_spec (date r) (d + w)); try reflexivity; exfalso; lia.
  - rewrite flat_map_map. apply flat_map_ext. intros i.
    apply filter_ext. intros r. now rewrite Z.add_assoc.
Qed.

Lemma join_inner_In (dates : list mk_cars.DateRow) (ret_df : list RetRow)
      (row : mk_cars.DateRow * RetRow) :
  In row (mk_cars.join_inner dates ret_df) <->
  In (fst row) dates /\ In (snd row) ret_df
  /\ date (snd row) = mk_cars.ret_date (fst row).
Proof.
  unfold mk_cars.join_inner. rewrite in_flat_map. split.
  - intros [dr [Hdr Hrow]]. apply in_map_iff in Hrow.
    destruct Hrow as [r [<- Hr]]. apply filter_In in Hr. destruct Hr as [Hr Hd].
    apply Z.eqb_eq in Hd. simpl. auto.
  - intros [Hdr [Hr Hd]]. exists (fst row). split; [assumption |].
    apply in_map_iff. exists (snd row). split; [now destruct row |].
    apply filter_In. split; [assumption | now apply Z.eqb_eq].
Qed.

(** X18.  Whatever the order of the returns table, the rows that
    [calc_car] joins to the dates of [expand_dates] are, up to their
    order, the rows dated from [d - w] to [d + w]: no row is joined
    twice and none within the window is left out; every joined row sits
    beside the candidate date it has, whose event_time is its distance
    in days from the event. *)
Theorem matched_rows_are_window (ser : Event) (ret_df : list RetRow) (w d : Z) :
  0 <= w ->
  to_datetime (event_date ser) = Ok d ->
  exists dates,
    mk_cars.expand_dates ser w = Ok dates
    /\ Permutation (map snd (mk_cars.join_inner dates ret_df))
                   (mk_cars.loc_slice (d - w) (d + w) ret_df)
    /\ List.length (mk_cars.join_inner dates ret_df)
       = List.length (mk_cars.loc_slice (d - w) (d + w) ret_df)
    /\ forall row, In row (mk_cars.join_inner dates ret_df) ->
         mk_cars.ret_date (fst row) = date (snd row)
         /\ mk_cars.event_time (fst row) = date (snd row) - d.
Proof.
  intros Hw Hd. eexists. split; [apply (expand_dates_eq ser w d Hw Hd) |].
  assert (Hp : Permutation
                 (map snd (mk_cars.join_inner
                             (map (spec_window_row ser d) (range (- w) (w + 1))) ret_df))
                 (mk_cars.loc_slice (d - w) (d + w) ret_df)).
  { rewrite join_inner_matched. now apply spec_matched_window. }
  split; [exact Hp |]. split.
  - rewrite <- (length_map snd). now apply Permutation_length.
  - intros row Hrow. apply join_inner_In in Hrow. destruct Hrow as [Hdr [_ Hdate]].
    apply in_map_iff in Hdr. destruct Hdr as [k [Hk _]].
    rewrite <- Hk in *. cbn [mk_cars.ret_date mk_cars.event_time spec_window_row] in *.
    split; [now symmetry |]. rewrite Hdate. now rewrite Z.add_simpl_l.
Qed.

Lemma matched_rows_are_window_witness :
  exists dates,
    mk_cars.expand_dates mk_cars.wunderlich 2 = Ok dates
    /\ Permutation
         (map snd (mk_cars.join_inner dates (mk_cars.one_day_far ++ mk_cars.one_day)))
         (mk_cars.loc_slice (15386 - 2) (15386 + 2)
            (mk_cars.one_day_far ++ mk_cars.one_day)).
Proof.
  destruct (matched_rows_are_window mk_cars.wunderlich
              (mk_cars.one_day_far ++ mk_cars.one_day) 2 15386 ltac:(lia) eq_refl)
    as [dates [Hdates [Hperm _]]].
  exists dates. split; [exact Hdates | exact Hperm].
Defined.

(** X19.  In the pipeline, where the returns table is the output of
    [mk_ret_df], the CAR of an event dated [d] is computed from the rows
    of that table dated from [d - w] to [d + w], in their order; NaN
    when there is none. *)
Theorem calc_car_on_mk_ret_df (fm : mk_rets.fill_method) (prc : list mk_rets.PriceRow)
        (ff_df : list mk_rets.FactorRow) (ser : Event) (w d : Z) :
  0 <= w ->
  to_datetime (event_date ser) = Ok d ->
  mk_cars.calc_car ser (mk_rets.mk_ret_df fm prc ff_df) w
  = Ok (match mk_cars.loc_slice (d - w) (d + w) (mk_rets.mk_ret_df fm prc ff_df) with
        | [] => nan
        | m => mk_cars.nansum (map spec_abnormal_return m)
        end)
  /\ forall r, In r (mk_cars.loc_slice (d - w) (d + w) (mk_rets.mk_ret_df fm prc ff_df)) ->
       isna (ret r) = false /\ isna (mkt r) = false /\ d - w <= date r <= d + w.
Proof.
  intros Hw Hd. split.
  - rewrite (calc_car_eq ser _ w d Hw Hd).
    rewrite spec_matched_sorted; [reflexivity | assumption |].
    apply mk_ret_df_date_sorted.
  - intros r Hr. unfold mk_cars.loc_slice in Hr. apply filter_In in Hr.
    destruct Hr as [Hr Hwin]. apply mk_ret_df_origin in Hr.
    destruct Hr as [Hm [Hv _]]. repeat split; try assumption; lia.
Qed.

Lemma calc_car_on_mk_ret_df_witness :
  mk_cars.calc_car mk_cars.wunderlich
    (mk_rets.mk_ret_df mk_rets.pad mk_rets.sample_prices mk_rets.sample_factors) 2
  = Ok (match mk_cars.loc_slice (15386 - 2) (15386 + 2)
                (mk_rets.mk_ret_df mk_rets.pad mk_rets.sample_prices
                   mk_rets.sample_factors) with
        | [] => nan
        | m => mk_cars.nansum (map spec_abnormal_return m)
        end).
Proof.
  exact (proj1 (calc_car_on_mk_ret_df mk_rets.pad mk_rets.sample_prices
                  mk_rets.sample_factors mk_cars.wunderlich 2 15386
                  ltac:(lia) eq_refl)).
Defined.

(** ** The substring test of the action filter *)

Lemma prefix_spec (pat s : string) :
  prefix pat s = true <-> exists rest, s = (pat ++ rest)%string.
Proof.
  revert s. induction pat as [| c pat IH]; intros s.
  - split; [intros _; now exists s | intros _; now destruct s].
  - destruct s as [| c' s].
    + split; [discriminate | intros [rest H]; discriminate].
    + cbn [prefix]. destruct (ascii_dec c c') as [<- | Hne].
      * rewrite IH. split; intros [rest H]; exists rest.
        -- simpl. now rewrite H.
        -- simpl in H. now injection H.
      * split; [discriminate |]. intros [rest H]. simpl in H.
        injection H as H _. now symmetry in H.
Qed.

(** [contains pat s] holds exactly when [pat] occurs somewhere in [s],
    as the search of [str.contains] for a pattern without special
    characters does. *)
Lemma contains_spec (pat s : string) :
  contains pat s = true <-> exists before rest, s = (before ++ pat ++ rest)%string.
Proof.
  induction s as [| c s IH].
  - cbn [contains]. destruct (prefix pat "") eqn:Hp.
    + apply prefix_spec in Hp. destruct Hp as [rest Hp].
      split; [intros _; now exists "", rest | reflexivity].
    + split; [discriminate |]. intros [before [rest H]].
      destruct before; [| discriminate]. simpl in H.
      assert (Hp' : prefix pat "" = true) by (apply prefix_spec; now exists rest).
      congruence.
  - cbn [contains]. destruct (prefix pat (String c s)) eqn:Hp.
    + apply prefix_spec in Hp. destruct Hp as [rest Hp].
      split; [intros _; now exists "", rest | reflexivity].
    + rewrite IH. split.
      * intros [before [rest H]]. exists (String c before), rest. simpl. now rewrite H.
      * intros [before [rest H]]. destruct before as [| c' before].
        -- simpl in H.
           assert (Hp' : prefix pat (String c s) = true)
             by (apply prefix_spec; now exists rest).
           congruence.
        -- simpl in H. injection H as _ H. now exists before, rest.
Qed.

(** ** The actions of the events *)

(** C6.  On a recommendation table with at least one row: the rows that
    survive step 4.1 are the deduplicated rows whose action has "up" or
    "down" as a substring.  When every surviving action is exactly "up"
    or "down", [mk_event_df] returns one event per surviving row, in
    their order, "down" mapped to "downgrade" and "up" to "upgrade".
    When some surviving action is neither, [mk_event_df] raises the
    exception that carries the first such action; nothing catches it,
    and [main] raises it as well. *)
Theorem mk_event_df_actions (recs : list mk_events.RecRow) :
  recs <> [] ->
  (forall g, In g (mk_events.relevant recs) <->
             In g (mk_events.deduplicated recs)
             /\ exists before rest,
                  mk_events.g_action g = (before ++ "up" ++ rest)%string
                  \/ mk_events.g_action g = (before ++ "down" ++ rest)%string)
  /\ ((forall g, In g (mk_events.relevant recs) ->
                 mk_events.g_action g = "up" \/ mk_events.g_action g = "down") ->
      exists events,
        mk_events.mk_event_df recs = Ok events
        /\ map spec_pair events = map mk_events.gkey (mk_events.relevant recs)
        /\ map event_type events
           = map (fun g => if String.eqb (mk_events.g_action g) "down"
                           then "downgrade" else "upgrade")
                 (mk_events.relevant recs))
  /\ (forall g, In g (mk_events.relevant recs) ->
        mk_events.g_action g <> "up" -> mk_events.g_action g <> "down" ->
        exists l1 bad l2,
          mk_events.relevant recs = l1 ++ bad :: l2
          /\ (forall a, In a l1 ->
                        mk_events.g_action a = "up" \/ mk_events.g_action a = "down")
          /\ mk_events.g_action bad <> "up" /\ mk_events.g_action bad <> "down"
          /\ mk_events.mk_event_df recs
             = Raise (UnknownAction (mk_events.g_action bad))
          /\ forall fm prc ff_df,
               main.main fm prc ff_df recs
               = Raise (UnknownAction (mk_events.g_action bad))).
Proof.
  intros Hrows. split; [| split].
  - intros g. unfold mk_events.relevant, mk_events.contains_up_down.
    rewrite filter_In, orb_true_iff, !contains_spec. split.
    + intros [Hg [[before [rest H]] | [before [rest H]]]];
        (split; [assumption |]); exists before, rest; auto.
    + intros [Hg [before [rest [H | H]]]]; (split; [assumption |]);
        [left | right]; now exists before, rest.
  - intros Hall. rewrite (mk_event_df_rows recs Hrows).
    set (F := mk_events.relevant recs) in *.
    assert (Hm : mapM mk_events._mk_et (map mk_events.g_action F)
                 = Ok (map (fun g => if String.eqb (mk_events.g_action g) "down"
                                     then "downgrade" else "upgrade") F)).
    { clearbody F. induction F as [| g F IH]; [reflexivity |]. simpl.
      rewrite IH by (intros g' Hg'; apply Hall; now right).
      destruct (Hall g (or_introl eq_refl)) as [-> | ->]; reflexivity. }
    rewrite Hm. cbn [bind]. eexists. split; [reflexivity |].
    set (types := map _ F).
    assert (HF : Forall2 (fun _ _ => True) F types).
    { unfold types. clear. induction F; simpl; constructor; auto. }
    split.
    + rewrite number_events_pairs. f_equal.
      eapply Forall2_combine_fst; eassumption.
    + unfold mk_events.number_events. rewrite map_map. simpl.
      transitivity (map snd (map snd (combine (seq 0 (List.length (combine F types)))
                                              (combine F types)))).
      * now rewrite !map_map.
      * rewrite combine_seq_snd. eapply Forall2_combine_snd; eassumption.
  - intros g Hg Hup Hdown.
    set (isbad := fun a : mk_events.GroupRow =>
                    negb (String.eqb (mk_events.g_action a) "up"
                          || String.eqb (mk_events.g_action a) "down")).
    assert (Hbadg : isbad g = true).
    { unfold isbad. apply String.eqb_neq in Hup, Hdown. now rewrite Hup, Hdown. }
    destruct (first_such isbad _ g Hg Hbadg) as [l1 [bad [l2 [Hsplit [Hbad Hl1]]]]].
    unfold isbad in Hbad. apply negb_true_iff, orb_false_iff in Hbad.
    destruct Hbad as [Hbu Hbd]. apply String.eqb_neq in Hbu, Hbd.
    assert (Hraise : mk_events.mk_event_df recs
                     = Raise (UnknownAction (mk_events.g_action bad))).
    { rewrite (mk_event_df_rows recs Hrows), Hsplit, map_app. simpl.
      rewrite (mapM_first_raise mk_events._mk_et _ _ _
                 (UnknownAction (mk_events.g_action bad))); [reflexivity | |].
      - intros v Hv. apply in_map_iff in Hv. destruct Hv as [a [<- Ha]].
        apply Hl1 in Ha. unfold isbad in Ha.
        apply negb_false_iff, orb_true_iff in Ha.
        destruct Ha as [Ha | Ha]; apply String.eqb_eq in Ha; rewrite Ha;
          eexists; reflexivity.
      - now apply mk_et_raise. }
    exists l1, bad, l2. split; [assumption |].
    split; [| split; [| split; [| split]]]; try assumption.
    + intros a Ha. apply Hl1 in Ha. unfold isbad in Ha.
      apply negb_false_iff, orb_true_iff in Ha.
      destruct Ha as [Ha | Ha]; apply String.eqb_eq in Ha; auto.
    + intros fm prc ff_df. rewrite main_eq, Hraise. reflexivity.
Qed.

Lemma mk_event_df_actions_witness :
  (exists events,
     mk_events.mk_event_df mk_events.sample_recs = Ok events
     /\ map spec_pair events
        = [("2020-09-23", "BAIRD"); ("2020-09-23", "DEUTSCHE BANK")]
     /\ map event_type events = ["downgrade"; "upgrade"])
  /\ mk_events.mk_event_df mk_events.sample_upgrade = Raise (UnknownAction "upgrade")
  /\ main.main mk_rets.pad mk_rets.sample_prices mk_rets.sample_factors
       mk_events.sample_upgrade
     = Raise (UnknownAction "upgrade").
Proof.
  split.
  - destruct (mk_event_df_actions mk_events.sample_recs ltac:(discriminate))
      as [_ [Hok _]].
    destruct Hok as [events [Hev [Hpairs Htypes]]].
    + intros g Hg. vm_compute in Hg.
      destruct Hg as [<- | [<- | []]]; [right | left]; reflexivity.
    + exists events. split; [exact Hev |]. split; [exact Hpairs | exact Htypes].
  - destruct (mk_event_df_actions mk_events.sample_upgrade ltac:(discriminate))
      as [_ [_ Hbad]].
    destruct (Hbad {| mk_events.g_event_date := "2020-09-23";
                      mk_events.g_firm := "BAIRD";
                      mk_events.g_action := "upgrade" |})
      as [l1 [bad [l2 [Hsplit [_ [_ [_ [Hraise Hmain]]]]]]]].
    + vm_compute. left. reflexivity.
    + discriminate.
    + discriminate.
    + assert (Hb : mk_events.g_action bad = "upgrade").
      { vm_compute in Hsplit. destruct l1 as [| a l1].
        - injection Hsplit as <- _. reflexivity.
        - destruct l1; discriminate. }
      rewrite Hb in Hraise, Hmain. split; [exact Hraise | apply Hmain].
Defined.
